(** * FinBench: indicator calculator, scoring engine and statistics

    A shallow embedding of the Go sources of FinBench (packages [market] and
    [benchmark]) and the proofs of the properties its specification states.

    Modelling conventions.
    - Go's [float64] is Rocq's primitive binary64 [float]: [+ - * /], [sqrt],
      [abs] and the comparisons are the IEEE 754 operations, rounded to
      nearest even, exactly the ones the Go compiler emits on amd64 (no
      fused multiply-add).
    - Go's [int] is [Z].  On every path the theorems below range over, the
      integers stay between -1 and the length of a slice plus one, so the
      64-bit wrap-around of Go never happens there.
    - A slice is a [list]; an index out of range panics, which the model
      renders as [None] in the [option] monad.
    - A [for] loop with a counter is a fold over the counter values,
      threading the loop-carried variables. *)

From Stdlib Require Import ZArith List Floats Lia Bool Ascii String.
From stdpp Require Import base option list strings gmap pretty.

Set Warnings "-inexact-float,-register-all".

(** ** Go runtime: integers, slices, loops *)

Definition max_int : Z := 2 ^ 63 - 1.

(** [len(s)] *)
Definition len {A} (s : list A) : Z := Z.of_nat (length s).

(** [s[i]]: panics when [i] is out of range. *)
Definition index {A} (s : list A) (i : Z) : option A :=
  if (i <? 0)%Z then None else s !! Z.to_nat i.

(** [s[i] = v] *)
Definition store {A} (s : list A) (i : Z) (v : A) : option (list A) :=
  if (i <? 0)%Z then None
  else if (i <? len s)%Z then Some (<[Z.to_nat i := v]> s)
  else None.

(** [n] iterations of a loop body, the counter starting at [i]. *)
Fixpoint for_steps {St} (n : nat) (i : Z) (body : Z → St → option St) (s : St)
  : option St :=
  match n with
  | O => Some s
  | S n' => s' ← body i s; for_steps n' (i + 1)%Z body s'
  end.

(** [for i := lo; i < hi; i++ { body }] *)
Definition for_range {St} (lo hi : Z) (body : Z → St → option St) (s : St)
  : option St :=
  for_steps (Z.to_nat (hi - lo)) lo body s.

(** [for _, x := range l { body }], with a body that may panic *)
Fixpoint for_each {A St} (body : St → A → option St) (l : list A) (s : St)
  : option St :=
  match l with
  | [] => Some s
  | x :: l' => s' ← body s x; for_each body l' s'
  end.

(** [float64(n)] for an [int] [n], exact below 2^53 and rounded to nearest
    above; meaningful for [-2^63 < n < 2^63]. *)
Definition float64_of_int (n : Z) : float :=
  if (n <? 0)%Z then PrimFloat.opp (PrimFloat.of_uint63 (Uint63.of_Z (- n)))
  else PrimFloat.of_uint63 (Uint63.of_Z n).

(** ** Go runtime: errors, strings *)

(** A Go result pair [(value, err)]: either the value, or the error with its
    message. *)
Inductive result (A : Type) : Type :=
  | Ok (a : A)
  | Err (msg : string).
Arguments Ok {A} a.
Arguments Err {A} msg.

(** The bytes of a Go string. *)
Definition bytes (s : string) : list ascii := list_ascii_of_string s.

Definition of_bytes (l : list ascii) : string := string_of_list_ascii l.

Definition byte_eqb (a b : ascii) : bool := Ascii.eqb a b.

(** [strings.Index(s, c)] for a one-byte [c]: the first position of [c], or
    -1, here [None]. *)
Fixpoint index_byte (c : ascii) (l : list ascii) : option nat :=
  match l with
  | [] => None
  | x :: l' => if byte_eqb x c then Some 0%nat else S <$> index_byte c l'
  end.

(** [strings.LastIndex(s, c)] for a one-byte [c]. *)
Fixpoint last_index_byte (c : ascii) (l : list ascii) : option nat :=
  match l with
  | [] => None
  | x :: l' =>
      match last_index_byte c l' with
      | Some i => Some (S i)
      | None => if byte_eqb x c then Some 0%nat else None
      end
  end.

Fixpoint is_prefix (p l : list ascii) : bool :=
  match p, l with
  | [], _ => true
  | _ :: _, [] => false
  | a :: p', b :: l' => byte_eqb a b && is_prefix p' l'
  end.

(** [strings.Contains] *)
Fixpoint contains (p l : list ascii) : bool :=
  is_prefix p l ||
  match l with
  | [] => false
  | _ :: l' => contains p l'
  end.

(** [strings.HasSuffix] *)
Definition HasSuffix (s suffix : string) : bool :=
  is_prefix (reverse (bytes suffix)) (reverse (bytes s)).

(** ** Go's [math] package (the functions the sources call) *)

Module math.

Definition Abs (x : float) : float := PrimFloat.abs x.

Definition Sqrt (x : float) : float := PrimFloat.sqrt x.

Definition IsNaN (x : float) : bool := negb (x =? x)%float.

Definition Signbit (x : float) : bool :=
  match Prim2SF x with
  | S754_zero s | S754_infinity s | S754_finite s _ _ => s
  | S754_nan => false
  end.

(** [math.Max]: +Inf wins, then NaN, then the sign of zero is honoured. *)
Definition Max (x y : float) : float :=
  if ((x =? infinity) || (y =? infinity))%float then infinity
  else if IsNaN x || IsNaN y then nan
  else if ((x =? 0) && (x =? y))%float then (if Signbit x then y else x)
  else if (y <? x)%float then x
  else y.

End math.

(** ** Package [market]: candles and indicators *)

Record Kline := {
  OpenTime : Z;
  Open : float;
  High : float;
  Low : float;
  Close : float;
  Volume : float;
  CloseTime : Z
}.

(** [sum += klines[i].F] *)
Definition add_field (F : Kline → float) (klines : list Kline)
  (i : Z) (sum : float) : option float :=
  k ← index klines i; Some (sum + F k)%float.

Definition CalculateEMA (klines : list Kline) (period : Z) : option float :=
  if (len klines <? period)%Z then Some 0%float
  else
    sum ← for_range 0 period (add_field Close klines) 0%float;
    let ema := (sum / float64_of_int period)%float in
    let multiplier := (2 / float64_of_int (period + 1))%float in
    for_range period (len klines)
      (λ i ema, k ← index klines i;
                Some ((Close k - ema) * multiplier + ema)%float)
      ema.

Definition CalculateSMA (klines : list Kline) (period : Z) : option float :=
  if (len klines <? period)%Z then Some 0%float
  else
    sum ← for_range (len klines - period) (len klines)
            (add_field Close klines) 0%float;
    Some (sum / float64_of_int period)%float.

Definition CalculateMACD (klines : list Kline) : option float :=
  if (len klines <? 26)%Z then Some 0%float
  else
    ema12 ← CalculateEMA klines 12;
    ema26 ← CalculateEMA klines 26;
    Some (ema12 - ema26)%float.

(** [change := klines[i].Close - klines[i-1].Close] *)
Definition close_change (klines : list Kline) (i : Z) : option float :=
  k ← index klines i;
  k' ← index klines (i - 1);
  Some (Close k - Close k')%float.

Definition CalculateRSI (klines : list Kline) (period : Z) : option float :=
  if (len klines <=? period)%Z then Some 0%float
  else
    '(gains, losses) ←
      for_range 1 (period + 1)
        (λ i '(gains, losses),
           change ← close_change klines i;
           if (0 <? change)%float then Some ((gains + change)%float, losses)
           else Some (gains, (losses + - change)%float))
        (0%float, 0%float);
    let avgGain := (gains / float64_of_int period)%float in
    let avgLoss := (losses / float64_of_int period)%float in
    '(avgGain, avgLoss) ←
      for_range (period + 1) (len klines)
        (λ i '(avgGain, avgLoss),
           change ← close_change klines i;
           if (0 <? change)%float then
             Some (((avgGain * float64_of_int (period - 1) + change)
                      / float64_of_int period)%float,
                   ((avgLoss * float64_of_int (period - 1))
                      / float64_of_int period)%float)
           else
             Some (((avgGain * float64_of_int (period - 1))
                      / float64_of_int period)%float,
                   ((avgLoss * float64_of_int (period - 1) + - change)
                      / float64_of_int period)%float))
        (avgGain, avgLoss);
    if (avgLoss =? 0)%float then Some 100%float
    else
      let rs := (avgGain / avgLoss)%float in
      let rsi := (100 - 100 / (1 + rs))%float in
      Some rsi.

Definition CalculateATR (klines : list Kline) (period : Z) : option float :=
  if (len klines <=? period)%Z then Some 0%float
  else
    trs ← for_range 1 (len klines)
            (λ i trs,
               k ← index klines i;
               k' ← index klines (i - 1);
               let high := High k in
               let low := Low k in
               let prevClose := Close k' in
               let tr1 := (high - low)%float in
               let tr2 := math.Abs (high - prevClose) in
               let tr3 := math.Abs (low - prevClose) in
               store trs i (math.Max tr1 (math.Max tr2 tr3)))
            (replicate (length klines) 0%float);
    sum ← for_range 1 (period + 1)
            (λ i sum, t ← index trs i; Some (sum + t)%float) 0%float;
    let atr := (sum / float64_of_int period)%float in
    for_range (period + 1) (len klines)
      (λ i atr, t ← index trs i;
                Some ((atr * float64_of_int (period - 1) + t)
                        / float64_of_int period)%float)
      atr.

(** The three bands, in the order the source returns them:
    [(upper, middle, lower)]. *)
Definition CalculateBOLL (klines : list Kline) (period : Z) (multiplier : float)
  : option (float * float * float) :=
  if (len klines <? period)%Z then Some (0, 0, 0)%float
  else
    sum ← for_range (len klines - period) (len klines)
            (add_field Close klines) 0%float;
    let sma := (sum / float64_of_int period)%float in
    variance ← for_range (len klines - period) (len klines)
                 (λ i variance,
                    k ← index klines i;
                    let diff := (Close k - sma)%float in
                    Some (variance + diff * diff)%float)
                 0%float;
    let stdDev := math.Sqrt (variance / float64_of_int period) in
    let middle := sma in
    let upper := (sma + multiplier * stdDev)%float in
    let lower := (sma - multiplier * stdDev)%float in
    Some (upper, middle, lower).

Definition CalculateVolumeMA (klines : list Kline) (period : Z) : option float :=
  if (len klines <? period)%Z then Some 0%float
  else
    sum ← for_range (len klines - period) (len klines)
            (add_field Volume klines) 0%float;
    Some (sum / float64_of_int period)%float.

(** ** Package [benchmark]: data model *)

Record IndicatorResult := {
  MA20 : float;
  EMA12 : float;
  EMA26 : float;
  MACD : float;
  RSI14 : float;
  BOLLUp : float;
  BOLLMid : float;
  BOLLLow : float;
  ATR14 : float;
  VolumeMA : float
}.

(** [IndicatorScores] has the ten fields of [IndicatorResult], under the same
    names and JSON keys; the model uses one record for both. *)
Definition IndicatorScores := IndicatorResult.

(** The zero value of the struct: [&IndicatorResult{}], [var result
    IndicatorResult]. *)
Definition zero_IndicatorResult : IndicatorResult :=
  {| MA20 := 0; EMA12 := 0; EMA26 := 0; MACD := 0; RSI14 := 0;
     BOLLUp := 0; BOLLMid := 0; BOLLLow := 0; ATR14 := 0; VolumeMA := 0 |}.

Record ModelInfo := {
  Provider : string;
  Model_id : string;
  Version : string;
  DisplayName : string;
  BaseURL : string
}.

Definition zero_ModelInfo : ModelInfo :=
  {| Provider := ""; Model_id := ""; Version := ""; DisplayName := "";
     BaseURL := "" |}.

Record Snapshot := {
  ID : string;
  Symbol : string;
  Interval : string;
  Timestamp : Z;
  Klines : list Kline
}.

(** A [*BenchResult].  Pointer fields that the code tests against [nil] are
    options; [Latency] is a [time.Duration] in nanoseconds. *)
Record BenchResult := {
  SnapshotID : string;
  Model : string;
  Info : option ModelInfo;
  RunIndex : Z;
  Expected : option IndicatorResult;
  Actual : option IndicatorResult;
  Errors : gmap string float;
  Scores : option IndicatorScores;
  TotalScore : float;
  Latency : Z;
  RawOutput : string;
  Error : string
}.

Record ModelStatistics := {
  stat_Model : string;
  stat_ModelInfo : ModelInfo;
  RunCount : Z;
  SuccessCount : Z;
  FailureCount : Z;
  AvgScore : float;
  MinScore : float;
  MaxScore : float;
  StdDev : float;
  AvgLatencyMs : float;
  MinLatencyMs : float;
  MaxLatencyMs : float;
  Consistency : float;
  IndicatorAvgs : gmap string float
}.

(** ** Package [benchmark]: configuration and report (types.go) *)

Record ModelConfig := {
  Name : string;
  cfg_Provider : string;
  cfg_Model : string;
  APIKey : string;
  cfg_BaseURL : string
}.

Record BenchConfig := {
  Mode : string;
  DatasetDir : string;
  Symbols : list string;
  cfg_Interval : string;
  KlineCount : Z;
  Models : list ModelConfig;
  Runs : Z
}.

Record LeaderboardEntry := {
  Rank : Z;
  lb_Model : string;
  lb_Provider : string;
  ModelID : string;
  lb_AvgScore : float;
  lb_StdDev : float;
  lb_Consistency : float;
  AvgLatency : float;
  lb_RunCount : Z
}.

(** The report, without the fields that only record the time and the
    platform of the run ([ID], [Timestamp], [Environment]). *)
Record BenchReport := {
  report_Version : string;
  Config : BenchConfig;
  Snapshots : list Snapshot;
  Results : list BenchResult;
  Statistics : list ModelStatistics;
  Leaderboard : list LeaderboardEntry
}.

(** ** Package [benchmark]: ground truth *)

(** A field left unassigned keeps the zero of [&IndicatorResult{}]. *)
Definition CalculateIndicators (klines : list Kline) : option IndicatorResult :=
  ma20 ← (if (20 <=? len klines)%Z then CalculateSMA klines 20
          else Some 0%float);
  ema12 ← (if (12 <=? len klines)%Z then CalculateEMA klines 12
           else Some 0%float);
  '(ema26, macd) ←
    (if (26 <=? len klines)%Z then
       e ← CalculateEMA klines 26; m ← CalculateMACD klines; Some (e, m)
     else Some (0%float, 0%float));
  '(rsi14, atr14) ←
    (if (14 <? len klines)%Z then
       r ← CalculateRSI klines 14; a ← CalculateATR klines 14; Some (r, a)
     else Some (0%float, 0%float));
  '(up, mid, low) ←
    (if (20 <=? len klines)%Z then CalculateBOLL klines 20 2
     else Some (0, 0, 0)%float);
  vol ← (if (5 <=? len klines)%Z then CalculateVolumeMA klines 5
         else Some 0%float);
  Some {| MA20 := ma20; EMA12 := ema12; EMA26 := ema26; MACD := macd;
          RSI14 := rsi14; BOLLUp := up; BOLLMid := mid; BOLLLow := low;
          ATR14 := atr14; VolumeMA := vol |}.

(** ** Package [benchmark]: scoring *)

Definition ScoreFromError (errorPct : float) : float :=
  let errorPct := math.Abs errorPct in
  if (errorPct <=? 0.1)%float then 100%float
  else if (errorPct <=? 1)%float then 80%float
  else if (errorPct <=? 5)%float then 60%float
  else if (errorPct <=? 10)%float then 40%float
  else 0%float.

Definition CalculateError (expected actual : float) : float :=
  if (expected =? 0)%float then
    if (actual =? 0)%float then 0%float
    else 100%float
  else (math.Abs (expected - actual) / math.Abs expected * 100)%float.

(** Division that reports a zero divisor instead of dividing. *)
Definition checked_div (x y : float) : option float :=
  if (y =? 0)%float then None else Some (x / y)%float.

(** [CalculateError] with its division checked: the same function, except
    that a division by zero would surface as [None]. *)
Definition CalculateError_checked (expected actual : float) : option float :=
  if (expected =? 0)%float then
    if (actual =? 0)%float then Some 0%float
    else Some 100%float
  else
    q ← checked_div (math.Abs (expected - actual)) (math.Abs expected);
    Some (q * 100)%float.

(** [errors[k]] for a key the map may lack: Go reads the zero value. *)
Definition map_get (m : gmap string float) (k : string) : float :=
  default 0%float (m !! k).

Definition ScoreIndicators (expected actual : IndicatorResult)
  : IndicatorScores * gmap string float :=
  let errors : gmap string float := ∅ in
  let errors := <["ma20" := CalculateError (MA20 expected) (MA20 actual)]> errors in
  let errors := <["ema12" := CalculateError (EMA12 expected) (EMA12 actual)]> errors in
  let errors := <["ema26" := CalculateError (EMA26 expected) (EMA26 actual)]> errors in
  let errors := <["macd" := CalculateError (MACD expected) (MACD actual)]> errors in
  let errors := <["rsi14" := CalculateError (RSI14 expected) (RSI14 actual)]> errors in
  let errors := <["boll_upper" := CalculateError (BOLLUp expected) (BOLLUp actual)]> errors in
  let errors := <["boll_middle" := CalculateError (BOLLMid expected) (BOLLMid actual)]> errors in
  let errors := <["boll_lower" := CalculateError (BOLLLow expected) (BOLLLow actual)]> errors in
  let errors := <["atr14" := CalculateError (ATR14 expected) (ATR14 actual)]> errors in
  let errors := <["volume_ma5" := CalculateError (VolumeMA expected) (VolumeMA actual)]> errors in
  ({| MA20 := ScoreFromError (map_get errors "ma20");
      EMA12 := ScoreFromError (map_get errors "ema12");
      EMA26 := ScoreFromError (map_get errors "ema26");
      MACD := ScoreFromError (map_get errors "macd");
      RSI14 := ScoreFromError (map_get errors "rsi14");
      BOLLUp := ScoreFromError (map_get errors "boll_upper");
      BOLLMid := ScoreFromError (map_get errors "boll_middle");
      BOLLLow := ScoreFromError (map_get errors "boll_lower");
      ATR14 := ScoreFromError (map_get errors "atr14");
      VolumeMA := ScoreFromError (map_get errors "volume_ma5") |},
   errors).

Definition CalculateTotalScore (scores : IndicatorScores) : float :=
  let total := (MA20 scores + EMA12 scores + EMA26 scores + MACD scores +
                RSI14 scores + BOLLUp scores + BOLLMid scores + BOLLLow scores +
                ATR14 scores + VolumeMA scores)%float in
  (total / 10)%float.

(** ** Package [benchmark]: response parsing (llm.go) *)

Module llm.

(** *** What [encoding/json] does for [IndicatorResult]

    The package is not part of the repository.  Its reading of the text is
    a parameter ([json_parse], [None] for a syntax error), and so is the
    conversion of a number literal ([ParseFloat], [None] when the literal
    is out of range).  What [json.Unmarshal] does with the parsed value is
    written out from the package documentation: a [null] changes nothing;
    an object assigns, key by key in the order of the text, the fields
    whose name matches the key exactly or up to case; a value that is
    not a number for a matched key, or a number out of range, is a type
    error, which is remembered while decoding goes on; unknown keys are
    skipped; any other value is a type error. *)

Inductive json : Type :=
  | JNull
  | JBool (b : bool)
  | JNumber (literal : string)
  | JString (s : string)
  | JArray (elements : list json)
  | JObject (members : list (string * json)).

Inductive field : Type :=
  | F_ma20 | F_ema12 | F_ema26 | F_macd | F_rsi14
  | F_boll_upper | F_boll_middle | F_boll_lower | F_atr14 | F_volume_ma5.

(** The JSON key of each field, from the struct tags. *)
Definition key_of (f : field) : string :=
  match f with
  | F_ma20 => "ma20" | F_ema12 => "ema12" | F_ema26 => "ema26"
  | F_macd => "macd" | F_rsi14 => "rsi14"
  | F_boll_upper => "boll_upper" | F_boll_middle => "boll_middle"
  | F_boll_lower => "boll_lower" | F_atr14 => "atr14"
  | F_volume_ma5 => "volume_ma5"
  end.

Definition fields : list field :=
  [F_ma20; F_ema12; F_ema26; F_macd; F_rsi14;
   F_boll_upper; F_boll_middle; F_boll_lower; F_atr14; F_volume_ma5].

Definition get (f : field) (r : IndicatorResult) : float :=
  match f with
  | F_ma20 => MA20 r | F_ema12 => EMA12 r | F_ema26 => EMA26 r
  | F_macd => MACD r | F_rsi14 => RSI14 r
  | F_boll_upper => BOLLUp r | F_boll_middle => BOLLMid r
  | F_boll_lower => BOLLLow r | F_atr14 => ATR14 r
  | F_volume_ma5 => VolumeMA r
  end.

Definition set (f : field) (v : float) (r : IndicatorResult) : IndicatorResult :=
  {| MA20 := if f is F_ma20 then v else MA20 r;
     EMA12 := if f is F_ema12 then v else EMA12 r;
     EMA26 := if f is F_ema26 then v else EMA26 r;
     MACD := if f is F_macd then v else MACD r;
     RSI14 := if f is F_rsi14 then v else RSI14 r;
     BOLLUp := if f is F_boll_upper then v else BOLLUp r;
     BOLLMid := if f is F_boll_middle then v else BOLLMid r;
     BOLLLow := if f is F_boll_lower then v else BOLLLow r;
     ATR14 := if f is F_atr14 then v else ATR14 r;
     VolumeMA := if f is F_volume_ma5 then v else VolumeMA r |}.

(** Case folding of a key: ASCII letters to lower case, and the two other
    characters Unicode folds onto ASCII letters, U+017F onto [s] and
    U+212A onto [k]. *)
Definition lower (c : ascii) : ascii :=
  let n := nat_of_ascii c in
  if (65 <=? n)%nat && (n <=? 90)%nat then ascii_of_nat (n + 32) else c.

Fixpoint fold_key (l : list ascii) : list ascii :=
  match l with
  | "197"%char :: "191"%char :: l' => "s"%char :: fold_key l'
  | "226"%char :: "132"%char :: "170"%char :: l' => "k"%char :: fold_key l'
  | c :: l' => lower c :: fold_key l'
  | [] => []
  end.

(** The field a key addresses: an exact match is preferred, a match up to
    case accepted. *)
Definition field_of_key (k : string) : option field :=
  match list_find (λ f, key_of f = k) fields with
  | Some (_, f) => Some f
  | None =>
      snd <$> list_find (λ f, bytes (key_of f) = fold_key (bytes k)) fields
  end.

Definition first_error (old : option string) (e : string) : option string :=
  match old with
  | Some _ => old
  | None => Some e
  end.

Section Unmarshal.
Variable json_parse : string → option json.
Variable ParseFloat : string → option float.

Definition decode_member (st : IndicatorResult * option string)
    (kv : string * json) : IndicatorResult * option string :=
  let '(r, err) := st in
  match field_of_key kv.1 with
  | None => (r, err)
  | Some f =>
      match kv.2 with
      | JNull => (r, err)
      | JNumber literal =>
          match ParseFloat literal with
          | Some v => (set f v r, err)
          | None =>
              (r, first_error err "json: cannot unmarshal number into Go struct field of type float64")
          end
      | _ =>
          (r, first_error err "json: cannot unmarshal value into Go struct field of type float64")
      end
  end.

(** [json.Unmarshal([]byte(data), &result)]: the updated [result] and
    the error, if any. *)
Definition Unmarshal (data : string) (r : IndicatorResult)
  : IndicatorResult * option string :=
  match json_parse data with
  | None => (r, Some "invalid character")
  | Some JNull => (r, None)
  | Some (JObject members) => fold_left decode_member members (r, None)
  | Some _ =>
      (r, Some "json: cannot unmarshal value into Go value of type benchmark.IndicatorResult")
  end.

(** [regexp.MustCompile(`\{[^{}]*"ma20"[^{}]*\}`).FindString]: the
    leftmost [{], followed by bytes other than braces among which
    ["ma20"] occurs with its quotes, followed by [}]; the empty string
    when there is none.  [inner] collects the bytes after the [{]. *)
Fixpoint brace_free_run (l : list ascii) : list ascii * list ascii :=
  match l with
  | c :: l' =>
      if byte_eqb c "{"%char || byte_eqb c "}"%char then ([], l)
      else let '(run, rest) := brace_free_run l' in (c :: run, rest)
  | [] => ([], [])
  end.

(** The bytes of ["ma20"], quotes included. *)
Definition quoted_ma20 : list ascii :=
  "034"%char :: bytes "ma20" ++ ["034"%char].

Fixpoint FindString_ma20 (l : list ascii) : list ascii :=
  match l with
  | [] => []
  | c :: l' =>
      if byte_eqb c "{"%char then
        let '(run, rest) := brace_free_run l' in
        match rest with
        | d :: _ =>
            if byte_eqb d "}"%char && contains quoted_ma20 run
            then c :: run ++ [d]
            else FindString_ma20 l'
        | [] => FindString_ma20 l'
        end
      else FindString_ma20 l'
  end.

Definition ParseIndicatorResponse (response : string)
  : result IndicatorResult :=
  let result := zero_IndicatorResult in
  (* Try direct parse first *)
  match Unmarshal response result with
  | (result, None) => Ok result
  | (result, Some _) =>
      (* Extract JSON from response *)
      let match_ := FindString_ma20 (bytes response) in
      let match_ :=
        if decide (match_ = []) then
          (* Try more lenient matching *)
          match index_byte "{"%char (bytes response),
                last_index_byte "}"%char (bytes response) with
          | Some start, Some end_ =>
              if (start <? end_)%nat then
                take (end_ + 1 - start) (drop start (bytes response))
              else match_
          | _, _ => match_
          end
        else match_ in
      if decide (match_ = []) then Err "no JSON found in response"
      else
        match Unmarshal (of_bytes match_) result with
        | (result, None) => Ok result
        | (_, Some e) => Err ("parse JSON failed: " +:+ e)
        end
  end.
End Unmarshal.

End llm.

(** ** Package [benchmark]: statistics (engine.go) *)

Module engine.

Definition average (values : list float) : float :=
  if (len values =? 0)%Z then 0%float
  else
    let sum := fold_left (λ sum v, (sum + v)%float) values 0%float in
    (sum / float64_of_int (len values))%float.

Definition min (values : list float) : float :=
  match values with
  | [] => 0%float
  | v0 :: rest => fold_left (λ m v, if (v <? m)%float then v else m) rest v0
  end.

Definition max (values : list float) : float :=
  match values with
  | [] => 0%float
  | v0 :: rest => fold_left (λ m v, if (m <? v)%float then v else m) rest v0
  end.

Definition stdDev (values : list float) : float :=
  if (len values <? 2)%Z then 0%float
  else
    let avg := average values in
    let sumSquares :=
      fold_left (λ sumSquares v,
                   let diff := (v - avg)%float in
                   (sumSquares + diff * diff)%float)
        values 0%float in
    math.Sqrt (sumSquares / float64_of_int (len values - 1))%float.

(** [time.Duration.Milliseconds]: nanoseconds divided by 10^6, truncated. *)
Definition Milliseconds (d : Z) : Z := Z.quot d 1000000.

(** The first loop: results grouped by model, in their order of arrival,
    and the last non-nil [ModelInfo] seen for each model. *)
Definition group_step
    (st : gmap string (list BenchResult) * gmap string ModelInfo)
    (r : BenchResult)
  : gmap string (list BenchResult) * gmap string ModelInfo :=
  let '(modelResults, modelInfos) := st in
  let modelResults :=
    <[Model r := default [] (modelResults !! Model r) ++ [r]]> modelResults in
  match Info r with
  | Some info => (modelResults, <[Model r := info]> modelInfos)
  | None => (modelResults, modelInfos)
  end.

Definition group_results (results : list BenchResult)
  : gmap string (list BenchResult) * gmap string ModelInfo :=
  fold_left group_step results (∅, ∅).

(** The variables the loop over one model's results carries. *)
Record tally := {
  successCount : Z;
  failureCount : Z;
  scores : list float;
  latencies : list float;
  indicatorSums : gmap string float;
  indicatorCounts : gmap string Z
}.

Definition empty_tally : tally :=
  {| successCount := 0; failureCount := 0; scores := []; latencies := [];
     indicatorSums := ∅; indicatorCounts := ∅ |}.

(** [m[k] += v] on a map of floats *)
Definition add_to (k : string) (v : float) (m : gmap string float)
  : gmap string float :=
  <[k := (map_get m k + v)%float]> m.

(** [for k := range indicatorSums { indicatorCounts[k]++ }] *)
Definition bump_counts (sums : gmap string float) (counts : gmap string Z)
  : gmap string Z :=
  set_fold (λ k c, <[k := (default 0 (c !! k) + 1)%Z]> c) counts (dom sums).

(** One iteration of [for _, r := range rs]. *)
Definition tally_step (t : tally) (r : BenchResult) : tally :=
  if decide (Error r ≠ "") then
    {| successCount := successCount t;
       failureCount := failureCount t + 1;
       scores := scores t; latencies := latencies t;
       indicatorSums := indicatorSums t;
       indicatorCounts := indicatorCounts t |}
  else
    let scores' := scores t ++ [TotalScore r] in
    let latencies' :=
      latencies t ++ [float64_of_int (Milliseconds (Latency r))] in
    match Scores r with
    | Some sc =>
        let sums := indicatorSums t in
        let sums := add_to "ma20" (MA20 sc) sums in
        let sums := add_to "ema12" (EMA12 sc) sums in
        let sums := add_to "ema26" (EMA26 sc) sums in
        let sums := add_to "macd" (MACD sc) sums in
        let sums := add_to "rsi14" (RSI14 sc) sums in
        let sums := add_to "boll_upper" (BOLLUp sc) sums in
        let sums := add_to "boll_middle" (BOLLMid sc) sums in
        let sums := add_to "boll_lower" (BOLLLow sc) sums in
        let sums := add_to "atr14" (ATR14 sc) sums in
        let sums := add_to "volume_ma5" (VolumeMA sc) sums in
        {| successCount := successCount t + 1;
           failureCount := failureCount t;
           scores := scores'; latencies := latencies';
           indicatorSums := sums;
           indicatorCounts := bump_counts sums (indicatorCounts t) |}
    | None =>
        {| successCount := successCount t + 1;
           failureCount := failureCount t;
           scores := scores'; latencies := latencies';
           indicatorSums := indicatorSums t;
           indicatorCounts := indicatorCounts t |}
    end.

(** [stat.Consistency = 100 - (stat.StdDev/stat.AvgScore)*100], floored
    at 0; left at the zero value unless [stat.AvgScore > 0]. *)
Definition consistency (stdDev avgScore : float) : float :=
  if (0 <? avgScore)%float then
    let c := (100 - (stdDev / avgScore) * 100)%float in
    if (c <? 0)%float then 0%float else c
  else 0%float.

(** [stat.IndicatorAvgs[k] = sum / float64(count)] for the counted keys. *)
Definition indicator_averages (sums : gmap string float)
    (counts : gmap string Z) : gmap string float :=
  map_imap (λ k sum,
              let count := default 0%Z (counts !! k) in
              if (0 <? count)%Z then Some (sum / float64_of_int count)%float
              else None)
    sums.

(** The body of [for model, rs := range modelResults]. *)
Definition model_statistics (modelInfos : gmap string ModelInfo)
    (model : string) (rs : list BenchResult) : ModelStatistics :=
  let info := default zero_ModelInfo (modelInfos !! model) in
  let t := fold_left tally_step rs empty_tally in
  if (0 <? len (scores t))%Z then
    let avgScore := average (scores t) in
    let sd := stdDev (scores t) in
    {| stat_Model := model; stat_ModelInfo := info;
       RunCount := len rs;
       SuccessCount := successCount t; FailureCount := failureCount t;
       AvgScore := avgScore;
       MinScore := min (scores t);
       MaxScore := max (scores t);
       StdDev := sd;
       AvgLatencyMs := average (latencies t);
       MinLatencyMs := min (latencies t);
       MaxLatencyMs := max (latencies t);
       Consistency := consistency sd avgScore;
       IndicatorAvgs :=
         indicator_averages (indicatorSums t) (indicatorCounts t) |}
  else
    {| stat_Model := model; stat_ModelInfo := info;
       RunCount := len rs;
       SuccessCount := successCount t; FailureCount := failureCount t;
       AvgScore := 0; MinScore := 0; MaxScore := 0; StdDev := 0;
       AvgLatencyMs := 0; MinLatencyMs := 0; MaxLatencyMs := 0;
       Consistency := 0; IndicatorAvgs := ∅ |}.

(** Go leaves two things open: the order in which [range] visits a map,
    and how [sort.Slice], which is not stable, arranges equal elements.
    [range_order] is the order of one execution, [sort_Slice] the sort. *)
Section calculateStatistics.
Variable range_order :
  list (string * list BenchResult) → list (string * list BenchResult).
Variable sort_Slice :
  (ModelStatistics → ModelStatistics → bool) →
  list ModelStatistics → list ModelStatistics.

Definition calculateStatistics (results : list BenchResult)
  : list ModelStatistics :=
  let '(modelResults, modelInfos) := group_results results in
  let stats :=
    (λ '(model, rs), model_statistics modelInfos model rs)
      <$> range_order (map_to_list modelResults) in
  sort_Slice (λ si sj, (AvgScore sj <? AvgScore si)%float) stats.
End calculateStatistics.

(** A stable insertion sort, one of the arrangements [sort.Slice] may
    produce. *)
Fixpoint insert_sorted {A} (less : A → A → bool) (x : A) (l : list A)
  : list A :=
  match l with
  | [] => [x]
  | y :: l' => if less y x then y :: insert_sorted less x l' else x :: l
  end.

Definition insertion_sort {A} (less : A → A → bool) (l : list A) : list A :=
  foldr (λ x acc, insert_sorted less x acc) [] l.

End engine.

(** ** The world outside the program

    What the operating system, the network, the clock and the scheduler
    answer during one execution.  The program is a function of these
    answers. *)

Record DirEntry := {
  entry_Name : string;
  entry_IsDir : bool
}.

Record World := {
  (** [market.GetKlines(symbol, interval, limit)] *)
  GetKlines : string → string → Z → result (list Kline);
  (** [time.Now()] when [symbol] is captured: formatted as
      [20060102_150405], and in Unix milliseconds *)
  Now_Format : string → string;
  Now_UnixMilli : string → Z;
  (** [os.ReadDir], [os.ReadFile], [filepath.Join] *)
  ReadDir : string → result (list DirEntry);
  ReadFile : string → result string;
  Join : string → string → string;
  (** [json.Unmarshal] into a [Snapshot] *)
  Unmarshal_Snapshot : string → result Snapshot;
  (** [SaveSnapshot(snapshot, dir)]: the error, if any; it is only logged *)
  SaveSnapshot : Snapshot → string → option string;
  (** [BuildIndicatorPrompt(klines)], the text sent to the models *)
  BuildIndicatorPrompt : list Kline → string;
  (** [client.Chat(ctx, prompt)] for a model, a snapshot and a run: the
      reply and the error, and the time it took in nanoseconds *)
  Chat : ModelConfig → string → Z → string → string * option string;
  Chat_latency : ModelConfig → string → Z → Z;
  (** [encoding/json] reading a reply: the text, the number literals *)
  json_parse : string → option llm.json;
  ParseFloat : string → option float;
  (** the order in which the goroutines of one batch append their results *)
  schedule : list BenchResult → list BenchResult;
  (** the order of [range] over a map, and the arrangements of [sort.Slice] *)
  range_order :
    list (string * list BenchResult) → list (string * list BenchResult);
  sort_statistics :
    (ModelStatistics → ModelStatistics → bool) →
    list ModelStatistics → list ModelStatistics;
  sort_entries :
    (LeaderboardEntry → LeaderboardEntry → bool) →
    list LeaderboardEntry → list LeaderboardEntry;
  sort_snapshots :
    (Snapshot → Snapshot → bool) → list Snapshot → list Snapshot
}.

(** ** Package [benchmark]: snapshots (snapshot.go) *)

Module snapshot.

Definition CaptureSnapshot (w : World) (symbol interval : string)
    (klineCount : Z) : result Snapshot :=
  match GetKlines w symbol interval klineCount with
  | Err e => Err ("failed to get klines: " +:+ e)
  | Ok klines =>
      if (len klines <? klineCount)%Z then
        Err ("insufficient klines: got " +:+ pretty (len klines)
               +:+ ", need " +:+ pretty klineCount)
      else
        Ok {| ID := Now_Format w symbol +:+ "_" +:+ symbol +:+ "_" +:+ interval;
              Symbol := symbol;
              Interval := interval;
              Timestamp := Now_UnixMilli w symbol;
              Klines := klines |}
  end.

Definition LoadSnapshot (w : World) (filepath : string) : result Snapshot :=
  match ReadFile w filepath with
  | Err e => Err ("failed to read snapshot: " +:+ e)
  | Ok data =>
      match Unmarshal_Snapshot w data with
      | Err e => Err ("failed to unmarshal snapshot: " +:+ e)
      | Ok snapshot => Ok snapshot
      end
  end.

Definition LoadSnapshots (w : World) (dir : string) : result (list Snapshot) :=
  match ReadDir w dir with
  | Err e => Err ("failed to read directory: " +:+ e)
  | Ok entries =>
      let snapshots :=
        fold_left
          (λ snapshots entry,
             if entry_IsDir entry || negb (HasSuffix (entry_Name entry) ".json")
             then snapshots
             else
               match LoadSnapshot w (Join w dir (entry_Name entry)) with
               | Err _ => snapshots (* Skip invalid files *)
               | Ok snapshot => snapshots ++ [snapshot]
               end)
          entries [] in
      (* Sort by timestamp (newest first) *)
      Ok (sort_snapshots w (λ si sj, (Timestamp sj <? Timestamp si)%Z)
            snapshots)
  end.

End snapshot.

(** ** Package [benchmark]: the orchestrator (engine.go)

    A panic of the ground-truth calculation would end the program; [Run]
    therefore answers in [option], and [None] is that panic.  Log lines and
    the pause between two run indices leave no trace in what [Run]
    returns and are left out. *)

Module orchestrator.

(** [NewEngine]: a run count below 1 becomes 1. *)
Definition NewEngine (config : BenchConfig) : BenchConfig :=
  if (Runs config <=? 0)%Z then
    {| Mode := Mode config; DatasetDir := DatasetDir config;
       Symbols := Symbols config; cfg_Interval := cfg_Interval config;
       KlineCount := KlineCount config; Models := Models config;
       Runs := 1 |}
  else config.

Definition runSingleBenchmark (w : World) (snapshotID : string)
    (modelCfg : ModelConfig) (prompt : string) (expected : IndicatorResult)
    (runIndex : Z) : BenchResult :=
  let info := {| Provider := cfg_Provider modelCfg;
                 Model_id := cfg_Model modelCfg;
                 Version := "";
                 DisplayName := Name modelCfg;
                 BaseURL := cfg_BaseURL modelCfg |} in
  let '(response, err) := Chat w modelCfg snapshotID runIndex prompt in
  let latency := Chat_latency w modelCfg snapshotID runIndex in
  let failed (e : string) :=
    {| SnapshotID := snapshotID; Model := Name modelCfg; Info := Some info;
       RunIndex := runIndex; Expected := Some expected; Actual := None;
       Errors := ∅; Scores := None; TotalScore := 0; Latency := latency;
       RawOutput := response; Error := e |} in
  match err with
  | Some e => failed e
  | None =>
      match llm.ParseIndicatorResponse (json_parse w) (ParseFloat w) response with
      | Err e => failed ("parse response: " +:+ e)
      | Ok actual =>
          let '(scores, errors) := ScoreIndicators expected actual in
          {| SnapshotID := snapshotID; Model := Name modelCfg;
             Info := Some info; RunIndex := runIndex;
             Expected := Some expected; Actual := Some actual;
             Errors := errors; Scores := Some scores;
             TotalScore := CalculateTotalScore scores; Latency := latency;
             RawOutput := response; Error := "" |}
      end
  end.

Definition Version : string := "1.0.0".

Definition calculateLeaderboard (w : World) (stats : list ModelStatistics)
  : list LeaderboardEntry :=
  let entries :=
    (λ s, {| Rank := 0;
             lb_Model := stat_Model s;
             lb_Provider := Provider (stat_ModelInfo s);
             ModelID := Model_id (stat_ModelInfo s);
             lb_AvgScore := AvgScore s;
             lb_StdDev := StdDev s;
             lb_Consistency := Consistency s;
             AvgLatency := AvgLatencyMs s;
             lb_RunCount := RunCount s |}) <$> stats in
  (* Sort by score (descending) *)
  let entries :=
    sort_entries w (λ ei ej, (lb_AvgScore ej <? lb_AvgScore ei)%float)
      entries in
  (* Assign ranks *)
  imap (λ i e, {| Rank := Z.of_nat i + 1;
                  lb_Model := lb_Model e; lb_Provider := lb_Provider e;
                  ModelID := ModelID e; lb_AvgScore := lb_AvgScore e;
                  lb_StdDev := lb_StdDev e;
                  lb_Consistency := lb_Consistency e;
                  AvgLatency := AvgLatency e;
                  lb_RunCount := lb_RunCount e |}) entries.

(** Step 1 of [Run]: the snapshots, or the error that ends the run. *)
Definition acquire (w : World) (config : BenchConfig)
  : result (list Snapshot) :=
  if decide (Mode config = "static") then
    match snapshot.LoadSnapshots w (DatasetDir config) with
    | Err e => Err ("load snapshots: " +:+ e)
    | Ok snapshots =>
        if (len snapshots =? 0)%Z then
          Err ("no snapshots found in " +:+ DatasetDir config)
        else Ok snapshots
    end
  else
    Ok (fold_left
          (λ snapshots symbol,
             match snapshot.CaptureSnapshot w symbol (cfg_Interval config)
                     (KlineCount config) with
             | Err _ => snapshots (* logged; continue *)
             | Ok snapshot =>
                 (* Save snapshot for reproducibility; an error is only
                    logged *)
                 let _ := SaveSnapshot w snapshot "datasets/snapshots" in
                 snapshots ++ [snapshot]
             end)
          (Symbols config) []).

(** Step 2 of [Run] for one snapshot: every run index in turn, the
    models of one run index together. *)
Definition benchmark_snapshot (w : World) (config : BenchConfig)
    (results : list BenchResult) (snapshot : Snapshot)
  : option (list BenchResult) :=
  expected ← CalculateIndicators (Klines snapshot);
  let prompt := BuildIndicatorPrompt w (Klines snapshot) in
  Some (fold_left
          (λ results runIdx,
             results ++
             schedule w
               ((λ mc, runSingleBenchmark w (ID snapshot) mc prompt
                         expected runIdx) <$> Models config))
          (seqZ 0 (Runs config)) results).

Definition Run (w : World) (config : BenchConfig)
  : option (result BenchReport) :=
  match acquire w config with
  | Err e => Some (Err e)
  | Ok snapshots =>
      results ← for_each (benchmark_snapshot w config) snapshots [];
      let statistics :=
        engine.calculateStatistics (range_order w) (sort_statistics w)
          results in
      Some (Ok {| report_Version := Version;
                  Config := config;
                  Snapshots := snapshots;
                  Results := results;
                  Statistics := statistics;
                  Leaderboard := calculateLeaderboard w statistics |})
  end.

End orchestrator.

(** ** The specification's formulas, written from its words

    These are the folds and closed formulas the specification describes; the
    theorems below compare them with the loops of the source.  Sums are taken
    in chronological order, starting from 0, as floating-point addition is
    not associative. *)

(** The sum of a sequence, accumulated from 0 in sequence order. *)
Definition fsum (xs : list float) : float :=
  fold_left (λ s x, (s + x)%float) xs 0%float.

(** The arithmetic mean of [xs], which has [n] elements. *)
Definition mean (xs : list float) (n : Z) : float :=
  (fsum xs / float64_of_int n)%float.

(** The last [n] elements of a sequence. *)
Definition last_n {A} (n : nat) (xs : list A) : list A :=
  drop (length xs - n) xs.

(** EMA(period): seeded with the SMA of the first [period] closes, then one
    step of the recurrence per remaining close, in chronological order. *)
Definition EMA_step (k : float) (ema close : float) : float :=
  ((close - ema) * k + ema)%float.

Definition EMA_spec (closes : list float) (period : Z) : float :=
  let n := Z.to_nat period in
  let k := (2 / float64_of_int (period + 1))%float in
  fold_left (EMA_step k) (drop n closes) (mean (take n closes) period).

(** The candle-to-candle changes of the closes: element [i - 1] is
    [close_i - close_(i-1)], for [i] from 1 on. *)
Definition deltas (closes : list float) : list float :=
  zip_with (λ prev cur, (cur - prev)%float) closes (tail closes).

(** A change counts as a gain when it is positive, as a loss otherwise. *)
Definition is_gain (d : float) : bool := (0 <? d)%float.

(** Wilder's recurrence: [avg := (avg * (period - 1) + contribution) / period]. *)
Definition wilder (period : Z) (avg contribution : float) : float :=
  ((avg * float64_of_int (period - 1) + contribution)
     / float64_of_int period)%float.

(** RSI(period), Wilder's method.  The changes at indices [1..period] seed
    the two averages: the sum of the positive ones, and the sum of the
    magnitudes of the others, each divided by [period].  Every later change
    feeds the matching average through the recurrence while the other
    average takes the contribution 0. *)
Definition RSI_averages (closes : list float) (period : Z) : float * float :=
  let n := Z.to_nat period in
  let seed := take n (deltas closes) in
  let avgGain := mean (filter (λ d, is_gain d) seed) period in
  let avgLoss := mean (abs <$> filter (λ d, ¬ is_gain d) seed) period in
  fold_left
    (λ '(avgGain, avgLoss) d,
       if is_gain d then (wilder period avgGain d, wilder period avgLoss 0)
       else (wilder period avgGain 0, wilder period avgLoss (abs d)))
    (drop n (deltas closes)) (avgGain, avgLoss).

Definition RSI_spec (closes : list float) (period : Z) : float :=
  let '(avgGain, avgLoss) := RSI_averages closes period in
  if (avgLoss =? 0)%float then 100%float
  else (100 - 100 / (1 + avgGain / avgLoss))%float.

(** A sequence in which every element is below its successor. *)
Definition strictly_increasing (xs : list float) : Prop :=
  ∀ i a b, xs !! i = Some a → xs !! S i = Some b → (a <? b)%float = true.

(** Standard deviation with the population divisor: the squared deviations
    from [mid] are summed and divided by [n], not [n - 1]. *)
Definition population_stddev (xs : list float) (mid : float) (n : Z) : float :=
  math.Sqrt
    (fold_left (λ v x, (v + (x - mid) * (x - mid))%float) xs 0%float
       / float64_of_int n)%float.

(** ** The specification's statistics, written from its words *)

(** The runs of [model] among [results], and the successful ones: those
    with an empty [Error]. *)
Definition runs_of (model : string) (results : list BenchResult)
  : list BenchResult :=
  filter (λ r, Model r = model) results.

Definition successful (rs : list BenchResult) : list BenchResult :=
  filter (λ r, Error r = "") rs.

Definition failed (rs : list BenchResult) : list BenchResult :=
  filter (λ r, Error r ≠ "") rs.

(** Sample standard deviation: the squared deviations from the mean are
    divided by [n - 1]; it is 0 for fewer than two values. *)
Definition sample_stddev (xs : list float) : float :=
  match xs with
  | [] | [_] => 0%float
  | _ =>
      let mu := mean xs (len xs) in
      math.Sqrt
        (fold_left (λ v x, (v + (x - mu) * (x - mu))%float) xs 0%float
           / float64_of_int (len xs - 1))%float
  end.

(** The statistics [calculateStatistics] computes for [model]: the loop
    body applied to the group of [model] and the collected infos. *)
Definition statistics_of (model : string) (results : list BenchResult)
  : ModelStatistics :=
  engine.model_statistics (engine.group_results results).2 model
    (runs_of model results).

(** [c] clamped below at 0. *)
Definition clamp_below_0 (c : float) : float :=
  if (c <? 0)%float then 0%float else c.

(** ** The specification's acquisition, written from its words *)

(** Realtime mode: the snapshots of the symbols whose capture succeeded, in
    the order of the configuration; a symbol whose capture failed is
    skipped. *)
Definition captured (w : World) (config : BenchConfig) : list Snapshot :=
  omap (λ symbol,
          match snapshot.CaptureSnapshot w symbol (cfg_Interval config)
                  (KlineCount config) with
          | Ok s => Some s
          | Err _ => None
          end)
    (Symbols config).

(** ** Predicates on IEEE 754 numbers, for the proofs

    [SFcompare] orders the numbers that are not NaN: it is the
    lexicographic order on a rank made of the class, the exponent and the
    mantissa. *)

Definition SFrank (x : spec_float) : option (Z * Z * Z) :=
  match x with
  | S754_nan => None
  | S754_infinity true => Some (-2, 0, 0)%Z
  | S754_finite true m e => Some (-1, - e, Zneg m)%Z
  | S754_zero _ => Some (0, 0, 0)%Z
  | S754_finite false m e => Some (1, e, Zpos m)%Z
  | S754_infinity false => Some (2, 0, 0)%Z
  end.

Definition lex3 (a b : Z * Z * Z) : comparison :=
  match (a.1.1 ?= b.1.1)%Z with
  | Eq => match (a.1.2 ?= b.1.2)%Z with
          | Eq => (a.2 ?= b.2)%Z
          | c => c
          end
  | c => c
  end.

Definition lex3_lt (a b : Z * Z * Z) : Prop :=
  (a.1.1 < b.1.1 ∨
   (a.1.1 = b.1.1 ∧ (a.1.2 < b.1.2 ∨ (a.1.2 = b.1.2 ∧ a.2 < b.2))))%Z.

(** [SFnn x]: [x] is NaN or carries the sign bit 0.  Sums, products and
    quotients of such numbers are again of this kind, whatever the
    rounding. *)
Definition SFnn (x : spec_float) : bool :=
  match x with
  | S754_zero s | S754_infinity s | S754_finite s _ _ => negb s
  | S754_nan => true
  end.

Definition nn (x : float) : Prop := SFnn (Prim2SF x) = true.

(** [SFpos0 x]: [x] is +0, a positive number or +Inf. *)
Definition SFpos0 (x : spec_float) : bool :=
  match x with
  | S754_zero s | S754_infinity s | S754_finite s _ _ => negb s
  | S754_nan => false
  end.

(** ** Auxiliary definitions for the statistics proofs *)

(** The last non-nil [ModelInfo] among some results. *)
Definition last_info (rs : list BenchResult) : option ModelInfo :=
  fold_left (λ o r, match Info r with Some i => Some i | None => o end) rs None.

(** A tally with its failure count replaced. *)
Definition with_failures (n : Z) (t : engine.tally) : engine.tally :=
  {| engine.successCount := engine.successCount t;
     engine.failureCount := n;
     engine.scores := engine.scores t;
     engine.latencies := engine.latencies t;
     engine.indicatorSums := engine.indicatorSums t;
     engine.indicatorCounts := engine.indicatorCounts t |}.

#[local] Instance field_eq_dec : EqDecision llm.field.
Proof. solve_decision. Defined.


(** ** Sample data for the worked instances *)

(** A candle whose four prices are [c]. *)
Definition candle (c : float) : Kline :=
  {| OpenTime := 0; Open := c; High := c; Low := c; Close := c; Volume := 1;
     CloseTime := 0 |}.

(** Runs for the worked instances: [sample_run model error score]. *)
Definition sample_run (model error : string) (score : float) : BenchResult :=
  {| SnapshotID := "20240101_000000_BTCUSDT_1h"; Model := model; Info := None;
     RunIndex := 0; Expected := None; Actual := None; Errors := ∅;
     Scores := None; TotalScore := score; Latency := 1500000000;
     RawOutput := ""; Error := error |}.

(** A reply for the worked instances: the text [{"ma20": 101.5}], and a
    reading of JSON texts and number literals that knows this reply. *)
Definition sample_response : string :=
  of_bytes (bytes "{" ++ llm.quoted_ma20 ++ bytes ": 101.5}").

Definition sample_json_parse (data : string) : option llm.json :=
  if decide (data = sample_response)
  then Some (llm.JObject [("ma20", llm.JNumber "101.5")])
  else None.

Definition sample_ParseFloat (literal : string) : option float :=
  if decide (literal = "101.5") then Some 101.5%float else None.

(** A world in which the network is down and nothing is on disk: every
    request fails. *)
Definition offline : World :=
  {| GetKlines := λ _ _ _, Err "CoinAnk API error: connection refused";
     Now_Format := λ _, "20240101_000000";
     Now_UnixMilli := λ _, 1704067200000%Z;
     ReadDir := λ _, Ok [];
     ReadFile := λ _, Err "no such file or directory";
     Join := λ dir name, dir +:+ "/" +:+ name;
     Unmarshal_Snapshot := λ _, Err "unexpected end of JSON input";
     SaveSnapshot := λ _ _, None;
     BuildIndicatorPrompt := λ _, "";
     Chat := λ _ _ _ _, ("", Some "request failed: connection refused");
     Chat_latency := λ _ _ _, 0%Z;
     json_parse := sample_json_parse;
     ParseFloat := sample_ParseFloat;
     schedule := λ l, l;
     range_order := λ l, l;
     sort_statistics := @engine.insertion_sort ModelStatistics;
     sort_entries := @engine.insertion_sort LeaderboardEntry;
     sort_snapshots := @engine.insertion_sort Snapshot |}.

Definition sample_model : ModelConfig :=
  {| Name := "DeepSeek-Chat"; cfg_Provider := "deepseek";
     cfg_Model := "deepseek-chat"; APIKey := "";
     cfg_BaseURL := "" |}.

Definition realtime_config : BenchConfig :=
  {| Mode := "realtime"; DatasetDir := ""; Symbols := ["BTCUSDT"];
     cfg_Interval := "1h"; KlineCount := 50; Models := [sample_model];
     Runs := 1 |}.

Definition static_config : BenchConfig :=
  {| Mode := "static"; DatasetDir := "datasets/snapshots"; Symbols := [];
     cfg_Interval := "1h"; KlineCount := 50; Models := [sample_model];
     Runs := 1 |}.

(** ** Reference formulas for the other indicators *)

(** The true range of the candle [cur] that follows [prev]: the largest of
    [high - low], [|high - prevClose|] and [|low - prevClose|]. *)
Definition true_range (prev cur : Kline) : float :=
  math.Max (High cur - Low cur)
    (math.Max (math.Abs (High cur - Close prev))
              (math.Abs (Low cur - Close prev))).

(** The true ranges of a series: element [i - 1] is the true range of the
    candle at index [i], for [i] from 1 on. *)
Definition true_ranges (klines : list Kline) : list float :=
  zip_with true_range klines (tail klines).

(** ATR(period), Wilder's method: the mean of the first [period] true
    ranges, then one step of the recurrence per later true range. *)
Definition ATR_wilder (klines : list Kline) (period : Z) : float :=
  let n := Z.to_nat period in
  let trs := true_ranges klines in
  fold_left (wilder period) (drop n trs) (mean (take n trs) period).

(** ** Finite checks on scores, for the proofs *)

(** The values [ScoreFromError] takes. *)
Definition tiers : list float := [0; 40; 60; 80; 100]%float.

(** The multiples of [step] from 0 to [step * n]. *)
Definition multiples (step : Z) (n : nat) : list float :=
  (λ j, float64_of_int (step * j)) <$> seqZ 0 (Z.of_nat n + 1).

Definition float_in (x : float) (l : list float) : bool :=
  existsb (PrimFloat.Leibniz.eqb x) l.

(** Adding a tier value to a multiple of 20 that is at most [100 * k] gives
    a multiple of 20 that is at most [100 * (k + 1)]. *)
Definition tier_sums_closed (k : nat) : bool :=
  forallb (λ a, forallb (λ b, float_in (a + b)%float (multiples 20 (5 * S k)))
                  tiers)
    (multiples 20 (5 * k)).

(** The ten JSON keys of [IndicatorResult]. *)
Definition indicator_keys : list string := llm.key_of <$> llm.fields.

(** ** Totals over the statistics *)

(** The sum of an integer field over a list of records. *)
Definition sumZ {A} (f : A → Z) (l : list A) : Z :=
  foldr (λ x n, (f x + n)%Z) 0%Z l.

(** The score records of the runs that carry one. *)
Definition scored (rs : list BenchResult) : list IndicatorScores :=
  omap Scores rs.

(** The ten [+=] of one scored run. *)
Definition add_scores (sc : IndicatorScores) (sums : gmap string float)
  : gmap string float :=
  engine.add_to "volume_ma5" (VolumeMA sc)
    (engine.add_to "atr14" (ATR14 sc)
       (engine.add_to "boll_lower" (BOLLLow sc)
          (engine.add_to "boll_middle" (BOLLMid sc)
             (engine.add_to "boll_upper" (BOLLUp sc)
                (engine.add_to "rsi14" (RSI14 sc)
                   (engine.add_to "macd" (MACD sc)
                      (engine.add_to "ema26" (EMA26 sc)
                         (engine.add_to "ema12" (EMA12 sc)
                            (engine.add_to "ma20" (MA20 sc) sums))))))))).

(** ** Further sample data *)

(** The scores of an answer that is right on every indicator but MACD. *)
Definition sample_scores (macd : float) : IndicatorScores :=
  {| MA20 := 100; EMA12 := 100; EMA26 := 100; MACD := macd; RSI14 := 100;
     BOLLUp := 100; BOLLMid := 100; BOLLLow := 100; ATR14 := 100;
     VolumeMA := 100 |}.

(** A successful run with its scores. *)
Definition scored_run (model : string) (sc : IndicatorScores) : BenchResult :=
  {| SnapshotID := "20240101_000000_BTCUSDT_1h"; Model := model; Info := None;
     RunIndex := 0; Expected := None; Actual := None; Errors := ∅;
     Scores := Some sc; TotalScore := CalculateTotalScore sc;
     Latency := 1500000000; RawOutput := ""; Error := "" |}.

(** ** Package [market]: candles from the CoinAnk client

    The client lies outside the repository.  What the source reads of it is
    kept: the interval constants it names, the fields of a candle, and the
    call itself, which is a parameter. *)

Module coinank_enum.

Inductive Interval : Type :=
  | Minute1 | Minute3 | Minute5 | Minute15 | Minute30
  | Hour1 | Hour2 | Hour4 | Hour6 | Hour8 | Hour12
  | Day1 | Day3 | Week1.

End coinank_enum.

Module coinank_api.

Record Kline := {
  StartTime : Z;
  Open : float;
  High : float;
  Low : float;
  Close : float;
  Volume : float;
  EndTime : Z
}.

End coinank_api.

Module market_data.

Definition parseInterval (interval : string) : result coinank_enum.Interval :=
  if decide (interval = "1m") then Ok coinank_enum.Minute1
  else if decide (interval = "3m") then Ok coinank_enum.Minute3
  else if decide (interval = "5m") then Ok coinank_enum.Minute5
  else if decide (interval = "15m") then Ok coinank_enum.Minute15
  else if decide (interval = "30m") then Ok coinank_enum.Minute30
  else if decide (interval = "1h") then Ok coinank_enum.Hour1
  else if decide (interval = "2h") then Ok coinank_enum.Hour2
  else if decide (interval = "4h") then Ok coinank_enum.Hour4
  else if decide (interval = "6h") then Ok coinank_enum.Hour6
  else if decide (interval = "8h") then Ok coinank_enum.Hour8
  else if decide (interval = "12h") then Ok coinank_enum.Hour12
  else if decide (interval = "1d") then Ok coinank_enum.Day1
  else if decide (interval = "3d") then Ok coinank_enum.Day3
  else if decide (interval = "1w") then Ok coinank_enum.Week1
  else Err ("unsupported interval: " +:+ interval).

Section GetKlines.
(** [coinank_api.Kline(ctx, symbol, coinank_enum.Binance, ts,
    coinank_enum.To, limit, interval)], and [time.Now().UnixMilli()] *)
Variable api_Kline :
  string → Z → Z → coinank_enum.Interval → result (list coinank_api.Kline).
Variable Now_UnixMilli : Z.

Definition GetKlines (symbol interval : string) (limit : Z)
  : result (list Kline) :=
  match parseInterval interval with
  | Err err => Err err
  | Ok coinankInterval =>
      let ts := Now_UnixMilli in
      match api_Kline symbol ts limit coinankInterval with
      | Err err => Err ("CoinAnk API error: " +:+ err)
      | Ok coinankKlines =>
          Ok ((λ ck, {| OpenTime := coinank_api.StartTime ck;
                        Open := coinank_api.Open ck;
                        High := coinank_api.High ck;
                        Low := coinank_api.Low ck;
                        Close := coinank_api.Close ck;
                        Volume := coinank_api.Volume ck;
                        CloseTime := coinank_api.EndTime ck |})
                <$> coinankKlines)
      end
  end.
End GetKlines.

End market_data.

(** The interval strings [parseInterval] knows. *)
Definition supported_intervals : list string :=
  ["1m"; "3m"; "5m"; "15m"; "30m"; "1h"; "2h"; "4h"; "6h"; "8h"; "12h";
   "1d"; "3d"; "1w"].

(** ** Package [benchmark]: providers and their defaults (models.go) *)

Module models.

Definition ProviderDeepSeek : string := "deepseek".
Definition ProviderQwen : string := "qwen".
Definition ProviderOpenAI : string := "openai".
Definition ProviderClaude : string := "claude".
Definition ProviderGemini : string := "gemini".
Definition ProviderGrok : string := "grok".
Definition ProviderKimi : string := "kimi".

Definition DefaultDeepSeekBaseURL : string := "https://api.deepseek.com".
Definition DefaultQwenBaseURL : string :=
  "https://dashscope.aliyuncs.com/compatible-mode/v1".
Definition DefaultOpenAIBaseURL : string := "https://api.openai.com/v1".
Definition DefaultClaudeBaseURL : string := "https://api.anthropic.com/v1".
Definition DefaultGeminiBaseURL : string :=
  "https://generativelanguage.googleapis.com/v1beta/openai".
Definition DefaultGrokBaseURL : string := "https://api.x.ai/v1".
Definition DefaultKimiBaseURL : string := "https://api.moonshot.ai/v1".

Definition DefaultDeepSeekModel : string := "deepseek-chat".
Definition DefaultQwenModel : string := "qwen3-max".
Definition DefaultOpenAIModel : string := "gpt-5.2".
Definition DefaultClaudeModel : string := "claude-opus-4-5-20251101".
Definition DefaultGeminiModel : string := "gemini-3-pro-preview".
Definition DefaultGrokModel : string := "grok-3-latest".
Definition DefaultKimiModel : string := "moonshot-v1-auto".

Definition DefaultKlineCount : Z := 50.

Definition GetDefaultModels : list ModelInfo :=
  [ {| Provider := ProviderDeepSeek; Model_id := DefaultDeepSeekModel;
       Version := ""; DisplayName := "DeepSeek-Chat";
       BaseURL := DefaultDeepSeekBaseURL |};
    {| Provider := ProviderQwen; Model_id := DefaultQwenModel;
       Version := ""; DisplayName := "Qwen3-Max";
       BaseURL := DefaultQwenBaseURL |};
    {| Provider := ProviderOpenAI; Model_id := DefaultOpenAIModel;
       Version := ""; DisplayName := "GPT-5.2";
       BaseURL := DefaultOpenAIBaseURL |};
    {| Provider := ProviderClaude; Model_id := DefaultClaudeModel;
       Version := ""; DisplayName := "Claude-Opus-4.5";
       BaseURL := DefaultClaudeBaseURL |};
    {| Provider := ProviderGemini; Model_id := DefaultGeminiModel;
       Version := ""; DisplayName := "Gemini-3-Pro";
       BaseURL := DefaultGeminiBaseURL |};
    {| Provider := ProviderGrok; Model_id := DefaultGrokModel;
       Version := ""; DisplayName := "Grok-3";
       BaseURL := DefaultGrokBaseURL |};
    {| Provider := ProviderKimi; Model_id := DefaultKimiModel;
       Version := ""; DisplayName := "Moonshot-V1";
       BaseURL := DefaultKimiBaseURL |} ].

Definition GetBaseURL (provider : string) : string :=
  if decide (provider = ProviderDeepSeek) then DefaultDeepSeekBaseURL
  else if decide (provider = ProviderQwen) then DefaultQwenBaseURL
  else if decide (provider = ProviderOpenAI) then DefaultOpenAIBaseURL
  else if decide (provider = ProviderClaude) then DefaultClaudeBaseURL
  else if decide (provider = ProviderGemini) then DefaultGeminiBaseURL
  else if decide (provider = ProviderGrok) then DefaultGrokBaseURL
  else if decide (provider = ProviderKimi) then DefaultKimiBaseURL
  else DefaultOpenAIBaseURL.

End models.

(** ** Package [benchmark]: the chat client (llm.go)

    The HTTP round trip and [encoding/json] are answers of the world: what
    [json.Marshal] makes of the request, whether [http.NewRequestWithContext]
    accepts it, what [client.Do] and [io.ReadAll] return, and what
    [json.Unmarshal] reads from the body. *)

Module client.

Record ChatMessage := {
  Role : string;
  Content : string
}.

Record ChatRequest := {
  req_Model : string;
  Messages : list ChatMessage
}.

(** A [ChatResponse]: [Choices] holds [choices[i].message.content],
    [resp_Error] the message of the [error] object when there is one. *)
Record ChatResponse := {
  resp_ID : string;
  Choices : list string;
  resp_Error : option string
}.

(** An [*http.Request] as [Chat] builds it. *)
Record Request := {
  Method : string;
  URL : string;
  Header : list (string * string);
  Body : string
}.

Record Http := {
  Marshal : ChatRequest → result string;
  NewRequest : string → string → string → option string;
  Do : Request → result string;
  ReadAll : string → result string;
  Unmarshal : string → result ChatResponse
}.

(** An [*LLMClient]; its [http.Client] only carries the timeout of 120
    seconds, which is the transport's business. *)
Record LLMClient := {
  config : ModelConfig;
  baseURL : string
}.

Definition NewLLMClient (config : ModelConfig) : LLMClient :=
  let baseURL := cfg_BaseURL config in
  let baseURL :=
    if decide (baseURL = "") then models.GetBaseURL (cfg_Provider config)
    else baseURL in
  {| config := config; baseURL := baseURL |}.

Definition Chat (h : Http) (c : LLMClient) (prompt : string) : result string :=
  let reqBody :=
    {| req_Model := cfg_Model (config c);
       Messages := [{| Role := "user"; Content := prompt |}] |} in
  match Marshal h reqBody with
  | Err err => Err ("marshal request: " +:+ err)
  | Ok jsonData =>
      let url := baseURL c +:+ "/chat/completions" in
      match NewRequest h "POST" url jsonData with
      | Some err => Err ("create request: " +:+ err)
      | None =>
          let req :=
            {| Method := "POST"; URL := url;
               Header := [("Content-Type", "application/json");
                          ("Authorization", "Bearer " +:+ APIKey (config c))];
               Body := jsonData |} in
          match Do h req with
          | Err err => Err ("request failed: " +:+ err)
          | Ok resp =>
              match ReadAll h resp with
              | Err err => Err ("read response: " +:+ err)
              | Ok body =>
                  match Unmarshal h body with
                  | Err err =>
                      Err ("unmarshal response: " +:+ err +:+ ", body: "
                             +:+ body)
                  | Ok result =>
                      match resp_Error result with
                      | Some message => Err ("API error: " +:+ message)
                      | None =>
                          match Choices result with
                          | [] => Err "no response choices"
                          | content :: _ => Ok content
                          end
                      end
                  end
              end
          end
      end
  end.

(** The pair [(response, err)] that [client.Chat] hands to its caller. *)
Definition as_pair (r : result string) : string * option string :=
  match r with
  | Ok response => (response, None)
  | Err err => ("", Some err)
  end.

End client.

(** ** Reference view of a run *)

(** The runs of one snapshot and one run index: one per configured model,
    in the order of the configuration. *)
Definition planned_batch (w : World) (config : BenchConfig) (s : Snapshot)
    (runIdx : Z) : list BenchResult :=
  match CalculateIndicators (Klines s) with
  | Some expected =>
      (λ mc, orchestrator.runSingleBenchmark w (ID s) mc
               (BuildIndicatorPrompt w (Klines s)) expected runIdx)
        <$> Models config
  | None => []
  end.

(** The batches of a benchmark: snapshot by snapshot, and for each snapshot
    run index by run index. *)
Definition planned_batches (w : World) (config : BenchConfig)
    (snapshots : list Snapshot) : list (list BenchResult) :=
  s ← snapshots;
  (λ runIdx, planned_batch w config s runIdx) <$> seqZ 0 (Runs config).

(** The same batches, each in the order the scheduler made of it. *)
Definition scheduled_batches (w : World) (config : BenchConfig)
    (snapshots : list Snapshot) : list (list BenchResult) :=
  s ← snapshots;
  (λ runIdx, schedule w (planned_batch w config s runIdx))
    <$> seqZ 0 (Runs config).

(** The snapshots a directory listing yields: the entries that are files
    with a name in [.json] and load without error, in listing order. *)
Definition loadable (w : World) (dir : string) (entries : list DirEntry)
  : list Snapshot :=
  omap (λ entry,
          if entry_IsDir entry || negb (HasSuffix (entry_Name entry) ".json")
          then None
          else
            match snapshot.LoadSnapshot w (Join w dir (entry_Name entry)) with
            | Ok s => Some s
            | Err _ => None
            end)
    entries.

(** The text [ParseIndicatorResponse] decodes when the direct parse has
    failed: the first brace-free object that mentions ["ma20"], else the
    span from the first [{] to the last [}]; empty when there is neither. *)
Definition extracted (response : string) : list ascii :=
  let match_ := llm.FindString_ma20 (bytes response) in
  if decide (match_ = []) then
    match index_byte "{"%char (bytes response),
          last_index_byte "}"%char (bytes response) with
    | Some start, Some end_ =>
        if (start <? end_)%nat then
          take (end_ + 1 - start) (drop start (bytes response))
        else match_
    | _, _ => match_
    end
  else match_.

(** ** A world with a network, for the worked instances *)

Definition sample_api_Kline (symbol : string) (ts limit : Z)
    (interval : coinank_enum.Interval) : result (list coinank_api.Kline) :=
  Ok (replicate (Z.to_nat limit)
        {| coinank_api.StartTime := 1704063600000;
           coinank_api.Open := 100; coinank_api.High := 101;
           coinank_api.Low := 99; coinank_api.Close := 100;
           coinank_api.Volume := 5;
           coinank_api.EndTime := 1704067199999 |}).

(** A transport whose every reply carries [sample_response] as the only
    choice. *)
Definition sample_http : client.Http :=
  {| client.Marshal := λ _, Ok "request";
     client.NewRequest := λ _ _ _, None;
     client.Do := λ _, Ok "response";
     client.ReadAll := λ _, Ok "body";
     client.Unmarshal := λ _,
       Ok {| client.resp_ID := "chatcmpl-1";
             client.Choices := [sample_response];
             client.resp_Error := None |} |}.

Definition online : World :=
  {| GetKlines := market_data.GetKlines sample_api_Kline 1704067200000;
     Now_Format := λ _, "20240101_000000";
     Now_UnixMilli := λ _, 1704067200000%Z;
     ReadDir := λ _,
       Ok [ {| entry_Name := "20240101_000000_BTCUSDT_1h.json";
               entry_IsDir := false |};
            {| entry_Name := "index.json"; entry_IsDir := false |};
            {| entry_Name := "archive"; entry_IsDir := true |};
            {| entry_Name := "README.md"; entry_IsDir := false |} ];
     ReadFile := λ path, Ok path;
     Join := λ dir name, dir +:+ "/" +:+ name;
     Unmarshal_Snapshot := λ data,
       if decide (data = "datasets/snapshots/20240101_000000_BTCUSDT_1h.json")
       then Ok {| ID := "20240101_000000_BTCUSDT_1h"; Symbol := "BTCUSDT";
                  Interval := "1h"; Timestamp := 1704067200000;
                  Klines := replicate 30 (candle 100) |}
       else Err "json: cannot unmarshal object into Go value";
     SaveSnapshot := λ _ _, None;
     BuildIndicatorPrompt := λ _, "prompt";
     Chat := λ mc _ _ prompt,
       client.as_pair (client.Chat sample_http (client.NewLLMClient mc) prompt);
     Chat_latency := λ _ _ _, 1500000000%Z;
     json_parse := sample_json_parse;
     ParseFloat := sample_ParseFloat;
     schedule := λ l, reverse l;
     range_order := λ l, l;
     sort_statistics := @engine.insertion_sort ModelStatistics;
     sort_entries := @engine.insertion_sort LeaderboardEntry;
     sort_snapshots := @engine.insertion_sort Snapshot |}.

Definition second_model : ModelConfig :=
  {| Name := "Qwen3-Max"; cfg_Provider := "qwen"; cfg_Model := "qwen3-max";
     APIKey := ""; cfg_BaseURL := "" |}.

Definition two_model_config : BenchConfig :=
  {| Mode := "realtime"; DatasetDir := ""; Symbols := ["BTCUSDT"];
     cfg_Interval := "1h"; KlineCount := 30;
     Models := [sample_model; second_model]; Runs := 1 |}.

(** ** Replies for the worked instances of the fallback *)

(** A key or a string in its quotes. *)
Definition quoted (s : string) : list ascii :=
  "034"%char :: bytes s ++ ["034"%char].

(** A reply whose object is wrapped in prose: [Here you are: {"ma20":
    101.5} Done.] *)
Definition prose_response : string :=
  of_bytes (bytes "Here you are: " ++ bytes "{" ++ llm.quoted_ma20
              ++ bytes ": 101.5}" ++ bytes " Done.").

(** A reply with an object where a number is expected:
    [{"rsi14": 7, "ema12": {"ma20": 3}}], and the object inside it. *)
Definition nested_response : string :=
  of_bytes (bytes "{" ++ quoted "rsi14" ++ bytes ": 7, " ++ quoted "ema12"
              ++ bytes ": {" ++ quoted "ma20" ++ bytes ": 3}}").

Definition inner_object : string :=
  of_bytes (bytes "{" ++ quoted "ma20" ++ bytes ": 3}").

Definition nested_json_parse (data : string) : option llm.json :=
  if decide (data = nested_response) then
    Some (llm.JObject
            [("rsi14", llm.JNumber "7");
             ("ema12", llm.JObject [("ma20", llm.JNumber "3")])])
  else if decide (data = inner_object) then
    Some (llm.JObject [("ma20", llm.JNumber "3")])
  else None.

Definition nested_ParseFloat (literal : string) : option float :=
  if decide (literal = "7") then Some 7%float
  else if decide (literal = "3") then Some 3%float
  else None.

(** ** Runs whose scores overflow *)

(** Two successful runs of one model with the total score [2^1023], a
    [float64] far outside the scores: their sum is [+Inf]. *)
Definition overflow_runs : list BenchResult :=
  [sample_run "alpha" "" 0x1p1023%float; sample_run "alpha" "" 0x1p1023%float].

(** * Proofs *)

(** ** Loops as folds *)

Lemma index_lookup {A} (l : list A) (i : Z) :
  (0 ≤ i)%Z → index l i = l !! Z.to_nat i.
Proof.
  intros Hi. unfold index.
  destruct (Z.ltb_spec i 0); [lia | reflexivity].
Qed.

Lemma index_fmap {A B} (g : A → B) (l : list A) (i : Z) (x : B) :
  (0 ≤ i)%Z → (g <$> l) !! Z.to_nat i = Some x →
  ∃ k, index l i = Some k ∧ g k = x.
Proof.
  intros Hi Hx. rewrite index_lookup by done.
  rewrite list_lookup_fmap in Hx.
  destruct (l !! Z.to_nat i) as [k|]; simplify_eq/=. eauto.
Qed.

(** A counted loop whose [j]-th iteration consumes the [j]-th element of
    [xs] is the left fold over [xs]. *)
Lemma for_steps_fold {A St} (xs : list A) (f : St → A → St)
    (body : Z → St → option St) (n : nat) (i : Z) (s : St) :
  length xs = n →
  (∀ j x s, xs !! j = Some x → body (i + Z.of_nat j)%Z s = Some (f s x)) →
  for_steps n i body s = Some (fold_left f xs s).
Proof.
  intros Hlen. revert i s xs Hlen.
  induction n as [|n IH]; intros i s xs Hlen Hbody.
  - by destruct xs.
  - destruct xs as [|x xs]; [done|]. simpl.
    pose proof (Hbody 0%nat x s eq_refl) as H0.
    rewrite Z.add_0_r in H0. rewrite H0. simpl.
    apply IH; [simpl in Hlen; lia|].
    intros j y s' Hj.
    replace (i + 1 + Z.of_nat j)%Z with (i + Z.of_nat (S j))%Z by lia.
    by apply Hbody.
Qed.

(** The loop [for i := lo; i < hi; i++ { s = f(s, g(l[i])) }] folds [f] over
    the slice [l[lo:hi]] of the [g]-values. *)
Lemma for_range_fold {A B St} (g : A → B) (l : list A) (f : St → B → St)
    (body : Z → St → option St) (lo hi : Z) (s : St) :
  (0 ≤ lo ≤ hi)%Z → (hi ≤ len l)%Z →
  (∀ i k s, index l i = Some k → body i s = Some (f s (g k))) →
  for_range lo hi body s =
    Some (fold_left f (take (Z.to_nat (hi - lo)) (drop (Z.to_nat lo) (g <$> l))) s).
Proof.
  intros Hlo Hhi Hbody. unfold for_range, len in *.
  apply for_steps_fold.
  - rewrite length_take, length_drop, length_fmap. lia.
  - intros j x s' Hj. apply lookup_take_Some in Hj as [Hj Hlt].
    rewrite lookup_drop in Hj.
    replace (Z.to_nat lo + j)%nat with (Z.to_nat (lo + Z.of_nat j)) in Hj by lia.
    apply index_fmap in Hj as (k & Hk & <-); [|lia].
    by apply Hbody.
Qed.

Lemma add_field_index (F : Kline → float) (klines : list Kline) i k s :
  index klines i = Some k → add_field F klines i s = Some (s + F k)%float.
Proof. intros H. unfold add_field. by rewrite H. Qed.

(** ** EMA *)

Lemma CalculateEMA_fold (klines : list Kline) (period : Z) :
  (0 ≤ period)%Z → (period ≤ len klines)%Z →
  CalculateEMA klines period = Some (EMA_spec (Close <$> klines) period).
Proof.
  intros H0 Hlen. unfold CalculateEMA, EMA_spec, mean, fsum.
  destruct (Z.ltb_spec (len klines) period) as [|_]; [lia|].
  rewrite (for_range_fold Close klines (λ s x, (s + x)%float));
    [|lia|done|apply add_field_index].
  simpl. rewrite Z.sub_0_r, drop_0.
  rewrite (for_range_fold Close klines
             (EMA_step (2 / float64_of_int (period + 1))%float));
    [|lia|done|].
  - do 2 f_equal. apply take_ge.
    rewrite length_drop, length_fmap. unfold len in *. lia.
  - intros i k s Hk. by rewrite Hk.
Qed.

(** C1. For a series at least [period] long, [CalculateEMA] is the fold that
    seeds with the mean of the first [period] closes and then applies
    [ema := (close - ema) * k + ema], [k = 2 / (period + 1)], to the closes
    from index [period] on, in order; 15 candles closing at 100 give an
    EMA(12) of exactly 100. *)
Theorem CalculateEMA_correct :
  (∀ (klines : list Kline) (period : Z),
     (0 ≤ period)%Z → (period ≤ len klines)%Z →
     CalculateEMA klines period = Some (EMA_spec (Close <$> klines) period)) ∧
  (∀ klines : list Kline,
     Close <$> klines = replicate 15 100%float →
     CalculateEMA klines 12 = Some 100%float).
Proof.
  split; [apply CalculateEMA_fold|].
  intros klines Hc.
  assert (length klines = 15%nat) as Hlen.
  { rewrite <- (length_fmap Close), Hc. apply length_replicate. }
  rewrite CalculateEMA_fold; [|lia|unfold len; lia].
  rewrite Hc. by vm_compute.
Qed.

Lemma CalculateEMA_correct_witness :
  CalculateEMA (candle <$> [1; 2; 4]%float) 2
    = Some (EMA_spec (Close <$> (candle <$> [1; 2; 4]%float)) 2) ∧
  CalculateEMA (replicate 15 (candle 100)) 12 = Some 100%float.
Proof.
  split.
  - apply (proj1 CalculateEMA_correct (candle <$> [1; 2; 4]%float) 2%Z).
    + lia.
    + unfold len. simpl. lia.
  - apply (proj2 CalculateEMA_correct (replicate 15 (candle 100))).
    reflexivity.
Defined.

(** ** Guards *)

(** C2. Below the minimum length every indicator returns the value 0 (and
    [CalculateBOLL] three zeros): a result, not a panic. *)
Theorem short_series_sentinel (klines : list Kline) (P : Z) :
  ((len klines < P)%Z →
     CalculateSMA klines P = Some 0%float ∧
     CalculateEMA klines P = Some 0%float ∧
     CalculateVolumeMA klines P = Some 0%float ∧
     ∀ multiplier, CalculateBOLL klines P multiplier = Some (0, 0, 0)%float) ∧
  ((len klines ≤ P)%Z →
     CalculateRSI klines P = Some 0%float ∧
     CalculateATR klines P = Some 0%float).
Proof.
  split.
  - intros H. unfold CalculateSMA, CalculateEMA, CalculateVolumeMA, CalculateBOLL.
    destruct (Z.ltb_spec (len klines) P); [done|lia].
  - intros H. unfold CalculateRSI, CalculateATR.
    destruct (Z.leb_spec (len klines) P); [done|lia].
Qed.

Lemma short_series_sentinel_witness :
  (CalculateSMA [candle 1] 20 = Some 0%float ∧
   CalculateEMA [candle 1] 20 = Some 0%float ∧
   CalculateVolumeMA [candle 1] 20 = Some 0%float ∧
   ∀ multiplier, CalculateBOLL [candle 1] 20 multiplier = Some (0, 0, 0)%float) ∧
  (CalculateRSI (replicate 14 (candle 1)) 14 = Some 0%float ∧
   CalculateATR (replicate 14 (candle 1)) 14 = Some 0%float).
Proof.
  split.
  - apply (proj1 (short_series_sentinel [candle 1] 20%Z)). unfold len. simpl. lia.
  - apply (proj2 (short_series_sentinel (replicate 14 (candle 1)) 14%Z)).
    unfold len. simpl. lia.
Defined.

(** ** IEEE 754 facts about comparisons *)

Lemma Prim2SF_zero : Prim2SF 0 = S754_zero false.
Proof. reflexivity. Qed.

Lemma lex3_Lt a b : lex3 a b = Lt ↔ lex3_lt a b.
Proof.
  unfold lex3, lex3_lt.
  destruct (Z.compare_spec a.1.1 b.1.1), (Z.compare_spec a.1.2 b.1.2),
    (Z.compare_spec a.2 b.2); split; intros; try done; lia.
Qed.

Lemma lex3_Eq a b : lex3 a b = Eq ↔ a = b.
Proof.
  unfold lex3. destruct a as [[a1 a2] a3], b as [[b1 b2] b3]. simpl.
  destruct (Z.compare_spec a1 b1), (Z.compare_spec a2 b2),
    (Z.compare_spec a3 b3); split; intros; simplify_eq; try done; lia.
Qed.

Lemma lex3_Gt a b : lex3 a b = Gt ↔ lex3_lt b a.
Proof.
  unfold lex3, lex3_lt.
  destruct (Z.compare_spec a.1.1 b.1.1), (Z.compare_spec a.1.2 b.1.2),
    (Z.compare_spec a.2 b.2); split; intros; try done; lia.
Qed.

Lemma SFcompare_rank (x y : spec_float) :
  SFcompare x y =
    match SFrank x, SFrank y with
    | Some a, Some b => Some (lex3 a b)
    | _, _ => None
    end.
Proof.
  destruct x as [[]|[]| |[] mx ex], y as [[]|[]| |[] my ey];
    try reflexivity; simpl; f_equal; unfold lex3; simpl.
  rewrite Z.compare_opp, (Z.compare_antisym ex ey).
  by destruct (ex ?= ey)%Z.
Qed.

Lemma SFcompare_swap (x y : spec_float) :
  SFcompare y x = CompOpp <$> SFcompare x y.
Proof.
  rewrite !SFcompare_rank.
  destruct (SFrank x) as [a|], (SFrank y) as [b|]; try reflexivity.
  simpl. f_equal.
  destruct (lex3 a b) eqn:E.
  - apply lex3_Eq in E as ->. by apply lex3_Eq.
  - apply lex3_Lt in E. by apply lex3_Gt.
  - apply lex3_Gt in E. by apply lex3_Lt.
Qed.

(** [a < b] excludes [b <= a]. *)
Lemma ltb_leb_false (a b : float) :
  (a <? b)%float = true → (b <=? a)%float = false.
Proof.
  rewrite ltb_spec, leb_spec. unfold SFltb, SFleb.
  rewrite (SFcompare_swap (Prim2SF a) (Prim2SF b)).
  by destruct (SFcompare (Prim2SF a) (Prim2SF b)) as [[]|].
Qed.

(** [a == b] excludes [b < a]. *)
Lemma eqb_ltb_false (a b : float) :
  (a =? b)%float = true → (b <? a)%float = false.
Proof.
  rewrite FloatAxioms.eqb_spec, ltb_spec. unfold SFeqb, SFltb.
  rewrite (SFcompare_swap (Prim2SF a) (Prim2SF b)).
  by destruct (SFcompare (Prim2SF a) (Prim2SF b)) as [[]|].
Qed.

Lemma leb_trans (a b c : float) :
  (a <=? b)%float = true → (b <=? c)%float = true → (a <=? c)%float = true.
Proof.
  rewrite !leb_spec. unfold SFleb. rewrite !SFcompare_rank.
  destruct (SFrank (Prim2SF a)) as [x|], (SFrank (Prim2SF b)) as [y|],
    (SFrank (Prim2SF c)) as [z|]; try done.
  destruct (lex3 x y) eqn:E1; try done; destruct (lex3 y z) eqn:E2; try done;
    intros _ _;
    repeat match goal with
           | H : lex3 _ _ = Eq |- _ => apply lex3_Eq in H; subst
           | H : lex3 _ _ = Lt |- _ => apply lex3_Lt in H
           end.
  - by rewrite (proj2 (lex3_Eq z z)).
  - by rewrite (proj2 (lex3_Lt y z)).
  - by rewrite (proj2 (lex3_Lt x z)).
  - rewrite (proj2 (lex3_Lt x z)); [done|]. unfold lex3_lt in *. lia.
Qed.

(** A number above [c2] is above every [c1 <= c2]. *)
Lemma leb_false_below (a c1 c2 : float) :
  (a <=? c2)%float = false → (c1 <=? c2)%float = true →
  (a <=? c1)%float = false.
Proof.
  intros Ha Hc. destruct (a <=? c1)%float eqn:E; [|done].
  by rewrite (leb_trans a c1 c2) in Ha.
Qed.

(** A nonzero number has a nonzero absolute value. *)
Lemma abs_eqb_zero (x : float) :
  (abs x =? 0)%float = (x =? 0)%float.
Proof.
  rewrite !FloatAxioms.eqb_spec, abs_spec, Prim2SF_zero.
  by destruct (Prim2SF x) as [[]|[]| |[] m e].
Qed.

(** ** Scoring *)

(** C5. [ScoreFromError] is a step function of the absolute error with
    inclusive upper boundaries 0.1, 1, 5 and 10; its value is always one of
    0, 40, 60, 80, 100. *)
Theorem ScoreFromError_tiers (e : float) :
  ((math.Abs e <=? 0.1)%float = true → ScoreFromError e = 100%float) ∧
  ((0.1 <? math.Abs e)%float = true → (math.Abs e <=? 1)%float = true →
     ScoreFromError e = 80%float) ∧
  ((1 <? math.Abs e)%float = true → (math.Abs e <=? 5)%float = true →
     ScoreFromError e = 60%float) ∧
  ((5 <? math.Abs e)%float = true → (math.Abs e <=? 10)%float = true →
     ScoreFromError e = 40%float) ∧
  ((10 <? math.Abs e)%float = true → ScoreFromError e = 0%float) ∧
  ScoreFromError e ∈ [0; 40; 60; 80; 100]%float ∧
  ScoreFromError 0.1 = 100%float ∧
  ScoreFromError 0.10001 = 80%float ∧
  ScoreFromError 1.0 = 80%float ∧
  ScoreFromError 1.00001 = 60%float ∧
  ScoreFromError 10.0 = 40%float ∧
  ScoreFromError 10.00001 = 0%float.
Proof.
  unfold ScoreFromError.
  repeat split; try reflexivity.
  - by intros ->.
  - intros H1%ltb_leb_false H2. by rewrite H1, H2.
  - intros H1%ltb_leb_false H2.
    by rewrite (leb_false_below _ 0.1 1 H1), H1, H2.
  - intros H1%ltb_leb_false H2.
    pose proof (leb_false_below _ 1 5 H1 eq_refl) as H3.
    by rewrite (leb_false_below _ 0.1 1 H3), H3, H1, H2.
  - intros H1%ltb_leb_false.
    pose proof (leb_false_below _ 5 10 H1 eq_refl) as H2.
    pose proof (leb_false_below _ 1 5 H2 eq_refl) as H3.
    by rewrite (leb_false_below _ 0.1 1 H3), H3, H2, H1.
  - destruct (_ <=? 0.1)%float; [set_solver|].
    destruct (_ <=? 1)%float; [set_solver|].
    destruct (_ <=? 5)%float; [set_solver|].
    destruct (_ <=? 10)%float; set_solver.
Qed.

Lemma ScoreFromError_tiers_witness :
  ScoreFromError 0.05 = 100%float ∧ ScoreFromError (-0.5) = 80%float ∧
  ScoreFromError 3 = 60%float ∧ ScoreFromError (-7.5) = 40%float ∧
  ScoreFromError 250 = 0%float.
Proof.
  pose proof (ScoreFromError_tiers 0.05) as (H1 & _).
  pose proof (ScoreFromError_tiers (-0.5)) as (_ & H2 & _).
  pose proof (ScoreFromError_tiers 3) as (_ & _ & H3 & _).
  pose proof (ScoreFromError_tiers (-7.5)) as (_ & _ & _ & H4 & _).
  pose proof (ScoreFromError_tiers 250) as (_ & _ & _ & _ & H5 & _).
  split; [apply H1; reflexivity|].
  split; [apply H2; reflexivity|].
  split; [apply H3; reflexivity|].
  split; [apply H4; reflexivity|].
  apply H5; reflexivity.
Defined.

(** C6. [CalculateError] is 0 for two zeros, 100 for a nonzero answer to an
    expected zero, and otherwise the relative deviation in percent; the
    division it performs never has a zero divisor. *)
Theorem CalculateError_cases (expected actual : float) :
  ((expected =? 0)%float = true → (actual =? 0)%float = true →
     CalculateError expected actual = 0%float) ∧
  ((expected =? 0)%float = true → (actual =? 0)%float = false →
     CalculateError expected actual = 100%float) ∧
  ((expected =? 0)%float = false →
     CalculateError expected actual =
       (abs (expected - actual) / abs expected * 100)%float) ∧
  CalculateError_checked expected actual
    = Some (CalculateError expected actual) ∧
  CalculateError 0 0 = 0%float ∧
  CalculateError 0 5 = 100%float ∧
  CalculateError 100 101 = 1.0%float.
Proof.
  unfold CalculateError, CalculateError_checked, checked_div, math.Abs.
  repeat split; try reflexivity.
  - by intros -> ->.
  - by intros -> ->.
  - by intros ->.
  - rewrite abs_eqb_zero.
    destruct (expected =? 0)%float; [by destruct (actual =? 0)%float|done].
Qed.

Lemma CalculateError_cases_witness :
  CalculateError (-0) 0 = 0%float ∧
  CalculateError 0 nan = 100%float ∧
  CalculateError 50 49 = (abs (50 - 49) / abs 50 * 100)%float.
Proof.
  pose proof (CalculateError_cases (-0) 0) as (H1 & _).
  pose proof (CalculateError_cases 0 nan) as (_ & H2 & _).
  pose proof (CalculateError_cases 50 49) as (_ & _ & H3 & _).
  split; [apply H1; reflexivity|].
  split; [apply H2; reflexivity|].
  apply H3; reflexivity.
Defined.

(** ** Bollinger Bands *)

Lemma CalculateBOLL_fold (klines : list Kline) (period : Z) (multiplier : float) :
  (0 ≤ period)%Z → (period ≤ len klines)%Z →
  let window := last_n (Z.to_nat period) (Close <$> klines) in
  let middle := mean window period in
  let stddev := population_stddev window middle period in
  CalculateBOLL klines period multiplier =
    Some ((middle + multiplier * stddev)%float, middle,
          (middle - multiplier * stddev)%float).
Proof.
  intros H0 Hlen. unfold CalculateBOLL, population_stddev, mean, fsum, last_n.
  destruct (Z.ltb_spec (len klines) period) as [|_]; [lia|].
  assert (∀ xs : list float, length xs = length klines →
    take (Z.to_nat (len klines - (len klines - period)))
         (drop (Z.to_nat (len klines - period)) xs)
    = drop (length xs - Z.to_nat period) xs) as Hwin.
  { intros xs Hxs. unfold len in *. rewrite Hxs.
    replace (Z.to_nat (Z.of_nat (length klines) - period))
      with (length klines - Z.to_nat period)%nat by lia.
    apply take_ge. rewrite length_drop. lia. }
  rewrite (for_range_fold Close klines (λ s x, (s + x)%float));
    [|unfold len in *; lia|done|apply add_field_index].
  simpl. rewrite Hwin by apply length_fmap.
  set (sma := (_ / float64_of_int period)%float).
  rewrite (for_range_fold Close klines
             (λ v x, (v + (x - sma) * (x - sma))%float));
    [|unfold len in *; lia|done|].
  - simpl. by rewrite Hwin by apply length_fmap.
  - intros i k s Hk. by rewrite Hk.
Qed.

(** A finite number is a zero or has a mantissa and an exponent. *)
Lemma is_finite_SF (x : float) :
  is_finite x = true →
  (∃ s, Prim2SF x = S754_zero s) ∨ (∃ s m e, Prim2SF x = S754_finite s m e).
Proof.
  unfold is_finite, is_nan, is_infinity.
  rewrite !FloatAxioms.eqb_spec, abs_spec.
  change (Prim2SF infinity) with (S754_infinity false).
  destruct (Prim2SF x) as [s|[]| |s m e]; try done; [left|right]; eauto.
Qed.

(** Adding or subtracting the product of a finite number and zero leaves
    10 unchanged. *)
Lemma ten_plus_finite_times_zero (m : float) :
  is_finite m = true →
  (10 + m * 0)%float = 10%float ∧ (10 - m * 0)%float = 10%float.
Proof.
  intros Hm. split; apply Prim2SF_inj.
  - rewrite add_spec, mul_spec.
    by destruct (is_finite_SF m Hm) as [[s ->]|(s & x & e & ->)]; destruct s.
  - rewrite sub_spec, mul_spec.
    by destruct (is_finite_SF m Hm) as [[s ->]|(s & x & e & ->)]; destruct s.
Qed.

(** C4. For a series at least [period] long, the middle band is the mean of
    the last [period] closes and the outer bands lie [multiplier] population
    standard deviations away from it; five closes at 10 have deviation 0,
    the middle band at 10 and, for a finite multiplier, the three bands at
    10. *)
Theorem CalculateBOLL_correct :
  (∀ (klines : list Kline) (period : Z) (multiplier : float),
     (0 ≤ period)%Z → (period ≤ len klines)%Z →
     let window := last_n (Z.to_nat period) (Close <$> klines) in
     let middle := mean window period in
     let stddev := population_stddev window middle period in
     CalculateBOLL klines period multiplier =
       Some ((middle + multiplier * stddev)%float, middle,
             (middle - multiplier * stddev)%float)) ∧
  (∀ (klines : list Kline) (multiplier : float),
     Close <$> klines = [10; 10; 10; 10; 10]%float →
     population_stddev (Close <$> klines) 10 5 = 0%float ∧
     CalculateBOLL klines 5 multiplier =
       Some ((10 + multiplier * 0)%float, 10%float,
             (10 - multiplier * 0)%float) ∧
     (is_finite multiplier = true →
      CalculateBOLL klines 5 multiplier = Some (10, 10, 10)%float)).
Proof.
  split; [apply CalculateBOLL_fold|].
  intros klines multiplier Hc.
  assert (length klines = 5%nat) as Hlen.
  { by rewrite <- (length_fmap Close), Hc. }
  split; [by rewrite Hc|].
  rewrite CalculateBOLL_fold; [|lia|unfold len; lia].
  rewrite Hc.
  change (last_n (Z.to_nat 5) [10; 10; 10; 10; 10]%float)
    with [10; 10; 10; 10; 10]%float.
  change (mean [10; 10; 10; 10; 10]%float 5) with 10%float.
  change (population_stddev [10; 10; 10; 10; 10]%float 10 5) with 0%float.
  split; [done|]. intros Hm.
  by destruct (ten_plus_finite_times_zero multiplier Hm) as [-> ->].
Qed.

Lemma CalculateBOLL_correct_witness :
  CalculateBOLL (candle <$> [1; 2; 4]%float) 2 2 =
    Some ((mean [2; 4]%float 2
             + 2 * population_stddev [2; 4]%float (mean [2; 4]%float 2) 2)%float,
          mean [2; 4]%float 2,
          (mean [2; 4]%float 2
             - 2 * population_stddev [2; 4]%float (mean [2; 4]%float 2) 2)%float) ∧
  population_stddev (Close <$> replicate 5 (candle 10)) 10 5 = 0%float ∧
  CalculateBOLL (replicate 5 (candle 10)) 5 2 = Some (10, 10, 10)%float.
Proof.
  split.
  - refine (proj1 CalculateBOLL_correct (candle <$> [1; 2; 4]%float)
              2%Z 2%float _ _).
    + lia.
    + unfold len. simpl. lia.
  - destruct (proj2 CalculateBOLL_correct (replicate 5 (candle 10)) 2%float)
      as (Hsd & _ & Hbands); [reflexivity|].
    split; [exact Hsd|]. apply Hbands. reflexivity.
Defined.

(** ** IEEE 754 facts about signs *)

Lemma binary_round_aux_nn prec emax m e l :
  SFnn (binary_round_aux prec emax false m e l) = true.
Proof.
  unfold binary_round_aux.
  destruct (shr_fexp prec emax m e l) as [mrs' e'].
  destruct (shr_fexp prec emax _ e' loc_Exact) as [mrs'' e''].
  destruct (shr_m mrs''); [done| |done].
  by destruct (e'' <=? emax - prec)%Z.
Qed.

Lemma binary_normalize_nn prec emax (z : Z) e :
  (0 ≤ z)%Z → SFnn (binary_normalize prec emax z e false) = true.
Proof.
  intros Hz. destruct z as [|p|p]; [done| |lia].
  unfold binary_normalize, binary_round.
  destruct (shl_align _ _ _). apply binary_round_aux_nn.
Qed.

Lemma nn_zero : nn 0.
Proof. done. Qed.

Lemma nn_add (x y : float) : nn x → nn y → nn (x + y).
Proof.
  unfold nn. rewrite add_spec.
  destruct (Prim2SF x) as [[]|[]| |[] mx ex], (Prim2SF y) as [[]|[]| |[] my ey];
    try done.
  intros _ _. unfold SF64add, SFadd. by apply binary_normalize_nn.
Qed.

Lemma nn_mul (x y : float) : nn x → nn y → nn (x * y).
Proof.
  unfold nn. rewrite mul_spec.
  destruct (Prim2SF x) as [[]|[]| |[] mx ex], (Prim2SF y) as [[]|[]| |[] my ey];
    try done.
  intros _ _. apply binary_round_aux_nn.
Qed.

Lemma nn_div (x y : float) : nn x → nn y → nn (x / y).
Proof.
  unfold nn. rewrite div_spec.
  destruct (Prim2SF x) as [[]|[]| |[] mx ex], (Prim2SF y) as [[]|[]| |[] my ey];
    try done.
  intros _ _. unfold SF64div, SFdiv.
  destruct (SFdiv_core_binary _ _ _ _ _ _) as [[mz ez] lz].
  apply binary_round_aux_nn.
Qed.

Lemma nn_abs (x : float) : nn (abs x).
Proof. unfold nn. rewrite abs_spec. by destruct (Prim2SF x). Qed.

Lemma nn_gain (d : float) : is_gain d = true → nn d.
Proof.
  unfold nn, is_gain. rewrite ltb_spec, Prim2SF_zero.
  by destruct (Prim2SF d) as [[]|[]| |[] m e].
Qed.

Lemma nn_float64_of_int (n : Z) : (0 ≤ n)%Z → nn (float64_of_int n).
Proof.
  intros Hn. unfold nn, float64_of_int.
  destruct (Z.ltb_spec n 0); [lia|].
  rewrite of_uint63_spec. apply binary_normalize_nn.
  apply Uint63.to_Z_bounded.
Qed.

(** Adding zero changes nothing but the sign of a negative zero. *)
Lemma add_zero_nn (x : float) : nn x → (x + 0)%float = x.
Proof.
  unfold nn. intros Hx. apply Prim2SF_inj. rewrite add_spec, Prim2SF_zero.
  by destruct (Prim2SF x) as [[]|[]| |[] m e].
Qed.

(** For a change that is not a gain, negating it is taking its magnitude,
    as far as adding it to a sum goes. *)
Lemma add_opp_loss (l d : float) :
  nn l → is_gain d = false → (l + - d)%float = (l + abs d)%float.
Proof.
  unfold nn, is_gain. rewrite ltb_spec, Prim2SF_zero. intros Hl Hd.
  apply Prim2SF_inj. rewrite !add_spec, opp_spec, abs_spec.
  destruct (Prim2SF d) as [[]|[]| |[] m e]; try done;
    by destruct (Prim2SF l) as [[]|[]| |[] ml el].
Qed.

(** ** RSI *)

(** [for_steps_fold] for a body that matches the fold only on the states
    of an invariant. *)
Lemma for_steps_fold_inv {A St} (Inv : St → Prop) (xs : list A)
    (f : St → A → St) (body : Z → St → option St) (n : nat) (i : Z) (s : St) :
  length xs = n → Inv s →
  (∀ j x s, Inv s → xs !! j = Some x →
     body (i + Z.of_nat j)%Z s = Some (f s x) ∧ Inv (f s x)) →
  for_steps n i body s = Some (fold_left f xs s) ∧ Inv (fold_left f xs s).
Proof.
  intros Hlen. revert i s xs Hlen.
  induction n as [|n IH]; intros i s xs Hlen Hs Hbody.
  - by destruct xs.
  - destruct xs as [|x xs]; [done|]. simpl.
    destruct (Hbody 0%nat x s Hs eq_refl) as [H0 Hs'].
    rewrite Z.add_0_r in H0. rewrite H0. simpl.
    apply IH; [simpl in Hlen; lia|done|].
    intros j y s' Hs'' Hj.
    replace (i + 1 + Z.of_nat j)%Z with (i + Z.of_nat (S j))%Z by lia.
    by apply Hbody.
Qed.

Lemma length_deltas (closes : list float) :
  length (deltas closes) = (length closes - 1)%nat.
Proof.
  unfold deltas. rewrite length_zip_with.
  destruct closes as [|c closes]; [done|].
  rewrite length_cons. simpl tail. lia.
Qed.

Lemma close_change_deltas (klines : list Kline) (j : nat) (x : float) :
  deltas (Close <$> klines) !! j = Some x →
  close_change klines (Z.of_nat j + 1) = Some x.
Proof.
  unfold deltas. intros (prev & cur & -> & Hp & Hc)%lookup_zip_with_Some.
  rewrite lookup_tail in Hc.
  unfold close_change.
  replace j with (Z.to_nat (Z.of_nat j + 1 - 1)) in Hp by lia.
  replace (S j) with (Z.to_nat (Z.of_nat j + 1)) in Hc by lia.
  apply index_fmap in Hp as (k' & -> & <-); [|lia].
  apply index_fmap in Hc as (k & -> & <-); [|lia].
  done.
Qed.

(** The seeding loop keeps the two running sums apart: one adds up the
    gains, the other the magnitudes of the remaining changes. *)
Lemma seed_fold_split (ds : list float) (g l : float) :
  fold_left
    (λ '(g, l) d, if is_gain d then ((g + d)%float, l)
                  else (g, (l + abs d)%float)) ds (g, l)
  = (fold_left (λ s x, (s + x)%float) (filter (λ d, is_gain d) ds) g,
     fold_left (λ s x, (s + x)%float)
       (abs <$> filter (λ d, ¬ is_gain d) ds) l).
Proof.
  revert g l. induction ds as [|d ds IH]; intros g l; [done|].
  rewrite !filter_cons. simpl.
  destruct (is_gain d); simpl; apply IH.
Qed.

Lemma nn_wilder (period : Z) (avg c : float) :
  (1 ≤ period)%Z → nn avg → nn c → nn (wilder period avg c).
Proof.
  intros Hp Ha Hc. unfold wilder.
  apply nn_div; [apply nn_add; [apply nn_mul|]|]; try done;
    apply nn_float64_of_int; lia.
Qed.

(** With contribution 0 the recurrence only rescales the average. *)
Lemma wilder_zero (period : Z) (avg : float) :
  (1 ≤ period)%Z → nn avg →
  wilder period avg 0
  = (avg * float64_of_int (period - 1) / float64_of_int period)%float.
Proof.
  intros Hp Ha. unfold wilder. rewrite add_zero_nn; [done|].
  apply nn_mul; [done|]. apply nn_float64_of_int; lia.
Qed.

Lemma CalculateRSI_fold (klines : list Kline) (period : Z) :
  (1 ≤ period)%Z → (period < len klines)%Z →
  CalculateRSI klines period = Some (RSI_spec (Close <$> klines) period).
Proof.
  intros Hp Hlen. unfold CalculateRSI, RSI_spec, RSI_averages, mean, fsum.
  destruct (Z.leb_spec (len klines) period) as [|_]; [lia|].
  set (ds := deltas (Close <$> klines)).
  assert (length ds = (length klines - 1)%nat) as Hds.
  { unfold ds. by rewrite length_deltas, length_fmap. }
  set (Inv := λ st : float * float, nn st.1 ∧ nn st.2).
  (* the seeding loop *)
  unfold for_range.
  edestruct (for_steps_fold_inv Inv (take (Z.to_nat period) ds)
    (λ '(g, l) d, if is_gain d then ((g + d)%float, l)
                  else (g, (l + abs d)%float))) as [-> Hinv].
  { rewrite length_take. unfold len in *. lia. }
  { split; apply nn_zero. }
  { intros j x [g l] [Hg Hl] [Hj _]%lookup_take_Some. simpl in *.
    replace (1 + Z.of_nat j)%Z with (Z.of_nat j + 1)%Z by lia.
    rewrite (close_change_deltas klines j x Hj). simpl.
    fold (is_gain x). destruct (is_gain x) eqn:Hx; simpl.
    - repeat split; try done. apply nn_add; [done|by apply nn_gain].
    - rewrite add_opp_loss by done.
      repeat split; try done. apply nn_add; [done|apply nn_abs]. }
  rewrite seed_fold_split in Hinv |- *. simpl.
  destruct Hinv as [Hg Hl]. simpl in Hg, Hl.
  (* the smoothing loop *)
  edestruct (for_steps_fold_inv Inv (drop (Z.to_nat period) ds)
    (λ '(g, l) d,
       if is_gain d then (wilder period g d, wilder period l 0)
       else (wilder period g 0, wilder period l (abs d))))
    as [-> _].
  { rewrite length_drop. unfold len in *. lia. }
  { split; simpl; (apply nn_div; [done|apply nn_float64_of_int; lia]). }
  { intros j x [g l] [Hg' Hl'] Hj. simpl in Hg', Hl' |- *.
    rewrite lookup_drop in Hj.
    replace (period + 1 + Z.of_nat j)%Z
      with (Z.of_nat (Z.to_nat period + j) + 1)%Z by lia.
    rewrite (close_change_deltas klines _ x Hj). simpl.
    fold (is_gain x).
    assert (nn (l * float64_of_int (period - 1))) as Hlq.
    { apply nn_mul; [done|]. apply nn_float64_of_int; lia. }
    destruct (is_gain x) eqn:Hx; simpl.
    - rewrite <- (wilder_zero period l) by done.
      split; [done|].
      split; simpl; apply nn_wilder; try done. by apply nn_gain.
    - rewrite <- (wilder_zero period g) by done.
      rewrite (add_opp_loss _ x) by done.
      split; [done|].
      split; simpl; apply nn_wilder; try done. apply nn_abs. }
  simpl. set (r := fold_left _ (drop _ ds) _). destruct r as [g l].
  by destruct (l =? 0)%float.
Qed.

(** ** IEEE 754 facts about rounding

    What the rounding of a positive mantissa can and cannot do in binary64:
    it never rounds to zero or NaN, and it overflows only near the largest
    exponent. *)

Lemma digits2_pos_size (m : positive) : digits2_pos m = Pos.size m.
Proof. induction m; simpl; congruence. Qed.

Lemma Zdigits2_log2 (m : positive) :
  Zdigits2 (Zpos m) = (Z.log2 (Zpos m) + 1)%Z.
Proof.
  simpl. rewrite digits2_pos_size.
  destruct m; simpl; rewrite ?Pos2Z.inj_succ; lia.
Qed.

Lemma iter_pos_iter {A} (f : A → A) (p : positive) (x : A) :
  SpecFloat.iter_pos f p x = Pos.iter f x p.
Proof.
  revert x. induction p as [p IH|p IH|]; intros x; simpl; [|by rewrite !IH|done].
  rewrite !IH. by rewrite <- !Pos.iter_swap.
Qed.

Lemma shr_1_m (r : shr_record) :
  (0 ≤ shr_m r)%Z → shr_m (shr_1 r) = Z.div2 (shr_m r).
Proof. destruct r as [[|[]|] ? ?]; simpl; try done; lia. Qed.

Lemma shr_m_iter (p : positive) (r : shr_record) :
  (0 ≤ shr_m r)%Z →
  shr_m (SpecFloat.iter_pos shr_1 p r) = Z.shiftr (shr_m r) (Zpos p).
Proof.
  intros Hr. rewrite iter_pos_iter.
  change (Z.shiftr (shr_m r) (Zpos p)) with (Pos.iter Z.div2 (shr_m r) p).
  enough (0 ≤ shr_m (Pos.iter shr_1 r p) ∧
          shr_m (Pos.iter shr_1 r p) = Pos.iter Z.div2 (shr_m r) p)%Z by tauto.
  apply (Pos.iter_ind _ shr_1 r
    (λ q r', 0 ≤ shr_m r' ∧ shr_m r' = Pos.iter Z.div2 (shr_m r) q)%Z).
  - rewrite shr_1_m by done. split; [|done].
    rewrite Z.div2_div. by apply Z.div_pos.
  - intros q r' [Hr' Hq]. rewrite shr_1_m by done.
    rewrite Pos.iter_succ, <- Hq. split; [|done].
    rewrite Z.div2_div. by apply Z.div_pos.
Qed.

Lemma shr_record_of_loc_m (m : Z) (l : location) :
  shr_m (shr_record_of_loc m l) = m.
Proof. by destruct l as [|[]]. Qed.

(** [shr_fexp] shifts the mantissa right by the number of bits the format
    cannot hold, and raises the exponent by as much. *)
Lemma shr_fexp_spec (m : positive) (e : Z) (l : location) :
  let n := Z.max 0 (fexp prec emax (Z.log2 (Zpos m) + 1 + e) - e) in
  ∃ r, shr_fexp prec emax (Zpos m) e l = (r, (e + n)%Z) ∧
       shr_m r = Z.shiftr (Zpos m) n.
Proof.
  unfold shr_fexp, shr. rewrite Zdigits2_log2.
  destruct (fexp prec emax (Z.log2 (Zpos m) + 1 + e) - e)%Z as [|p|p] eqn:E;
    simpl Z.max.
  - eexists. rewrite Z.add_0_r. split; [done|]. apply shr_record_of_loc_m.
  - eexists. split; [done|].
    rewrite shr_m_iter; rewrite shr_record_of_loc_m; done.
  - eexists. rewrite Z.add_0_r. split; [done|]. apply shr_record_of_loc_m.
Qed.

Lemma round_nearest_even_bounds (m : Z) (l : location) :
  (m ≤ round_nearest_even m l ≤ m + 1)%Z.
Proof. destruct l as [|[]]; simpl; try lia. destruct (Z.even m); lia. Qed.

Lemma shiftr_pos (a n : Z) :
  (0 < a)%Z → (n ≤ Z.log2 a)%Z → (0 < Z.shiftr a n)%Z.
Proof.
  intros Ha Hn.
  assert (0 ≤ Z.shiftr a n)%Z by (apply Z.shiftr_nonneg; lia).
  assert (Z.shiftr a n ≠ 0)%Z; [|lia].
  rewrite Z.shiftr_eq_0_iff. lia.
Qed.

(** Rounding a positive mantissa whose exponent is not below the smallest
    one gives a number with a positive mantissa, or overflows. *)
Lemma binary_round_aux_pos (sx : bool) (m : positive) (e : Z) (l : location) :
  (-1074 ≤ e)%Z →
  ∃ m' e', (e' ≤ Z.max e (Z.log2 (Zpos m) + e - 51))%Z ∧
    binary_round_aux prec emax sx (Zpos m) e l =
      if (e' <=? emax - prec)%Z then S754_finite sx m' e' else S754_infinity sx.
Proof.
  intros He. unfold binary_round_aux.
  destruct (shr_fexp_spec m e l) as (r1 & -> & Hr1).
  set (n1 := Z.max 0 (fexp prec emax (Z.log2 (Zpos m) + 1 + e) - e)) in *.
  assert (0 ≤ n1 ≤ Z.log2 (Zpos m))%Z as Hn1.
  { unfold n1, fexp, emin, prec, emax.
    pose proof (Z.log2_nonneg (Zpos m)). lia. }
  assert (0 < shr_m r1)%Z as Hm1 by (rewrite Hr1; apply shiftr_pos; lia).
  assert (Z.log2 (shr_m r1) = Z.log2 (Zpos m) - n1)%Z as Hlog1.
  { rewrite Hr1, Z.log2_shiftr by lia. lia. }
  pose proof (round_nearest_even_bounds (shr_m r1) (loc_of_shr_record r1)) as Hrne.
  destruct (round_nearest_even (shr_m r1) (loc_of_shr_record r1))
    as [|q|q] eqn:Eq; [lia| |lia].
  destruct (shr_fexp_spec q (e + n1) loc_Exact) as (r2 & -> & Hr2).
  set (n2 := Z.max 0 (fexp prec emax (Z.log2 (Zpos q) + 1 + (e + n1))
                        - (e + n1))) in *.
  assert (Z.log2 (Zpos q) ≤ Z.log2 (shr_m r1) + 1)%Z as Hlogq.
  { etrans; [apply Z.log2_le_mono; apply Hrne|].
    rewrite Z.add_1_r. apply Z.log2_succ_le. }
  assert (0 ≤ n2 ≤ Z.log2 (Zpos q))%Z as Hn2.
  { unfold n2, fexp, emin, prec, emax.
    pose proof (Z.log2_nonneg (Zpos q)). lia. }
  assert (0 < shr_m r2)%Z as Hm2 by (rewrite Hr2; apply shiftr_pos; lia).
  destruct (shr_m r2) as [|m'|m'] eqn:Em; [lia| |lia].
  exists m', (e + n1 + n2)%Z. split; [|done].
  unfold n1, n2, fexp, emin, prec, emax in *. lia.
Qed.

(** [float64(n)] for a positive [int] is a positive finite number. *)
Lemma float64_of_int_pos (n : Z) :
  (1 ≤ n ≤ max_int)%Z →
  ∃ m e, Prim2SF (float64_of_int n) = S754_finite false m e.
Proof.
  intros Hn. unfold float64_of_int, max_int in *.
  destruct (Z.ltb_spec n 0); [lia|].
  rewrite of_uint63_spec, Uint63.of_Z_spec.
  rewrite Z.mod_small by (change Uint63.wB with (2 ^ 63)%Z; lia).
  destruct n as [|p|p]; [lia| |lia].
  unfold binary_normalize, binary_round.
  assert (Z.log2 (Zpos p) < 63)%Z as Hlog by (apply Z.log2_lt_pow2; lia).
  pose proof (Z.log2_nonneg (Zpos p)) as Hlog0.
  change (Zpos (digits2_pos p)) with (Zdigits2 (Zpos p)).
  rewrite Zdigits2_log2.
  set (e0 := fexp prec emax (Z.log2 (Zpos p) + 1 + 0)).
  assert (e0 = Z.log2 (Zpos p) - 52)%Z as He0.
  { unfold e0, fexp, emin, prec, emax. lia. }
  unfold shl_align.
  destruct (e0 - 0)%Z as [|d|d] eqn:Ed.
  - destruct (binary_round_aux_pos false p 0 loc_Exact) as (m' & e' & He' & ->);
      [lia|].
    destruct (Z.leb_spec e' (emax - prec)); [eauto|].
    unfold emax, prec in *. lia.
  - destruct (binary_round_aux_pos false p 0 loc_Exact) as (m' & e' & He' & ->);
      [lia|].
    destruct (Z.leb_spec e' (emax - prec)); [eauto|].
    unfold emax, prec in *. lia.
  - destruct (binary_round_aux_pos false (Pos.iter xO p d) e0 loc_Exact)
      as (m' & e' & He' & ->); [lia|].
    assert (Z.log2 (Zpos (Pos.iter xO p d)) = Z.log2 (Zpos p) + Zpos d)%Z as Hsh.
    { change (Pos.iter xO p d) with (shift_pos d p).
      rewrite shift_pos_correct.
      change (Z.pow_pos 2 d) with (2 ^ Zpos d)%Z.
      rewrite Z.mul_comm, Z.log2_mul_pow2 by lia. lia. }
    rewrite Hsh in He'.
    destruct (Z.leb_spec e' (emax - prec)); [eauto|].
    unfold emax, prec in *. lia.
Qed.

Lemma shl_align_fst (m : positive) (e e' : Z) :
  (e' ≤ e)%Z → Zpos (fst (shl_align m e e')) = (Zpos m * 2 ^ (e - e'))%Z.
Proof.
  intros He. unfold shl_align.
  destruct (e' - e)%Z as [|d|d] eqn:Ed; simpl fst.
  - replace (e - e')%Z with 0%Z by lia. lia.
  - lia.
  - change (Pos.iter xO m d) with (shift_pos d m).
    rewrite shift_pos_correct.
    change (Z.pow_pos 2 d) with (2 ^ Zpos d)%Z.
    replace (e - e')%Z with (Zpos d) by lia. lia.
Qed.

(** The numbers of binary64 are canonical: exponents are at least -1074,
    mantissas below 2^53, and a number above the smallest exponent has a
    full mantissa. *)
Lemma valid_binary_bounds (s : bool) (m : positive) (e : Z) :
  valid_binary (S754_finite s m e) = true →
  (-1074 ≤ e)%Z ∧ (Zpos m < 2 ^ 53)%Z ∧ (-1074 < e → 2 ^ 52 ≤ Zpos m)%Z.
Proof.
  unfold SpecFloat.valid_binary, bounded, canonical_mantissa.
  intros [Hc _]%andb_prop. apply Z.eqb_eq in Hc.
  change (Zpos (digits2_pos m)) with (Zdigits2 (Zpos m)) in Hc.
  rewrite Zdigits2_log2 in Hc.
  unfold fexp, emin, prec, emax in Hc.
  destruct (Z.log2_spec (Zpos m)) as [Hlo Hhi]; [lia|].
  pose proof (Z.log2_nonneg (Zpos m)) as Hnn.
  split; [lia|]. split.
  - eapply Z.lt_le_trans; [apply Hhi|].
    apply Z.pow_le_mono_r; lia.
  - intros He. eapply Z.le_trans; [|apply Hlo].
    apply Z.pow_le_mono_r; lia.
Qed.

(** Among positive canonical numbers, the order compares the values. *)
Lemma canonical_lt_aligned (ma mb : positive) (ea eb : Z) :
  valid_binary (S754_finite false ma ea) = true →
  valid_binary (S754_finite false mb eb) = true →
  SFcompare (S754_finite false ma ea) (S754_finite false mb eb) = Some Lt →
  let ez := Z.min ea eb in
  (Zpos (fst (shl_align ma ea ez)) < Zpos (fst (shl_align mb eb ez)))%Z.
Proof.
  intros (Ha1 & Ha2 & Ha3)%valid_binary_bounds
         (Hb1 & Hb2 & Hb3)%valid_binary_bounds Hcmp ez.
  rewrite !shl_align_fst by (unfold ez; lia).
  simpl in Hcmp.
  destruct (Z.compare_spec ea eb) as [->|Hlt|Hgt]; [| |done].
  - unfold ez. rewrite Z.min_id, Z.sub_diag. simpl.
    change (Pos.compare_cont Eq ma mb) with (ma ?= mb)%positive in Hcmp.
    assert ((ma ?= mb)%positive = Lt) as H by congruence.
    assert (Zpos ma < Zpos mb)%Z by exact H.
    rewrite Z.pow_0_r. lia.
  - unfold ez. rewrite Z.min_l, Z.sub_diag by lia. simpl.
    assert (2 ^ 1 ≤ 2 ^ (eb - ea))%Z by (apply Z.pow_le_mono_r; lia).
    specialize (Hb3 ltac:(lia)). nia.
Qed.

(** Rounding the positive difference of two aligned mantissas gives a
    positive number. *)
Lemma binary_normalize_pos (z e : Z) :
  (0 < z)%Z → (-1074 ≤ e)%Z →
  SFltb (S754_zero false) (binary_normalize prec emax z e false) = true.
Proof.
  intros Hz He. destruct z as [|p|p]; [lia| |lia].
  unfold binary_normalize, binary_round.
  destruct (shl_align p e _) as [mz ez] eqn:Esh.
  assert (-1074 ≤ ez)%Z.
  { unfold shl_align in Esh.
    destruct (_ - e)%Z eqn:Ed; simplify_eq; try done.
    unfold fexp, emin, prec, emax. lia. }
  destruct (binary_round_aux_pos false mz ez loc_Exact)
    as (m' & e' & _ & ->); [done|].
  by destruct (e' <=? emax - prec)%Z.
Qed.

(** If [a < b] then [b - a] is positive: binary64 has gradual underflow. *)
Lemma sub_pos_of_ltb (a b : float) :
  (a <? b)%float = true → (0 <? b - a)%float = true.
Proof.
  rewrite !ltb_spec, sub_spec, Prim2SF_zero.
  pose proof (Prim2SF_valid a) as Va. pose proof (Prim2SF_valid b) as Vb.
  destruct (Prim2SF a) as [sa|sa| |sa ma ea], (Prim2SF b) as [sb|sb| |sb mb eb];
    try done;
    try (by destruct sa, sb).
  unfold SFltb. intros Hcmp. unfold SF64sub, SFsub.
  destruct (valid_binary_bounds _ _ _ Va) as (Ha & _).
  destruct (valid_binary_bounds _ _ _ Vb) as (Hb & _).
  apply binary_normalize_pos; [|lia].
  destruct sa, sb; simpl cond_Zopp; try done.
  - (* both negative: |b| < |a| *)
    assert (SFcompare (S754_finite false mb eb) (S754_finite false ma ea)
            = Some Lt) as Hc.
    { simpl in *. rewrite (Z.compare_antisym ea eb).
      destruct (ea ?= eb)%Z; simpl in *; try done.
      change (Pos.compare_cont Eq mb ma) with (mb ?= ma)%positive.
      rewrite (Pos.compare_antisym ma mb).
      change (Pos.compare_cont Eq ma mb) with (ma ?= mb)%positive in Hcmp.
      by destruct (ma ?= mb)%positive. }
    pose proof (canonical_lt_aligned mb ma eb ea Vb Va Hc) as Hlt.
    cbv zeta in Hlt. lia.
  - (* both positive *)
    assert (SFcompare (S754_finite false ma ea) (S754_finite false mb eb)
            = Some Lt) as Hc.
    { simpl in *. by destruct (ea ?= eb)%Z, (Pos.compare_cont Eq ma mb). }
    pose proof (canonical_lt_aligned ma mb ea eb Va Vb Hc) as Hlt.
    cbv zeta in Hlt. rewrite (Z.min_comm ea eb) in Hlt. lia.
Qed.

Lemma zero_div_pos (y : float) (m : positive) (e : Z) :
  Prim2SF y = S754_finite false m e → (0 / y)%float = 0%float.
Proof.
  intros Hy. apply Prim2SF_inj. by rewrite div_spec, Hy.
Qed.

(** With no losses at all the average loss stays at zero. *)
Lemma wilder_zero_zero (period : Z) :
  (1 ≤ period ≤ max_int)%Z → wilder period 0 0 = 0%float.
Proof.
  intros Hp. unfold wilder.
  destruct (float64_of_int_pos period Hp) as (m & e & Hm).
  assert ((0 * float64_of_int (period - 1) + 0)%float = 0%float) as ->.
  { apply Prim2SF_inj. rewrite add_spec, mul_spec.
    destruct (Z.eq_dec period 1%Z) as [->|Hne]; [done|].
    destruct (float64_of_int_pos (period - 1)) as (m' & e' & ->); [lia|done]. }
  by apply (zero_div_pos _ m e).
Qed.

Lemma strictly_increasing_gains (closes : list float) :
  strictly_increasing closes → Forall (λ d, is_gain d = true) (deltas closes).
Proof.
  intros Hinc. apply Forall_lookup. intros j d.
  unfold deltas. intros (prev & cur & -> & Hp & Hc)%lookup_zip_with_Some.
  rewrite lookup_tail in Hc.
  apply sub_pos_of_ltb. by apply (Hinc j).
Qed.

Lemma RSI_spec_all_gains (closes : list float) (period : Z) :
  (1 ≤ period ≤ max_int)%Z →
  Forall (λ d, is_gain d = true) (deltas closes) →
  RSI_spec closes period = 100%float.
Proof.
  intros Hp Hall. unfold RSI_spec, RSI_averages.
  set (ds := deltas closes) in *.
  assert (filter (λ d, ¬ is_gain d) (take (Z.to_nat period) ds) = []) as ->.
  { assert (Forall (λ d, is_gain d = true) (take (Z.to_nat period) ds)) as Hs
      by by apply Forall_take.
    induction Hs as [|d seed Hd _ IH]; [done|].
    rewrite filter_cons, IH.
    destruct (decide _) as [Hn|]; [|done].
    exfalso. apply Hn. by rewrite Hd. }
  assert (mean (abs <$> []) period = 0%float) as ->.
  { destruct (float64_of_int_pos period Hp) as (m & e & Hm).
    by apply (zero_div_pos _ m e). }
  set (g0 := mean _ period). clearbody g0.
  assert (Forall (λ d, is_gain d = true) (drop (Z.to_nat period) ds)) as Hrest
    by by apply Forall_drop.
  revert g0. induction Hrest as [|d rest Hd _ IH]; intros g0; [done|].
  simpl. rewrite Hd, wilder_zero_zero by done. apply IH.
Qed.

(** C3. For a series longer than [period], [CalculateRSI] is Wilder's
    method: the changes at indices [1..period] seed the average gain and
    the average loss, each later change updates the matching average by
    [(avg * (period - 1) + contribution) / period] and the other one with
    contribution 0; the result is 100 when the final average loss is 0 and
    [100 - 100 / (1 + avgGain / avgLoss)] otherwise.  A series of strictly
    increasing closes has RSI exactly 100. *)
Theorem CalculateRSI_correct :
  (∀ (klines : list Kline) (period : Z),
     (1 ≤ period)%Z → (period < len klines)%Z →
     CalculateRSI klines period = Some (RSI_spec (Close <$> klines) period)) ∧
  (∀ (klines : list Kline) (period : Z),
     (1 ≤ period ≤ max_int)%Z → (period < len klines)%Z →
     strictly_increasing (Close <$> klines) →
     CalculateRSI klines period = Some 100%float).
Proof.
  split; [apply CalculateRSI_fold|].
  intros klines period Hp Hlen Hinc.
  rewrite CalculateRSI_fold by (done || lia).
  f_equal. apply RSI_spec_all_gains; [done|].
  by apply strictly_increasing_gains.
Qed.

Lemma CalculateRSI_correct_witness :
  CalculateRSI (candle <$> [1; 2; 1.5; 4]%float) 2
    = Some (RSI_spec (Close <$> (candle <$> [1; 2; 1.5; 4]%float)) 2) ∧
  CalculateRSI (candle <$> [1; 2; 4; 7]%float) 2 = Some 100%float.
Proof.
  split.
  - apply (proj1 CalculateRSI_correct (candle <$> [1; 2; 1.5; 4]%float) 2%Z).
    + lia.
    + unfold len. simpl. lia.
  - apply (proj2 CalculateRSI_correct (candle <$> [1; 2; 4; 7]%float) 2%Z).
    + unfold max_int. lia.
    + unfold len. simpl. lia.
    + intros i a b Ha Hb.
      destruct i as [|[|[|[|i]]]]; simpl in Ha, Hb; by simplify_eq.
Defined.

(** ** Statistics *)

Lemma runs_of_snoc (m : string) (l : list BenchResult) (r : BenchResult) :
  runs_of m (l ++ [r]) =
    if decide (Model r = m) then runs_of m l ++ [r] else runs_of m l.
Proof.
  unfold runs_of. rewrite filter_app, filter_cons, filter_nil.
  destruct (decide _); [done|]. by rewrite app_nil_r.
Qed.

(** Grouping: each model is mapped to its runs, in order, and to the last
    info its runs carry. *)
Lemma group_results_spec (results : list BenchResult) (m : string) :
  (engine.group_results results).1 !! m =
    (if decide (runs_of m results = []) then None
     else Some (runs_of m results)) ∧
  (engine.group_results results).2 !! m = last_info (runs_of m results).
Proof.
  unfold engine.group_results.
  induction results as [|r l IH] using rev_ind; [done|].
  rewrite fold_left_app. simpl.
  destruct (fold_left engine.group_step l (∅, ∅)) as [mr mi] eqn:E.
  simpl in IH. destruct IH as [IH1 IH2].
  rewrite runs_of_snoc. unfold engine.group_step.
  assert ((<[Model r:=default [] (mr !! Model r) ++ [r]]> mr) !! m =
          if decide (Model r = m) then Some (runs_of m l ++ [r])
          else mr !! m) as Hmr.
  { destruct (decide (Model r = m)) as [->|Hne].
    - rewrite lookup_insert_eq, IH1. by destruct (decide (runs_of m l = [])) as [->|].
    - by rewrite lookup_insert_ne. }
  split.
  - transitivity ((<[Model r:=default [] (mr !! Model r) ++ [r]]> mr) !! m).
    { by destruct (Info r). }
    rewrite Hmr. destruct (decide (Model r = m)); [|done].
    destruct (decide (runs_of m l ++ [r] = [])) as [Hnil|]; [|done].
    by destruct (runs_of m l).
  - unfold last_info in *.
    destruct (decide (Model r = m)) as [->|Hne].
    + rewrite fold_left_app. simpl. rewrite <- IH2.
      destruct (Info r); simpl; [by rewrite lookup_insert_eq|done].
    + rewrite <- IH2. destruct (Info r); simpl; [by rewrite lookup_insert_ne|done].
Qed.

Lemma stat_Model_model_statistics mi m rs :
  stat_Model (engine.model_statistics mi m rs) = m.
Proof. unfold engine.model_statistics. by destruct (0 <? _)%Z. Qed.

Lemma model_statistics_info mi mi' m rs :
  mi !! m = mi' !! m →
  engine.model_statistics mi m rs = engine.model_statistics mi' m rs.
Proof. intros H. unfold engine.model_statistics. by rewrite H. Qed.

Section statistics.
Variable range_order :
  list (string * list BenchResult) → list (string * list BenchResult).
Variable sort_Slice :
  (ModelStatistics → ModelStatistics → bool) →
  list ModelStatistics → list ModelStatistics.
Hypothesis range_order_perm : ∀ l, range_order l ≡ₚ l.
Hypothesis sort_Slice_perm : ∀ less l, sort_Slice less l ≡ₚ l.

(** The output holds, in some order, the statistics of exactly the models
    that have runs. *)
Lemma calculateStatistics_elem (results : list BenchResult) (s : ModelStatistics) :
  s ∈ engine.calculateStatistics range_order sort_Slice results ↔
  ∃ m, runs_of m results ≠ [] ∧ s = statistics_of m results.
Proof.
  unfold engine.calculateStatistics, statistics_of.
  pose proof (group_results_spec results) as Hg.
  destruct (engine.group_results results) as [mr mi]. simpl in Hg |- *.
  rewrite sort_Slice_perm, list_elem_of_fmap.
  split.
  - intros ([m rs] & -> & Hin).
    rewrite range_order_perm in Hin. apply elem_of_map_to_list in Hin.
    destruct (Hg m) as [Hm _]. rewrite Hm in Hin.
    destruct (decide (runs_of m results = [])); [done|].
    simplify_eq. eauto.
  - intros (m & Hne & ->).
    exists (m, runs_of m results). split; [done|].
    rewrite range_order_perm. apply elem_of_map_to_list.
    destruct (Hg m) as [-> _]. by destruct (decide _).
Qed.
End statistics.

(** *** Failed runs *)

Lemma with_failures_id t : with_failures (engine.failureCount t) t = t.
Proof. by destruct t. Qed.

Lemma tally_step_failed t r :
  Error r ≠ "" →
  engine.tally_step t r = with_failures (engine.failureCount t + 1) t.
Proof. intros H. unfold engine.tally_step. by destruct (decide _). Qed.

Lemma tally_step_success t r n :
  Error r = "" →
  engine.tally_step (with_failures n t) r
  = with_failures n (engine.tally_step t r).
Proof.
  intros H. unfold engine.tally_step.
  destruct (decide _); [done|]. by destruct (Scores r).
Qed.

Lemma tally_successful_with_failures rs t n :
  fold_left engine.tally_step (successful rs) (with_failures n t)
  = with_failures n (fold_left engine.tally_step (successful rs) t).
Proof.
  revert t. unfold successful.
  induction rs as [|r rs IH]; intros t; [done|].
  rewrite filter_cons. destruct (decide _) as [He|]; [|apply IH].
  simpl. by rewrite tally_step_success, IH.
Qed.

(** The tally of some runs is the tally of the successful ones, with one
    failure counted for each of the others. *)
Lemma tally_split rs t :
  fold_left engine.tally_step rs t
  = with_failures (engine.failureCount t + len (failed rs))
      (fold_left engine.tally_step (successful rs) t).
Proof.
  revert t. unfold successful, failed, len.
  induction rs as [|r rs IH]; intros t.
  - simpl. by rewrite Z.add_0_r, with_failures_id.
  - rewrite !filter_cons. simpl fold_left at 1.
    destruct (decide (Error r = "")) as [He|He].
    + destruct (decide (Error r ≠ "")); [done|]. simpl. rewrite IH.
      f_equal. unfold engine.tally_step.
      destruct (decide _); [done|]. by destruct (Scores r).
    + destruct (decide (Error r ≠ "")); [|done].
      rewrite tally_step_failed by done. rewrite IH.
      fold (successful rs). rewrite tally_successful_with_failures.
      unfold with_failures. simpl. f_equal. lia.
Qed.

Lemma successful_insert_failed pre r post :
  Error r ≠ "" → successful (pre ++ r :: post) = successful (pre ++ post).
Proof.
  intros H. unfold successful. rewrite !filter_app, filter_cons.
  by destruct (decide _).
Qed.

Lemma failed_insert_failed pre r post :
  Error r ≠ "" → len (failed (pre ++ r :: post)) = (len (failed (pre ++ post)) + 1)%Z.
Proof.
  intros H. unfold failed, len. rewrite !filter_app, filter_cons.
  destruct (decide _); [|done]. rewrite !length_app. simpl. lia.
Qed.

Lemma tally_counts rs t :
  let t' := fold_left engine.tally_step rs t in
  (engine.successCount t' + engine.failureCount t'
   = engine.successCount t + engine.failureCount t + len rs)%Z.
Proof.
  revert t. unfold len. induction rs as [|r rs IH]; intros t; simpl; [lia|].
  simpl in IH. rewrite IH.
  unfold engine.tally_step.
  destruct (decide _); [simpl; lia|]. destruct (Scores r); simpl; lia.
Qed.

Lemma tally_scores rs t :
  engine.scores (fold_left engine.tally_step rs t)
  = engine.scores t ++ (TotalScore <$> successful rs).
Proof.
  revert t. unfold successful.
  induction rs as [|r rs IH]; intros t; simpl; [by rewrite app_nil_r|].
  rewrite IH, filter_cons. unfold engine.tally_step.
  destruct (decide (Error r ≠ "")), (decide (Error r = "")); try done.
  destruct (Scores r); simpl; by rewrite <- app_assoc.
Qed.

Lemma runs_of_insert m pre r post :
  runs_of m (pre ++ r :: post) =
    if decide (Model r = m) then runs_of m pre ++ r :: runs_of m post
    else runs_of m (pre ++ post).
Proof.
  unfold runs_of. rewrite !filter_app, filter_cons. by destruct (decide _).
Qed.

(** A run of one model leaves the statistics of every other model as they
    are. *)
Lemma statistics_of_other_model pre r post m :
  m ≠ Model r →
  statistics_of m (pre ++ r :: post) = statistics_of m (pre ++ post).
Proof.
  intros Hm. unfold statistics_of.
  rewrite runs_of_insert. destruct (decide _); [done|].
  apply model_statistics_info.
  destruct (group_results_spec (pre ++ r :: post) m) as [_ ->].
  destruct (group_results_spec (pre ++ post) m) as [_ ->].
  rewrite runs_of_insert. by destruct (decide _).
Qed.

(** A failed run adds one failure to the statistics of its model and
    changes nothing else about the scores and latencies. *)
Lemma statistics_of_failed_run pre r post :
  Error r ≠ "" →
  let s := statistics_of (Model r) (pre ++ r :: post) in
  let s0 := statistics_of (Model r) (pre ++ post) in
  FailureCount s = (FailureCount s0 + 1)%Z ∧
  SuccessCount s = SuccessCount s0 ∧
  AvgScore s = AvgScore s0 ∧ MinScore s = MinScore s0 ∧
  MaxScore s = MaxScore s0 ∧ StdDev s = StdDev s0 ∧
  AvgLatencyMs s = AvgLatencyMs s0 ∧ MinLatencyMs s = MinLatencyMs s0 ∧
  MaxLatencyMs s = MaxLatencyMs s0 ∧
  IndicatorAvgs s = IndicatorAvgs s0 ∧
  Consistency s = Consistency s0.
Proof.
  intros He. unfold statistics_of, engine.model_statistics.
  set (m := Model r).
  rewrite runs_of_insert. destruct (decide (Model r = m)); [|done].
  assert (runs_of m (pre ++ post) = runs_of m pre ++ runs_of m post) as ->.
  { unfold runs_of. apply filter_app. }
  rewrite (tally_split (_ ++ r :: _)), (tally_split (_ ++ _)).
  rewrite successful_insert_failed, failed_insert_failed by done.
  set (T := fold_left engine.tally_step _ _).
  simpl.
  destruct (0 <? len (engine.scores T))%Z; simpl; repeat split; lia.
Qed.

Lemma insert_sorted_perm {A} (less : A → A → bool) (x : A) (l : list A) :
  engine.insert_sorted less x l ≡ₚ x :: l.
Proof.
  induction l as [|y l IH]; simpl; [done|].
  destruct (less y x); [|done]. rewrite IH. apply Permutation_swap.
Qed.

Lemma insertion_sort_perm {A} (less : A → A → bool) (l : list A) :
  engine.insertion_sort less l ≡ₚ l.
Proof.
  induction l as [|x l IH]; simpl; [done|].
  unfold engine.insertion_sort in *. simpl.
  by rewrite insert_sorted_perm, IH.
Qed.

Lemma statistics_of_counts m results :
  (SuccessCount (statistics_of m results) + FailureCount (statistics_of m results)
   = RunCount (statistics_of m results))%Z.
Proof.
  unfold statistics_of, engine.model_statistics.
  pose proof (tally_counts (runs_of m results) engine.empty_tally) as H.
  simpl in H. by destruct (0 <? _)%Z.
Qed.

(** C8. Whatever order [range] and [sort.Slice] choose, the statistics
    list holds one record per model that has runs, computed from the runs
    of that model alone.  A run whose [Error] is not empty adds one to the
    [FailureCount] of its model and leaves its score, latency and
    per-indicator statistics as they are without it; a run never changes the
    record of another model; and in every record [SuccessCount +
    FailureCount = RunCount]. *)
Theorem failed_runs_isolated
    (range_order :
       list (string * list BenchResult) → list (string * list BenchResult))
    (sort_Slice :
       (ModelStatistics → ModelStatistics → bool) →
       list ModelStatistics → list ModelStatistics) :
  (∀ l, range_order l ≡ₚ l) →
  (∀ less l, sort_Slice less l ≡ₚ l) →
  (∀ results s,
     s ∈ engine.calculateStatistics range_order sort_Slice results ↔
     ∃ m, runs_of m results ≠ [] ∧ s = statistics_of m results) ∧
  (∀ pre r post,
     Error r ≠ "" →
     let s := statistics_of (Model r) (pre ++ r :: post) in
     let s0 := statistics_of (Model r) (pre ++ post) in
     FailureCount s = (FailureCount s0 + 1)%Z ∧
     SuccessCount s = SuccessCount s0 ∧
     AvgScore s = AvgScore s0 ∧ MinScore s = MinScore s0 ∧
     MaxScore s = MaxScore s0 ∧ StdDev s = StdDev s0 ∧
     AvgLatencyMs s = AvgLatencyMs s0 ∧ MinLatencyMs s = MinLatencyMs s0 ∧
     MaxLatencyMs s = MaxLatencyMs s0 ∧
     IndicatorAvgs s = IndicatorAvgs s0 ∧
     Consistency s = Consistency s0) ∧
  (∀ pre r post m,
     m ≠ Model r →
     statistics_of m (pre ++ r :: post) = statistics_of m (pre ++ post)) ∧
  (∀ results s,
     s ∈ engine.calculateStatistics range_order sort_Slice results →
     (SuccessCount s + FailureCount s = RunCount s)%Z).
Proof.
  intros Hrange Hsort. split; [|split; [|split]].
  - intros results s. by apply calculateStatistics_elem.
  - apply statistics_of_failed_run.
  - apply statistics_of_other_model.
  - intros results s (m & _ & ->)%calculateStatistics_elem; [|done..].
    apply statistics_of_counts.
Qed.

Lemma failed_runs_isolated_witness :
  let ok := sample_run "alpha" "" 80 in
  let ko := sample_run "alpha" "request failed: timeout" 0 in
  let other := sample_run "beta" "" 60 in
  FailureCount (statistics_of "alpha" ([ok] ++ ko :: [other]))
    = (FailureCount (statistics_of "alpha" ([ok] ++ [other])) + 1)%Z ∧
  AvgScore (statistics_of "alpha" ([ok] ++ ko :: [other]))
    = AvgScore (statistics_of "alpha" ([ok] ++ [other])) ∧
  statistics_of "beta" ([ok] ++ ko :: [other])
    = statistics_of "beta" ([ok] ++ [other]).
Proof.
  intros ok ko other.
  destruct (failed_runs_isolated (λ l, l) engine.insertion_sort
              (λ l, reflexivity l) (λ less l, insertion_sort_perm less l))
    as (_ & Hfail & Hother & _).
  split; [|split].
  - apply (Hfail [ok] ko [other]). done.
  - apply (Hfail [ok] ko [other]). done.
  - apply (Hother [ok] ko [other] "beta"). done.
Defined.

(** ** IEEE 754 facts about upper bounds

    Rounding to nearest never crosses a number of the format: a value
    below a canonical number [Bm * 2^Be] rounds to at most that number. *)

Lemma fexp_mono (x y : Z) :
  (x ≤ y)%Z → (fexp prec emax x ≤ fexp prec emax y)%Z.
Proof. unfold fexp, emin, prec, emax. lia. Qed.

Lemma log2_lt_mul_pow2 (m B k : Z) :
  (0 < m)%Z → (0 < B)%Z → (0 ≤ k)%Z → (m < B * 2 ^ k)%Z →
  (Z.log2 m ≤ Z.log2 B + k)%Z.
Proof.
  intros Hm HB Hk Hlt.
  rewrite Z.add_comm, <- Z.log2_mul_pow2 by lia.
  apply Z.log2_le_mono. lia.
Qed.

Lemma binary_round_aux_le (m : positive) (e : Z) (Bm : positive) (Be : Z) :
  (-1074 ≤ e ≤ Be)%Z → (Be ≤ 971)%Z →
  fexp prec emax (Z.log2 (Zpos Bm) + 1 + Be) = Be →
  (Zpos m < Zpos Bm * 2 ^ (Be - e))%Z →
  SFleb (binary_round_aux prec emax false (Zpos m) e loc_Exact)
        (S754_finite false Bm Be) = true.
Proof.
  intros He HBe Hcan Hlt. unfold binary_round_aux.
  destruct (shr_fexp_spec m e loc_Exact) as (r1 & -> & Hr1).
  set (n1 := Z.max 0 (fexp prec emax (Z.log2 (Zpos m) + 1 + e) - e)) in *.
  pose proof (Z.log2_nonneg (Zpos m)) as HL0.
  pose proof (log2_lt_mul_pow2 (Zpos m) (Zpos Bm) (Be - e)
                ltac:(lia) ltac:(lia) ltac:(lia) Hlt) as HL.
  pose proof (fexp_mono (Z.log2 (Zpos m) + 1 + e)
                (Z.log2 (Zpos Bm) + 1 + Be) ltac:(lia)) as Hf1.
  assert (0 ≤ n1 ≤ Z.log2 (Zpos m))%Z as Hn1.
  { unfold n1, fexp, emin, prec, emax. lia. }
  assert (e + n1 ≤ Be)%Z as He1 by (unfold n1; lia).
  assert (0 < shr_m r1)%Z as Hm1 by (rewrite Hr1; apply shiftr_pos; lia).
  assert (shr_m r1 < Zpos Bm * 2 ^ (Be - (e + n1)))%Z as Hb1.
  { rewrite Hr1, Z.shiftr_div_pow2 by lia.
    apply Z.div_lt_upper_bound; [by apply Z.pow_pos_nonneg; lia|].
    rewrite Z.mul_comm, <- Z.mul_assoc, <- Z.pow_add_r by lia.
    by replace (Be - (e + n1) + n1)%Z with (Be - e)%Z by lia. }
  pose proof (round_nearest_even_bounds (shr_m r1) (loc_of_shr_record r1)) as Hrne.
  destruct (round_nearest_even (shr_m r1) (loc_of_shr_record r1))
    as [|q|q] eqn:Erne; [lia| |lia].
  destruct (shr_fexp_spec q (e + n1) loc_Exact) as (r2 & -> & Hr2).
  set (n2 := Z.max 0 (fexp prec emax (Z.log2 (Zpos q) + 1 + (e + n1))
                        - (e + n1))) in *.
  pose proof (Z.log2_nonneg (Zpos q)) as HLq0.
  assert (Z.log2 (Zpos q) ≤ Z.log2 (Zpos Bm) + (Be - (e + n1)))%Z as HLq.
  { rewrite Z.add_comm, <- Z.log2_mul_pow2 by lia.
    apply Z.log2_le_mono. lia. }
  pose proof (fexp_mono (Z.log2 (Zpos q) + 1 + (e + n1))
                (Z.log2 (Zpos Bm) + 1 + Be) ltac:(lia)) as Hf2.
  assert (0 ≤ n2 ≤ Z.log2 (Zpos q))%Z as Hn2.
  { unfold n2, fexp, emin, prec, emax. lia. }
  assert (e + n1 + n2 ≤ Be)%Z as He2 by (unfold n2; lia).
  assert (0 < shr_m r2)%Z as Hm2 by (rewrite Hr2; apply shiftr_pos; lia).
  assert (shr_m r2 ≤ Zpos Bm * 2 ^ (Be - (e + n1 + n2)))%Z as Hb2.
  { rewrite Hr2, Z.shiftr_div_pow2 by lia.
    apply Z.div_le_upper_bound; [by apply Z.pow_pos_nonneg; lia|].
    rewrite Z.mul_comm, <- Z.mul_assoc, <- Z.pow_add_r by lia.
    replace (Be - (e + n1 + n2) + n2)%Z with (Be - (e + n1))%Z by lia. lia. }
  destruct (shr_m r2) as [|m'|m'] eqn:Em; [lia| |lia].
  destruct (Z.leb_spec (e + n1 + n2) (emax - prec));
    [|unfold emax, prec in *; lia].
  unfold SFleb. simpl.
  destruct (Z.compare_spec (e + n1 + n2) Be) as [Heq|?|?]; [|done|lia].
  rewrite Heq, Z.sub_diag, Z.pow_0_r, Z.mul_1_r in Hb2.
  change (Pos.compare_cont Eq m' Bm) with (Zpos m' ?= Zpos Bm)%Z.
  by destruct (Z.compare_spec (Zpos m') (Zpos Bm)); [..|lia].
Qed.

Lemma binary_round_le (p : positive) (e : Z) (Bm : positive) (Be : Z) :
  (-1074 ≤ e ≤ Be)%Z → (Be ≤ 971)%Z →
  fexp prec emax (Z.log2 (Zpos Bm) + 1 + Be) = Be →
  (Zpos p < Zpos Bm * 2 ^ (Be - e))%Z →
  SFleb (binary_round prec emax false p e) (S754_finite false Bm Be) = true.
Proof.
  intros He HBe Hcan Hlt. unfold binary_round.
  set (e0 := fexp prec emax (Zpos (digits2_pos p) + e)).
  assert (-1074 ≤ e0)%Z by (unfold e0, fexp, emin, prec, emax; lia).
  unfold shl_align.
  destruct (e0 - e)%Z as [|d|d] eqn:Ed;
    try (apply binary_round_aux_le; done).
  apply binary_round_aux_le; try done; [lia|].
  change (Pos.iter xO p d) with (shift_pos d p).
  rewrite shift_pos_correct. change (Z.pow_pos 2 d) with (2 ^ Zpos d)%Z.
  replace (Be - e0)%Z with ((Be - e) + Zpos d)%Z by lia.
  rewrite Z.pow_add_r by lia.
  assert (0 < 2 ^ Zpos d)%Z by (apply Z.pow_pos_nonneg; lia).
  nia.
Qed.

Lemma shl_align_exponent (p : positive) (e x : Z) :
  (-1074 ≤ e)%Z → (-1074 ≤ (shl_align p e (fexp prec emax x)).2)%Z.
Proof.
  intros He. unfold shl_align.
  destruct (fexp prec emax x - e)%Z; simpl; try done.
  unfold fexp, emin, prec, emax. lia.
Qed.

(** Subtracting a number that is not negative from 100 gives at most
    100. *)
Lemma sub_100_le (y : float) :
  SFpos0 (Prim2SF y) = true → (100 - y <=? 100)%float = true.
Proof.
  rewrite leb_spec, sub_spec.
  pose proof (Prim2SF_valid y) as Vy.
  change (Prim2SF 100) with (S754_finite false 7036874417766400 (-46)).
  destruct (Prim2SF y) as [[]|[]| |[] my ey]; try done.
  intros _. unfold SF64sub, SFsub.
  destruct (valid_binary_bounds _ _ _ Vy) as (Hey & _).
  set (ez := Z.min (-46) ey).
  simpl cond_Zopp.
  set (z := (Zpos (shl_align 7036874417766400 (-46) ez).1
             - Zpos (shl_align my ey ez).1)%Z).
  assert (z < 7036874417766400 * 2 ^ (-46 - ez))%Z as Hz.
  { unfold z. rewrite <- (shl_align_fst _ _ ez) by (unfold ez; lia). lia. }
  assert (-1074 ≤ ez ≤ -46)%Z as Hez by (unfold ez; lia).
  clearbody z ez.
  destruct z as [|p|p]; [done| |].
  - by apply binary_round_le.
  - unfold binary_normalize, binary_round.
    destruct (shl_align p ez _) as [mz ez'] eqn:Esh.
    assert (-1074 ≤ ez')%Z.
    { change ez' with (mz, ez').2. rewrite <- Esh.
      apply shl_align_exponent. lia. }
    destruct (binary_round_aux_pos true mz ez' loc_Exact)
      as (m' & e' & _ & ->); [done|].
    by destruct (e' <=? emax - prec)%Z.
Qed.

(** *** Consistency *)

Lemma shr_fexp_nonneg (mx e : Z) (l : location) :
  (0 ≤ mx)%Z → (0 ≤ shr_m (shr_fexp prec emax mx e l).1)%Z.
Proof.
  intros Hm. unfold shr_fexp, shr.
  destruct (_ - e)%Z as [|p|p]; simpl; rewrite ?shr_m_iter;
    rewrite ?shr_record_of_loc_m; try done.
  by apply Z.shiftr_nonneg.
Qed.

(** Rounding a mantissa that is not negative never gives NaN. *)
Lemma binary_round_aux_pos0 (mx e : Z) (l : location) :
  (0 ≤ mx)%Z → SFpos0 (binary_round_aux prec emax false mx e l) = true.
Proof.
  intros Hm. unfold binary_round_aux.
  pose proof (shr_fexp_nonneg mx e l Hm) as H1.
  destruct (shr_fexp prec emax mx e l) as [r1 e1]. simpl in H1.
  pose proof (round_nearest_even_bounds (shr_m r1) (loc_of_shr_record r1)) as Hr.
  pose proof (shr_fexp_nonneg (round_nearest_even (shr_m r1)
                (loc_of_shr_record r1)) e1 loc_Exact ltac:(lia)) as H2.
  destruct (shr_fexp prec emax _ e1 loc_Exact) as [r2 e2]. simpl in H2.
  destruct (shr_m r2); [done| |lia].
  by destruct (e2 <=? emax - prec)%Z.
Qed.

Lemma SFdiv_core_binary_nonneg (m1 m2 : positive) (e1 e2 : Z) :
  (0 ≤ (SFdiv_core_binary prec emax (Zpos m1) e1 (Zpos m2) e2).1.1)%Z.
Proof.
  unfold SFdiv_core_binary.
  set (s := (_ - _ - _)%Z).
  set (m' := match s with Z0 => _ | Zpos _ => _ | Zneg _ => _ end).
  assert (0 ≤ m')%Z as Hm'.
  { unfold m'. destruct s; try done. by apply Z.shiftl_nonneg. }
  pose proof (Z.div_pos m' (Zpos m2) Hm' ltac:(lia)) as Hq.
  unfold Z.div in Hq. by destruct (Z.div_eucl m' (Zpos m2)) as [q r].
Qed.

(** A number that is at most some bound and not below 0 is at least 0. *)
Lemma leb_zero_of_not_ltb (x b : float) :
  (x <=? b)%float = true → (x <? 0)%float = false → (0 <=? x)%float = true.
Proof.
  rewrite !leb_spec, ltb_spec, Prim2SF_zero. unfold SFleb, SFltb.
  rewrite (SFcompare_swap (Prim2SF x) (S754_zero false)).
  by destruct (Prim2SF x) as [[]|[]| |[] m e].
Qed.

(** [a <= b] excludes [b < a]. *)
Lemma leb_ltb_false (a b : float) :
  (a <=? b)%float = true → (b <? a)%float = false.
Proof.
  rewrite ltb_spec, leb_spec. unfold SFltb, SFleb.
  rewrite (SFcompare_swap (Prim2SF a) (Prim2SF b)).
  by destruct (SFcompare (Prim2SF a) (Prim2SF b)) as [[]|].
Qed.

(** Whatever the scores, the consistency is never a number below 0 or above
    100: the only other value it can take is NaN. *)
Lemma consistency_never_outside (sd avg : float) :
  nn sd →
  (engine.consistency sd avg <? 0)%float = false ∧
  (100 <? engine.consistency sd avg)%float = false.
Proof.
  intros Hnn. unfold engine.consistency.
  destruct (0 <? avg)%float eqn:Havg; [|done].
  assert ((100 <? 100 - sd / avg * 100)%float = false) as Hle.
  { assert (nn (sd / avg * 100)) as Hy.
    { apply nn_mul; [apply nn_div; [done|by apply nn_gain]|done]. }
    unfold nn in Hy.
    destruct (SFpos0 (Prim2SF (sd / avg * 100))) eqn:Hp.
    - by apply leb_ltb_false, sub_100_le.
    - rewrite ltb_spec, sub_spec.
      by destruct (Prim2SF (sd / avg * 100)) as [[]|[]| |[] m e]. }
  destruct (100 - sd / avg * 100 <? 0)%float eqn:Hneg; [done|].
  by rewrite Hneg, Hle.
Qed.

Lemma nn_mul_self (x : float) : nn (x * x).
Proof.
  unfold nn. rewrite mul_spec.
  destruct (Prim2SF x) as [[]|[]| |[] m e]; try done; apply binary_round_aux_nn.
Qed.

Lemma nn_sqrt (x : float) : nn x → nn (sqrt x).
Proof.
  unfold nn. rewrite sqrt_spec.
  destruct (Prim2SF x) as [[]|[]| |[] m e]; try done.
  intros _. unfold SF64sqrt, SFsqrt.
  destruct (SFsqrt_core_binary _ _ _ _) as [[q eq] lq].
  apply binary_round_aux_nn.
Qed.

Lemma nn_sum_squares (avg : float) (xs : list float) (s : float) :
  nn s →
  nn (fold_left (λ sumSquares v,
                   let diff := (v - avg)%float in
                   (sumSquares + diff * diff)%float) xs s).
Proof.
  revert s. induction xs as [|x xs IH]; intros s Hs; [done|].
  simpl. apply IH, nn_add; [done|apply nn_mul_self].
Qed.

Lemma nn_stdDev (xs : list float) : nn (engine.stdDev xs).
Proof.
  unfold engine.stdDev.
  destruct (Z.ltb_spec (len xs) 2); [done|].
  apply nn_sqrt, nn_div; [|apply nn_float64_of_int; lia].
  by apply nn_sum_squares.
Qed.

Lemma tally_success_count rs t :
  engine.successCount (fold_left engine.tally_step rs t)
  = (engine.successCount t + len (successful rs))%Z.
Proof.
  revert t. unfold successful, len.
  induction rs as [|r rs IH]; intros t; simpl; [lia|].
  rewrite IH, filter_cons. unfold engine.tally_step.
  destruct (decide (Error r ≠ "")), (decide (Error r = "")); try done.
  destruct (Scores r); simpl; lia.
Qed.

Lemma average_mean (xs : list float) :
  xs ≠ [] → engine.average xs = mean xs (len xs).
Proof.
  intros Hxs. unfold engine.average, mean, fsum.
  destruct (Z.eqb_spec (len xs) 0) as [H|]; [|done].
  destruct xs; [done|]. unfold len in H. simpl in H. lia.
Qed.

Lemma stdDev_sample (xs : list float) :
  engine.stdDev xs = sample_stddev xs.
Proof.
  unfold engine.stdDev, sample_stddev.
  destruct xs as [|x [|x' xs]]; [done..|].
  destruct (Z.ltb_spec (len (x :: x' :: xs)) 2) as [H|_].
  { unfold len in H. simpl in H. lia. }
  by rewrite average_mean.
Qed.

(** The score statistics of a model with at least one successful run. *)
Lemma statistics_of_scores (m : string) (results : list BenchResult) :
  let s := statistics_of m results in
  let xs := TotalScore <$> successful (runs_of m results) in
  SuccessCount s = len xs ∧
  ((1 ≤ SuccessCount s)%Z →
   AvgScore s = engine.average xs ∧ StdDev s = engine.stdDev xs ∧
   Consistency s = engine.consistency (StdDev s) (AvgScore s)).
Proof.
  unfold statistics_of, engine.model_statistics.
  pose proof (tally_scores (runs_of m results) engine.empty_tally) as Hsc.
  pose proof (tally_success_count (runs_of m results) engine.empty_tally) as Hn.
  simpl in Hsc, Hn. rewrite Hsc.
  assert (len (TotalScore <$> successful (runs_of m results))
          = len (successful (runs_of m results))) as Hlen.
  { unfold len. by rewrite length_fmap. }
  destruct (Z.ltb_spec 0 (len (TotalScore <$> successful (runs_of m results))));
    simpl; (split; [lia|]); [done|lia].
Qed.

(** ** Response parsing *)

Lemma field_of_key_key_of (f : llm.field) :
  llm.field_of_key (llm.key_of f) = Some f.
Proof. by destruct f. Qed.

Lemma get_set (f g : llm.field) (v : float) (r : IndicatorResult) :
  llm.get f (llm.set g v r) = if decide (f = g) then v else llm.get f r.
Proof. by destruct f, g. Qed.

(** Decoding an object whose members are numbers for indicator keys raises
    no error and touches only the fields of the keys it meets. *)
Lemma decode_members (json_parse : string → option llm.json)
    (ParseFloat : string → option float)
    (members : list (string * llm.json)) (r0 : IndicatorResult) :
  (∀ k v, (k, v) ∈ members →
     (∃ f, k = llm.key_of f) ∧
     ∃ literal x, v = llm.JNumber literal ∧ ParseFloat literal = Some x) →
  ∃ r, fold_left (llm.decode_member ParseFloat) members (r0, None) = (r, None) ∧
       ∀ f, llm.key_of f ∉ members.*1 → llm.get f r = llm.get f r0.
Proof.
  revert r0. induction members as [|[k v] members IH]; intros r0 Hm.
  { exists r0. done. }
  destruct (Hm k v) as ((f0 & ->) & literal & x & -> & Hx); [left|].
  simpl. rewrite field_of_key_key_of, Hx.
  destruct (IH (llm.set f0 x r0)) as (r & -> & Hr).
  { intros k v Hin. apply Hm. by right. }
  exists r. split; [done|].
  intros f Hf. apply not_elem_of_cons in Hf as [Hne Hf].
  rewrite Hr, get_set by done.
  destruct (decide (f = f0)) as [->|]; done.
Qed.

(** C9. A reply that is a JSON object whose members are numbers for
    indicator keys, any subset of the ten, is parsed without error, and
    every indicator the object does not mention is 0 in the result. *)
Theorem ParseIndicatorResponse_missing_fields
    (json_parse : string → option llm.json)
    (ParseFloat : string → option float)
    (response : string) (members : list (string * llm.json)) :
  json_parse response = Some (llm.JObject members) →
  (∀ k v, (k, v) ∈ members →
     (∃ f, k = llm.key_of f) ∧
     ∃ literal x, v = llm.JNumber literal ∧ ParseFloat literal = Some x) →
  ∃ r, llm.ParseIndicatorResponse json_parse ParseFloat response = Ok r ∧
       ∀ f, llm.key_of f ∉ members.*1 → llm.get f r = 0%float.
Proof.
  intros Hparse Hm.
  destruct (decode_members json_parse ParseFloat members zero_IndicatorResult Hm)
    as (r & Hr & Hzero).
  exists r. unfold llm.ParseIndicatorResponse, llm.Unmarshal.
  rewrite Hparse, Hr. split; [done|].
  intros f Hf. rewrite Hzero by done. by destruct f.
Qed.

Lemma ParseIndicatorResponse_missing_fields_witness :
  ∃ r, llm.ParseIndicatorResponse sample_json_parse sample_ParseFloat
         sample_response = Ok r ∧
       ∀ f, llm.key_of f ∉ [("ma20", llm.JNumber "101.5")].*1 →
            llm.get f r = 0%float.
Proof.
  apply (ParseIndicatorResponse_missing_fields sample_json_parse
           sample_ParseFloat sample_response [("ma20", llm.JNumber "101.5")]).
  - reflexivity.
  - intros k v Hin. apply list_elem_of_singleton in Hin. simplify_eq.
    split; [by exists llm.F_ma20|]. by exists "101.5", 101.5%float.
Defined.

(** ** The ground truth never panics *)

Lemma for_steps_total {St} (Inv : St → Prop) (body : Z → St → option St)
    (n : nat) (i : Z) (s : St) :
  Inv s →
  (∀ j s, (j < n)%nat → Inv s →
     ∃ s', body (i + Z.of_nat j)%Z s = Some s' ∧ Inv s') →
  ∃ s', for_steps n i body s = Some s' ∧ Inv s'.
Proof.
  revert i s. induction n as [|n IH]; intros i s Hs Hbody; [by exists s|].
  simpl. destruct (Hbody 0%nat s ltac:(lia) Hs) as (s1 & H1 & Hs1).
  rewrite Z.add_0_r in H1. rewrite H1. simpl.
  apply IH; [done|]. intros j s' Hj Hs'.
  replace (i + 1 + Z.of_nat j)%Z with (i + Z.of_nat (S j))%Z by lia.
  apply Hbody; [lia|done].
Qed.

Lemma index_is_Some {A} (l : list A) (i : Z) :
  (0 ≤ i < len l)%Z → ∃ x, index l i = Some x.
Proof.
  intros Hi. rewrite index_lookup by lia.
  apply lookup_lt_is_Some_2. unfold len in Hi. lia.
Qed.

Lemma window_sum_total (F : Kline → float) (klines : list Kline) (period : Z) :
  (0 ≤ period ≤ len klines)%Z →
  is_Some (for_range (len klines - period) (len klines)
             (add_field F klines) 0%float).
Proof.
  intros Hp.
  rewrite (for_range_fold F klines (λ s x, (s + x)%float));
    [done|lia|done|apply add_field_index].
Qed.

Lemma CalculateSMA_total (klines : list Kline) (period : Z) :
  (0 ≤ period)%Z → is_Some (CalculateSMA klines period).
Proof.
  intros Hp. unfold CalculateSMA.
  destruct (Z.ltb_spec (len klines) period); [done|].
  by destruct (window_sum_total Close klines period) as [s ->].
Qed.

Lemma CalculateVolumeMA_total (klines : list Kline) (period : Z) :
  (0 ≤ period)%Z → is_Some (CalculateVolumeMA klines period).
Proof.
  intros Hp. unfold CalculateVolumeMA.
  destruct (Z.ltb_spec (len klines) period); [done|].
  by destruct (window_sum_total Volume klines period) as [s ->].
Qed.

Lemma CalculateATR_total (klines : list Kline) (period : Z) :
  (0 ≤ period)%Z → is_Some (CalculateATR klines period).
Proof.
  intros Hp. unfold CalculateATR.
  destruct (Z.leb_spec (len klines) period); [done|].
  unfold for_range.
  edestruct (for_steps_total (λ trs : list float, len trs = len klines))
    as (trs & -> & Htrs).
  { unfold len. by rewrite length_replicate. }
  { intros j trs Hj Hlen.
    destruct (index_is_Some klines (1 + Z.of_nat j)) as [k ->]; [lia|].
    destruct (index_is_Some klines (1 + Z.of_nat j - 1)) as [k' ->]; [lia|].
    simpl. unfold store.
    destruct (Z.ltb_spec (1 + Z.of_nat j) 0); [lia|].
    destruct (Z.ltb_spec (1 + Z.of_nat j) (len trs)); [|lia].
    eexists. split; [done|]. unfold len in *. by rewrite length_insert. }
  simpl.
  edestruct (for_steps_total (λ _ : float, True)) as (sum & -> & _); [done| |].
  { intros j s Hj _.
    destruct (index_is_Some trs (1 + Z.of_nat j)) as [t ->]; [lia|].
    by eexists. }
  simpl.
  edestruct (for_steps_total (λ _ : float, True)) as (atr & -> & _); [done| |done].
  intros j s Hj _.
  destruct (index_is_Some trs (period + 1 + Z.of_nat j)) as [t ->]; [lia|].
  by eexists.
Qed.

Lemma CalculateEMA_total (klines : list Kline) (period : Z) :
  (0 ≤ period)%Z → is_Some (CalculateEMA klines period).
Proof.
  intros Hp. destruct (Z.ltb_spec (len klines) period) as [Hlt|Hge].
  - unfold CalculateEMA. by destruct (Z.ltb_spec (len klines) period); [|lia].
  - by rewrite CalculateEMA_fold.
Qed.

Lemma CalculateMACD_total (klines : list Kline) :
  is_Some (CalculateMACD klines).
Proof.
  unfold CalculateMACD. destruct (len klines <? 26)%Z; [done|].
  destruct (CalculateEMA_total klines 12) as [? ->]; [lia|].
  by destruct (CalculateEMA_total klines 26) as [? ->]; [lia|].
Qed.

Lemma CalculateRSI_total (klines : list Kline) (period : Z) :
  (1 ≤ period)%Z → is_Some (CalculateRSI klines period).
Proof.
  intros Hp. destruct (Z.leb_spec (len klines) period) as [Hle|Hgt].
  - unfold CalculateRSI. by destruct (Z.leb_spec (len klines) period); [|lia].
  - by rewrite CalculateRSI_fold.
Qed.

Lemma CalculateBOLL_total (klines : list Kline) (period : Z) (multiplier : float) :
  (0 ≤ period)%Z → is_Some (CalculateBOLL klines period multiplier).
Proof.
  intros Hp. destruct (Z.ltb_spec (len klines) period) as [Hlt|Hge].
  - unfold CalculateBOLL. by destruct (Z.ltb_spec (len klines) period); [|lia].
  - by rewrite CalculateBOLL_fold.
Qed.

Lemma CalculateIndicators_total (klines : list Kline) :
  is_Some (CalculateIndicators klines).
Proof.
  unfold CalculateIndicators.
  assert (is_Some (if (20 <=? len klines)%Z then CalculateSMA klines 20
                   else Some 0%float)) as [ma20 ->].
  { destruct (_ <=? _)%Z; [by apply CalculateSMA_total|done]. }
  assert (is_Some (if (12 <=? len klines)%Z then CalculateEMA klines 12
                   else Some 0%float)) as [ema12 ->].
  { destruct (_ <=? _)%Z; [by apply CalculateEMA_total|done]. }
  simpl.
  assert (is_Some (if (26 <=? len klines)%Z then
                     e ← CalculateEMA klines 26;
                     m ← CalculateMACD klines; Some (e, m)
                   else Some (0%float, 0%float))) as [[ema26 macd] ->].
  { destruct (_ <=? _)%Z; [|done].
    destruct (CalculateEMA_total klines 26) as [? ->]; [done|].
    by destruct (CalculateMACD_total klines) as [? ->]. }
  simpl.
  assert (is_Some (if (14 <? len klines)%Z then
                     r ← CalculateRSI klines 14;
                     a ← CalculateATR klines 14; Some (r, a)
                   else Some (0%float, 0%float))) as [[rsi atr] ->].
  { destruct (_ <? _)%Z; [|done].
    destruct (CalculateRSI_total klines 14) as [? ->]; [done|].
    by destruct (CalculateATR_total klines 14) as [? ->]. }
  simpl.
  assert (is_Some (if (20 <=? len klines)%Z then CalculateBOLL klines 20 2
                   else Some (0, 0, 0)%float)) as [[[up mid] low] ->].
  { destruct (_ <=? _)%Z; [by apply CalculateBOLL_total|done]. }
  simpl.
  assert (is_Some (if (5 <=? len klines)%Z then CalculateVolumeMA klines 5
                   else Some 0%float)) as [vol ->].
  { destruct (_ <=? _)%Z; [by apply CalculateVolumeMA_total|done]. }
  done.
Qed.

(** ** The run *)

Lemma capture_fold (w : World) (config : BenchConfig)
    (symbols : list string) (acc : list Snapshot) :
  fold_left
    (λ snapshots symbol,
       match snapshot.CaptureSnapshot w symbol (cfg_Interval config)
               (KlineCount config) with
       | Err _ => snapshots
       | Ok s => snapshots ++ [s]
       end) symbols acc
  = acc ++ omap (λ symbol,
                   match snapshot.CaptureSnapshot w symbol
                           (cfg_Interval config) (KlineCount config) with
                   | Ok s => Some s
                   | Err _ => None
                   end) symbols.
Proof.
  revert acc. induction symbols as [|symbol symbols IH]; intros acc; simpl.
  - by rewrite app_nil_r.
  - rewrite IH. destruct (snapshot.CaptureSnapshot _ _ _ _); [|done].
    by rewrite <- app_assoc.
Qed.

(** In realtime mode acquisition never fails: it keeps the snapshots it
    could capture. *)
Lemma acquire_realtime (w : World) (config : BenchConfig) :
  Mode config ≠ "static" →
  orchestrator.acquire w config = Ok (captured w config).
Proof.
  intros Hmode. unfold orchestrator.acquire, captured.
  destruct (decide _); [done|]. cbv zeta. by rewrite capture_fold.
Qed.

(** In static mode a directory that cannot be read, or that holds no valid
    snapshot, ends the run with an error. *)
Lemma Run_static_fatal (w : World) (config : BenchConfig) :
  Mode config = "static" →
  (∀ snapshots,
     snapshot.LoadSnapshots w (DatasetDir config) = Ok snapshots →
     snapshots = []) →
  ∃ e, orchestrator.Run w config = Some (Err e).
Proof.
  intros Hmode Hnone. unfold orchestrator.Run, orchestrator.acquire.
  destruct (decide _); [|done].
  destruct (snapshot.LoadSnapshots w (DatasetDir config)) as [snapshots|msg].
  - rewrite (Hnone snapshots eq_refl). simpl. eauto.
  - eauto.
Qed.

Lemma benchmark_total (w : World) (config : BenchConfig)
    (snapshots : list Snapshot) (acc : list BenchResult) :
  (snapshots = [] → acc = [] →
   for_each (orchestrator.benchmark_snapshot w config) snapshots acc = Some []) ∧
  is_Some (for_each (orchestrator.benchmark_snapshot w config) snapshots acc).
Proof.
  split; [by intros -> ->|].
  revert acc. induction snapshots as [|s snapshots IH]; intros acc; [done|].
  cbn [for_each].
  assert (is_Some (orchestrator.benchmark_snapshot w config acc s)) as [acc' ->].
  { unfold orchestrator.benchmark_snapshot.
    by destruct (CalculateIndicators_total (Klines s)) as [expected ->]. }
  apply IH.
Qed.

(** C7. In realtime mode [Run] never returns an error: it returns a report
    over the snapshots it could capture, a symbol whose capture failed
    being skipped; when no capture succeeds the report has no snapshot and
    no result, where the static mode returns an error. *)
Theorem Run_realtime_never_fatal (w : World) (config : BenchConfig) :
  Mode config ≠ "static" →
  ∃ report, orchestrator.Run w config = Some (Ok report) ∧
            Snapshots report = captured w config ∧
            (captured w config = [] → Results report = []).
Proof.
  intros Hmode. unfold orchestrator.Run.
  rewrite acquire_realtime by done.
  destruct (benchmark_total w config (captured w config) []) as [Hnil [results Hr]].
  rewrite Hr. simpl. eexists. split; [done|]. split; [done|].
  intros Hc. simpl. specialize (Hnil Hc eq_refl). congruence.
Qed.

Lemma Run_realtime_never_fatal_witness :
  ∃ report, orchestrator.Run offline realtime_config = Some (Ok report) ∧
            Snapshots report = [] ∧ Results report = [].
Proof.
  destruct (Run_realtime_never_fatal offline realtime_config)
    as (report & Hrun & Hs & Hr); [done|].
  exists report. split; [done|]. split; [done|]. by apply Hr.
Defined.

(** The same world in static mode: no snapshot on disk, and the run ends
    with an error. *)
Lemma Run_static_offline :
  orchestrator.Run offline static_config
  = Some (Err "no snapshots found in datasets/snapshots").
Proof. reflexivity. Qed.

(** * Further properties of the code *)

(** ** The other indicators *)

(** A loop whose invariant depends on the number of iterations done. *)
Lemma for_steps_counted {St} (P : nat → St → Prop)
    (body : Z → St → option St) (n : nat) (i : Z) (s : St) :
  P 0%nat s →
  (∀ j s, (j < n)%nat → P j s →
     ∃ s', body (i + Z.of_nat j)%Z s = Some s' ∧ P (S j) s') →
  ∃ s', for_steps n i body s = Some s' ∧ P n s'.
Proof.
  revert P i s. induction n as [|n IH]; intros P i s H0 Hstep; simpl.
  - by exists s.
  - destruct (Hstep 0%nat s) as (s1 & Hb & H1); [lia|done|].
    rewrite Z.add_0_r in Hb. rewrite Hb. simpl.
    apply (IH (λ j, P (S j))); [done|].
    intros j s2 Hj Hs2.
    destruct (Hstep (S j) s2) as (s3 & Hb3 & H3); [lia|done|].
    exists s3. split; [|done].
    rewrite <- Hb3. f_equal. lia.
Qed.

Lemma length_true_ranges (klines : list Kline) :
  length (true_ranges klines) = (length klines - 1)%nat.
Proof.
  unfold true_ranges. rewrite length_zip_with.
  destruct klines as [|k klines]; [done|].
  rewrite length_cons. simpl tail. lia.
Qed.

Lemma true_ranges_lookup (klines : list Kline) (j : nat) (prev cur : Kline) :
  klines !! j = Some prev → klines !! S j = Some cur →
  true_ranges klines !! j = Some (true_range prev cur).
Proof.
  intros Hp Hc. unfold true_ranges.
  rewrite lookup_zip_with, Hp. simpl.
  by rewrite lookup_tail, Hc.
Qed.

(** The first loop of [CalculateATR] fills [trs] with a 0 followed by the
    true ranges. *)
Lemma CalculateATR_trs (klines : list Kline) :
  klines ≠ [] →
  for_range 1 (len klines)
    (λ i trs,
       k ← index klines i;
       k' ← index klines (i - 1);
       let high := High k in
       let low := Low k in
       let prevClose := Close k' in
       let tr1 := (high - low)%float in
       let tr2 := math.Abs (high - prevClose) in
       let tr3 := math.Abs (low - prevClose) in
       store trs i (math.Max tr1 (math.Max tr2 tr3)))
    (replicate (length klines) 0%float)
  = Some (0%float :: true_ranges klines).
Proof.
  intros Hne. unfold for_range.
  set (N := length klines).
  assert (0 < N)%nat as HN.
  { subst N. destruct klines; [done|simpl; lia]. }
  edestruct (for_steps_counted
    (λ j trs, trs = 0%float :: take j (true_ranges klines)
                      ++ replicate (N - 1 - j) 0%float))
    as (trs & -> & Htrs).
  { simpl. replace N with (S (N - 1)) at 1 by lia. simpl. f_equal. f_equal. lia. }
  { intros j trs Hj ->.
    assert (j < N - 1)%nat as Hj'.
    { revert Hj. unfold len. fold N. lia. }
    destruct (lookup_lt_is_Some_2 klines j) as [prev Hprev]; [fold N; lia|].
    destruct (lookup_lt_is_Some_2 klines (S j)) as [cur Hcur]; [fold N; lia|].
    rewrite !index_lookup by lia.
    replace (Z.to_nat (1 + Z.of_nat j - 1)) with j by lia.
    replace (Z.to_nat (1 + Z.of_nat j)) with (S j) by lia.
    rewrite Hcur. simpl. rewrite Hprev. simpl.
    unfold store.
    destruct (Z.ltb_spec (1 + Z.of_nat j) 0); [lia|].
    pose proof (length_true_ranges klines) as Hlen. fold N in Hlen.
    destruct (Z.ltb_spec (1 + Z.of_nat j)
                (len (0%float :: take j (true_ranges klines)
                        ++ replicate (N - 1 - j) 0%float))) as [_|Hge].
    2:{ revert Hge. unfold len. simpl.
        rewrite length_app, length_take, length_replicate. lia. }
    eexists. split; [done|].
    replace (Z.to_nat (1 + Z.of_nat j)) with (S j) by lia.
    simpl. f_equal.
    rewrite insert_app_r_alt by (rewrite length_take; lia).
    rewrite length_take, Hlen.
    replace (j - j `min` (N - 1))%nat with 0%nat by lia.
    replace (N - 1 - j)%nat with (S (N - 1 - S j)) by lia.
    simpl.
    rewrite (take_S_r _ _ (true_range prev cur))
      by by apply true_ranges_lookup.
    by rewrite <- app_assoc. }
  f_equal. rewrite Htrs.
  pose proof (length_true_ranges klines) as Hlen. fold N in Hlen.
  replace (Z.to_nat (len klines - 1)) with (N - 1)%nat
    by (unfold len; fold N; lia).
  rewrite take_ge by lia.
  replace (N - 1 - (N - 1))%nat with 0%nat by lia.
  simpl. by rewrite app_nil_r.
Qed.

Lemma CalculateATR_fold (klines : list Kline) (period : Z) :
  (0 ≤ period)%Z → (period < len klines)%Z →
  CalculateATR klines period = Some (ATR_wilder klines period).
Proof.
  intros H0 Hlen. unfold CalculateATR, ATR_wilder.
  destruct (Z.leb_spec (len klines) period); [lia|].
  rewrite CalculateATR_trs by (intros ->; unfold len in *; simpl in *; lia).
  simpl.
  pose proof (length_true_ranges klines) as Htr.
  rewrite (for_range_fold id (0%float :: true_ranges klines)
             (λ s x, (s + x)%float)).
  2:{ lia. }
  2:{ unfold len in *. simpl. rewrite Htr. lia. }
  2:{ intros i t s ->. done. }
  simpl. rewrite list_fmap_id.
  replace (Z.to_nat (period + 1 - 1)) with (Z.to_nat period) by lia.
  change (drop (Z.to_nat 1) (0%float :: true_ranges klines))
    with (true_ranges klines).
  rewrite (for_range_fold id (0%float :: true_ranges klines)
             (wilder period)).
  2:{ lia. }
  2:{ unfold len in *. simpl. rewrite Htr. lia. }
  2:{ intros i t s ->. done. }
  rewrite list_fmap_id.
  replace (Z.to_nat (period + 1)) with (S (Z.to_nat period)) by lia.
  simpl. unfold mean, fsum. do 2 f_equal.
  apply take_ge. rewrite length_drop, Htr. unfold len in *. lia.
Qed.
(** The sum over the trailing window. *)
Lemma window_sum_fold (F : Kline → float) (klines : list Kline) (period : Z) :
  (0 ≤ period)%Z → (period ≤ len klines)%Z →
  for_range (len klines - period) (len klines) (add_field F klines) 0%float
  = Some (fsum (last_n (Z.to_nat period) (F <$> klines))).
Proof.
  intros H0 Hlen. unfold fsum, last_n.
  rewrite (for_range_fold F klines (λ s x, (s + x)%float));
    [|unfold len in *; lia|done|apply add_field_index].
  do 2 f_equal. rewrite length_fmap. unfold len in *.
  replace (Z.to_nat (Z.of_nat (length klines) - period))
    with (length klines - Z.to_nat period)%nat by lia.
  apply take_ge. rewrite length_drop, length_fmap. lia.
Qed.

(** A number that is NaN or carries no sign is not below zero. *)
Lemma nn_not_neg (x : float) : nn x → (x <? 0)%float = false.
Proof.
  unfold nn. rewrite ltb_spec, Prim2SF_zero.
  by destruct (Prim2SF x) as [[]|[]| |[] m e].
Qed.

Lemma nn_Max (x y : float) : nn y → nn (math.Max x y).
Proof.
  intros Hy. unfold math.Max.
  destruct ((x =? infinity) || (y =? infinity))%float; [done|].
  destruct (math.IsNaN x || math.IsNaN y); [done|].
  destruct ((x =? 0) && (x =? y))%float.
  { destruct (math.Signbit x) eqn:Hs; [done|].
    revert Hs. unfold nn, math.Signbit.
    by destruct (Prim2SF x) as [[]|[]| |[] m e]. }
  destruct (y <? x)%float eqn:Hlt; [|done].
  revert Hy Hlt. unfold nn. rewrite ltb_spec.
  by destruct (Prim2SF y) as [[]|[]| |[] my ey],
              (Prim2SF x) as [[]|[]| |[] mx ex].
Qed.

Lemma nn_true_range (prev cur : Kline) : nn (true_range prev cur).
Proof. unfold true_range. apply nn_Max, nn_Max, nn_abs. Qed.

Lemma nn_fsum (xs : list float) (s : float) :
  nn s → Forall nn xs → nn (fold_left (λ s x, (s + x)%float) xs s).
Proof.
  intros Hs Hxs. revert s Hs.
  induction Hxs as [|x xs Hx _ IH]; intros s Hs; [done|].
  simpl. by apply IH, nn_add.
Qed.

Lemma nn_fold_wilder (period : Z) (xs : list float) (a : float) :
  (1 ≤ period)%Z → nn a → Forall nn xs → nn (fold_left (wilder period) xs a).
Proof.
  intros Hp Ha Hxs. revert a Ha.
  induction Hxs as [|x xs Hx _ IH]; intros a Ha; [done|].
  simpl. by apply IH, nn_wilder.
Qed.

Lemma Forall_nn_true_ranges (klines : list Kline) :
  Forall nn (true_ranges klines).
Proof.
  apply Forall_forall. intros t Ht. unfold true_ranges in Ht.
  apply list_elem_of_lookup in Ht as [j Hj].
  apply lookup_zip_with_Some in Hj as (p & c & -> & _ & _).
  apply nn_true_range.
Qed.

Lemma CalculateSMA_fold (klines : list Kline) (period : Z) :
  (0 ≤ period)%Z → (period ≤ len klines)%Z →
  CalculateSMA klines period
    = Some (mean (last_n (Z.to_nat period) (Close <$> klines)) period).
Proof.
  intros H0 Hlen. unfold CalculateSMA, mean.
  destruct (Z.ltb_spec (len klines) period) as [|_]; [lia|].
  by rewrite window_sum_fold.
Qed.

Lemma CalculateVolumeMA_fold (klines : list Kline) (period : Z) :
  (0 ≤ period)%Z → (period ≤ len klines)%Z →
  CalculateVolumeMA klines period
    = Some (mean (last_n (Z.to_nat period) (Volume <$> klines)) period).
Proof.
  intros H0 Hlen. unfold CalculateVolumeMA, mean.
  destruct (Z.ltb_spec (len klines) period) as [|_]; [lia|].
  by rewrite window_sum_fold.
Qed.

(** X1. [CalculateSMA] and [CalculateVolumeMA] are the mean of the closes,
    respectively the volumes, of the last [period] candles: the newest
    window, where [CalculateEMA] seeds on the oldest one. *)
Theorem moving_averages_trailing_window (klines : list Kline) (period : Z) :
  (0 ≤ period)%Z → (period ≤ len klines)%Z →
  CalculateSMA klines period
    = Some (mean (last_n (Z.to_nat period) (Close <$> klines)) period) ∧
  CalculateVolumeMA klines period
    = Some (mean (last_n (Z.to_nat period) (Volume <$> klines)) period).
Proof.
  intros H0 Hlen.
  by rewrite CalculateSMA_fold, CalculateVolumeMA_fold.
Qed.

Lemma moving_averages_trailing_window_witness :
  CalculateSMA (candle <$> [1; 2; 4]%float) 2 = Some 3%float ∧
  CalculateVolumeMA (candle <$> [1; 2; 4]%float) 2 = Some 1%float.
Proof.
  pose proof (moving_averages_trailing_window
                (candle <$> [1; 2; 4]%float) 2%Z) as H.
  apply H; [lia|unfold len; simpl; lia].
Defined.

Lemma BOLL_middle_SMA (klines : list Kline) (period : Z) (multiplier : float) :
  (0 ≤ period)%Z →
  ∃ upper middle lower : float,
    CalculateBOLL klines period multiplier = Some (upper, middle, lower) ∧
    CalculateSMA klines period = Some middle.
Proof.
  intros H0. unfold CalculateBOLL, CalculateSMA.
  destruct (Z.ltb_spec (len klines) period) as [|Hge]; [by eexists _, _, _|].
  rewrite window_sum_fold by done. simpl.
  unfold for_range.
  edestruct (for_steps_total (λ _ : float, True)) as (v & -> & _);
    [done| |by eexists _, _, _].
  intros j s Hj _.
  destruct (index_is_Some klines (len klines - period + Z.of_nat j))
    as [k ->]; [lia|]. by eexists.
Qed.

(** X2. For a period that is not negative, where [len(klines) - period]
    stays an [int], and whatever the series and the multiplier, the middle
    band of [CalculateBOLL] is the value [CalculateSMA] returns for the same
    period, and neither call panics. *)
Theorem CalculateBOLL_middle_is_SMA
    (klines : list Kline) (period : Z) (multiplier : float) :
  (0 ≤ period)%Z →
  ∃ upper middle lower : float,
    CalculateBOLL klines period multiplier = Some (upper, middle, lower) ∧
    CalculateSMA klines period = Some middle.
Proof. apply BOLL_middle_SMA. Qed.

Lemma CalculateBOLL_middle_is_SMA_witness :
  ∃ upper middle lower : float,
    CalculateBOLL (candle <$> [1; 2; 4]%float) 2 2
      = Some (upper, middle, lower) ∧
    CalculateSMA (candle <$> [1; 2; 4]%float) 2 = Some middle.
Proof. apply CalculateBOLL_middle_is_SMA. lia. Defined.

(** X3. [CalculateATR] is Wilder's smoothing of the true ranges: seeded with
    the mean of the true ranges of the candles [1..period], then one step
    [atr := (atr * (period - 1) + tr) / period] per later candle. *)
Theorem CalculateATR_wilder (klines : list Kline) (period : Z) :
  (0 ≤ period)%Z → (period < len klines)%Z →
  CalculateATR klines period = Some (ATR_wilder klines period).
Proof. apply CalculateATR_fold. Qed.

Lemma CalculateATR_wilder_witness :
  CalculateATR (candle <$> [1; 2; 4; 7]%float) 2
  = Some (ATR_wilder (candle <$> [1; 2; 4; 7]%float) 2).
Proof.
  apply (CalculateATR_wilder (candle <$> [1; 2; 4; 7]%float) 2%Z).
  - lia.
  - unfold len. simpl. lia.
Defined.

(** X4. For a period of at least 1, [CalculateATR] returns a value and that
    value is never below zero, whatever the candles hold: a high under the
    low, infinities or NaN included. *)
Theorem CalculateATR_never_negative (klines : list Kline) (period : Z) :
  (1 ≤ period)%Z →
  ∃ atr, CalculateATR klines period = Some atr ∧ (atr <? 0)%float = false.
Proof.
  intros Hp. destruct (Z.le_gt_cases (len klines) period) as [Hle|Hgt].
  - exists 0%float. split; [|done]. unfold CalculateATR.
    by destruct (Z.leb_spec (len klines) period); [|lia].
  - exists (ATR_wilder klines period).
    split; [apply CalculateATR_fold; lia|].
    apply nn_not_neg. unfold ATR_wilder.
    pose proof (Forall_nn_true_ranges klines) as Htr.
    apply nn_fold_wilder; [done| |by apply Forall_drop].
    unfold mean, fsum. apply nn_div; [|apply nn_float64_of_int; lia].
    apply nn_fsum; [done|by apply Forall_take].
Qed.

Lemma CalculateATR_never_negative_witness :
  ∃ atr, CalculateATR (candle <$> [7; 4; 2; 1]%float) 2 = Some atr ∧
         (atr <? 0)%float = false.
Proof.
  apply (CalculateATR_never_negative (candle <$> [7; 4; 2; 1]%float) 2%Z).
  lia.
Defined.
(** ** The ground truth *)

(** X5. From 26 candles on, every field of the ground truth is given by its
    reference formula: trailing means for MA20 and VolumeMA, the seeded
    folds for the two EMAs and their difference for MACD, Wilder's method
    for RSI14 and ATR14, and the 20-candle mean with two population
    deviations on either side for the bands. *)
Theorem CalculateIndicators_ground_truth (klines : list Kline) :
  (26 ≤ len klines)%Z →
  let closes := Close <$> klines in
  let window := last_n 20 closes in
  let middle := mean window 20 in
  let stddev := population_stddev window middle 20 in
  CalculateIndicators klines =
    Some {| MA20 := middle;
            EMA12 := EMA_spec closes 12;
            EMA26 := EMA_spec closes 26;
            MACD := (EMA_spec closes 12 - EMA_spec closes 26)%float;
            RSI14 := RSI_spec closes 14;
            BOLLUp := (middle + 2 * stddev)%float;
            BOLLMid := middle;
            BOLLLow := (middle - 2 * stddev)%float;
            ATR14 := ATR_wilder klines 14;
            VolumeMA := mean (last_n 5 (Volume <$> klines)) 5 |}.
Proof.
  intros Hlen. unfold CalculateIndicators, CalculateMACD.
  destruct (Z.leb_spec 20 (len klines)); [|lia].
  destruct (Z.leb_spec 12 (len klines)); [|lia].
  destruct (Z.leb_spec 26 (len klines)); [|lia].
  destruct (Z.leb_spec 5 (len klines)); [|lia].
  destruct (Z.ltb_spec 14 (len klines)); [|lia].
  destruct (Z.ltb_spec (len klines) 26); [lia|].
  rewrite CalculateSMA_fold, CalculateVolumeMA_fold by lia.
  rewrite !CalculateEMA_fold by lia.
  rewrite CalculateRSI_fold, CalculateATR_fold by lia.
  rewrite CalculateBOLL_fold by lia.
  done.
Qed.

Lemma CalculateIndicators_ground_truth_witness :
  CalculateIndicators (replicate 26 (candle 100)) =
    Some {| MA20 := 100; EMA12 := 100; EMA26 := 100; MACD := 0; RSI14 := 100;
            BOLLUp := 100; BOLLMid := 100; BOLLLow := 100; ATR14 := 0;
            VolumeMA := 1 |}.
Proof.
  apply (CalculateIndicators_ground_truth (replicate 26 (candle 100))).
  unfold len. simpl. lia.
Defined.

(** X6. [CalculateIndicators] never panics, whatever the length of the
    series, and leaves at 0 every indicator the series is too short for:
    all ten below 5 candles, EMA12 below 12, RSI14 and ATR14 up to 14, MA20
    and the three bands below 20, EMA26 and MACD below 26.  The middle band
    always equals MA20. *)
Theorem CalculateIndicators_short_series (klines : list Kline) :
  ∃ r, CalculateIndicators klines = Some r ∧
    ((len klines < 5)%Z → r = zero_IndicatorResult) ∧
    ((len klines < 12)%Z → EMA12 r = 0%float) ∧
    ((len klines ≤ 14)%Z → RSI14 r = 0%float ∧ ATR14 r = 0%float) ∧
    ((len klines < 20)%Z →
       MA20 r = 0%float ∧ BOLLUp r = 0%float ∧ BOLLMid r = 0%float ∧
       BOLLLow r = 0%float) ∧
    ((len klines < 26)%Z → EMA26 r = 0%float ∧ MACD r = 0%float) ∧
    BOLLMid r = MA20 r.
Proof.
  unfold CalculateIndicators.
  destruct (BOLL_middle_SMA klines 20 2 ltac:(lia)) as (up & mid & low & Hboll & Hsma).
  assert (∃ ema12, (if (12 <=? len klines)%Z then CalculateEMA klines 12
                    else Some 0%float) = Some ema12 ∧
                   ((len klines < 12)%Z → ema12 = 0%float))
    as (ema12 & -> & H12).
  { destruct (Z.leb_spec 12 (len klines)).
    - destruct (CalculateEMA_total klines 12) as [e ->]; [lia|].
      exists e. split; [done|lia].
    - by exists 0%float. }
  assert (∃ p, (if (26 <=? len klines)%Z then
                  e ← CalculateEMA klines 26;
                  m ← CalculateMACD klines; Some (e, m)
                else Some (0%float, 0%float)) = Some p ∧
               ((len klines < 26)%Z → p = (0%float, 0%float)))
    as ([ema26 macd] & -> & H26).
  { destruct (Z.leb_spec 26 (len klines)).
    - destruct (CalculateEMA_total klines 26) as [e ->]; [lia|].
      destruct (CalculateMACD_total klines) as [m ->].
      exists (e, m). split; [done|lia].
    - by eexists. }
  assert (∃ p, (if (14 <? len klines)%Z then
                  r ← CalculateRSI klines 14;
                  a ← CalculateATR klines 14; Some (r, a)
                else Some (0%float, 0%float)) = Some p ∧
               ((len klines ≤ 14)%Z → p = (0%float, 0%float)))
    as ([rsi atr] & -> & H14).
  { destruct (Z.ltb_spec 14 (len klines)).
    - destruct (CalculateRSI_total klines 14) as [e ->]; [lia|].
      destruct (CalculateATR_total klines 14) as [m ->]; [lia|].
      exists (e, m). split; [done|lia].
    - by eexists. }
  assert (∃ vol, (if (5 <=? len klines)%Z then CalculateVolumeMA klines 5
                  else Some 0%float) = Some vol ∧
                 ((len klines < 5)%Z → vol = 0%float))
    as (vol & -> & H5).
  { destruct (Z.leb_spec 5 (len klines)).
    - destruct (CalculateVolumeMA_total klines 5) as [e ->]; [lia|].
      exists e. split; [done|lia].
    - by exists 0%float. }
  assert ((len klines < 26)%Z → ema26 = 0%float ∧ macd = 0%float) as H26'.
  { intros Hx. by injection (H26 Hx). }
  assert ((len klines ≤ 14)%Z → rsi = 0%float ∧ atr = 0%float) as H14'.
  { intros Hx. by injection (H14 Hx). }
  clear H26 H14.
  destruct (Z.leb_spec 20 (len klines)) as [H20|H20].
  - rewrite Hsma, Hboll. simpl. eexists. split; [done|]. simpl.
    split_and!; try done; intros; lia.
  - simpl. eexists. split; [done|]. simpl.
    split_and!; try done.
    intros Hx. rewrite H12, H5 by lia.
    destruct H26' as [-> ->]; [lia|].
    by destruct H14' as [-> ->]; [lia|].
Qed.
(** ** Scoring, continued *)

Lemma float_in_spec (x : float) (l : list float) :
  float_in x l = true ↔ x ∈ l.
Proof.
  unfold float_in. rewrite existsb_exists. split.
  - intros (y & Hy & Heq). apply FloatAxioms.Leibniz.eqb_spec in Heq as ->.
    by apply list_elem_of_In.
  - intros Hx. exists x. split; [by apply list_elem_of_In|].
    by apply FloatAxioms.Leibniz.eqb_spec.
Qed.

Lemma ScoreFromError_values (e : float) : ScoreFromError e ∈ tiers.
Proof.
  unfold ScoreFromError, tiers.
  destruct (_ <=? 0.1)%float; [set_solver|].
  destruct (_ <=? 1)%float; [set_solver|].
  destruct (_ <=? 5)%float; [set_solver|].
  destruct (_ <=? 10)%float; set_solver.
Qed.

Lemma tier_sum_step (k : nat) (a b : float) :
  (k ≤ 9)%nat → a ∈ multiples 20 (5 * k) → b ∈ tiers →
  (a + b)%float ∈ multiples 20 (5 * S k).
Proof.
  intros Hk Ha Hb. apply float_in_spec.
  assert (forallb tier_sums_closed (seq 0 10) = true) as Hall
    by (vm_compute; reflexivity).
  rewrite forallb_forall in Hall.
  specialize (Hall k). unfold tier_sums_closed in Hall.
  rewrite forallb_forall in Hall.
  specialize (Hall ltac:(apply in_seq; lia) a ltac:(by apply list_elem_of_In)).
  rewrite forallb_forall in Hall.
  apply Hall. by apply list_elem_of_In.
Qed.

Lemma tiers_multiples (a : float) : a ∈ tiers → a ∈ multiples 20 5.
Proof.
  intros Ha. apply float_in_spec. apply list_elem_of_In in Ha.
  revert a Ha. apply forallb_forall. vm_compute. reflexivity.
Qed.

(** The total of ten tier values is an even number between 0 and 100. *)
Lemma total_of_tiers (scores : IndicatorScores) :
  (∀ f, llm.get f scores ∈ tiers) →
  CalculateTotalScore scores ∈ multiples 2 50.
Proof.
  intros Hf. unfold CalculateTotalScore.
  pose proof (Hf llm.F_ma20) as H1. pose proof (Hf llm.F_ema12) as H2.
  pose proof (Hf llm.F_ema26) as H3. pose proof (Hf llm.F_macd) as H4.
  pose proof (Hf llm.F_rsi14) as H5. pose proof (Hf llm.F_boll_upper) as H6.
  pose proof (Hf llm.F_boll_middle) as H7.
  pose proof (Hf llm.F_boll_lower) as H8.
  pose proof (Hf llm.F_atr14) as H9. pose proof (Hf llm.F_volume_ma5) as H10.
  simpl in *.
  apply tiers_multiples in H1.
  pose proof (tier_sum_step 1 _ _ ltac:(lia) H1 H2) as S2.
  pose proof (tier_sum_step 2 _ _ ltac:(lia) S2 H3) as S3.
  pose proof (tier_sum_step 3 _ _ ltac:(lia) S3 H4) as S4.
  pose proof (tier_sum_step 4 _ _ ltac:(lia) S4 H5) as S5.
  pose proof (tier_sum_step 5 _ _ ltac:(lia) S5 H6) as S6.
  pose proof (tier_sum_step 6 _ _ ltac:(lia) S6 H7) as S7.
  pose proof (tier_sum_step 7 _ _ ltac:(lia) S7 H8) as S8.
  pose proof (tier_sum_step 8 _ _ ltac:(lia) S8 H9) as S9.
  pose proof (tier_sum_step 9 _ _ ltac:(lia) S9 H10) as S10.
  apply float_in_spec. apply list_elem_of_In in S10.
  revert S10. generalize (MA20 scores + EMA12 scores + EMA26 scores
    + MACD scores + RSI14 scores + BOLLUp scores + BOLLMid scores
    + BOLLLow scores + ATR14 scores + VolumeMA scores)%float.
  apply forallb_forall. vm_compute. reflexivity.
Qed.

Lemma multiples_2_range (t : float) :
  t ∈ multiples 2 50 → (0 <=? t)%float = true ∧ (t <=? 100)%float = true.
Proof.
  intros Ht. apply list_elem_of_In in Ht. revert t Ht.
  assert (forallb (λ t, (0 <=? t)%float && (t <=? 100)%float) (multiples 2 50)
          = true) as Hall by (vm_compute; reflexivity).
  rewrite forallb_forall in Hall.
  intros t Ht. by apply andb_true_iff, Hall.
Qed.
Lemma sub_diag_finite (x : float) :
  is_finite x = true → (x - x)%float = 0%float.
Proof.
  intros Hx. apply Prim2SF_inj. rewrite sub_spec, Prim2SF_zero.
  destruct (is_finite_SF x Hx) as [[s ->]|(s & m & e & ->)].
  - by destruct s.
  - unfold SF64sub, SFsub. by rewrite Z.sub_diag.
Qed.

(** An answer equal to a finite expected value has error 0. *)
Lemma CalculateError_same (e : float) :
  is_finite e = true → CalculateError e e = 0%float.
Proof.
  intros He. unfold CalculateError, math.Abs.
  destruct (e =? 0)%float eqn:Hz; [done|].
  rewrite sub_diag_finite by done.
  assert (∃ m ex, Prim2SF (abs e) = S754_finite false m ex) as (m & ex & Habs).
  { rewrite abs_spec. revert Hz. rewrite FloatAxioms.eqb_spec, Prim2SF_zero.
    destruct (is_finite_SF e He) as [[s ->]|(s & m & ex & ->)].
    - by destruct s.
    - intros _. by exists m, ex. }
  change (abs 0) with 0%float.
  by rewrite (zero_div_pos _ m ex).
Qed.

Lemma ScoreIndicators_errors (expected actual : IndicatorResult)
    (f : llm.field) :
  (ScoreIndicators expected actual).2 !! llm.key_of f
  = Some (CalculateError (llm.get f expected) (llm.get f actual)).
Proof.
  unfold ScoreIndicators. cbn [snd].
  destruct f; cbn [llm.key_of llm.get];
    repeat (rewrite lookup_insert_ne by done); by rewrite lookup_insert_eq.
Qed.

Lemma ScoreIndicators_scores (expected actual : IndicatorResult)
    (f : llm.field) :
  llm.get f (ScoreIndicators expected actual).1
  = ScoreFromError (CalculateError (llm.get f expected) (llm.get f actual)).
Proof.
  pose proof (ScoreIndicators_errors expected actual f) as He.
  unfold ScoreIndicators in *. cbn [fst snd] in *.
  destruct f; cbn [llm.get llm.key_of] in *; unfold map_get; by rewrite He.
Qed.

(** X7. [ScoreIndicators] scores each of the ten indicators on its own
    error: the error map holds, under the JSON key of each indicator, the
    error between the expected and the actual value of that indicator, and
    nothing else; the score of the indicator is [ScoreFromError] of that
    error. *)
Theorem ScoreIndicators_fields (expected actual : IndicatorResult) :
  (∀ f, (ScoreIndicators expected actual).2 !! llm.key_of f
          = Some (CalculateError (llm.get f expected) (llm.get f actual)) ∧
        llm.get f (ScoreIndicators expected actual).1
          = ScoreFromError
              (CalculateError (llm.get f expected) (llm.get f actual))) ∧
  dom (ScoreIndicators expected actual).2 = list_to_set indicator_keys.
Proof.
  split.
  - intros f. split; [apply ScoreIndicators_errors|apply ScoreIndicators_scores].
  - unfold ScoreIndicators. cbn [snd]. rewrite !dom_insert_L, dom_empty_L.
    unfold indicator_keys. simpl. set_solver.
Qed.

(** X8. An answer equal to the ground truth, field by field, has error 0
    and score 100 on every indicator and the total score 100, provided the
    ground truth is finite. *)
Theorem exact_answer_scores_100 (expected : IndicatorResult) :
  (∀ f, is_finite (llm.get f expected) = true) →
  (∀ f, (ScoreIndicators expected expected).2 !! llm.key_of f = Some 0%float) ∧
  (∀ f, llm.get f (ScoreIndicators expected expected).1 = 100%float) ∧
  CalculateTotalScore (ScoreIndicators expected expected).1 = 100%float.
Proof.
  intros Hfin.
  assert (∀ f, llm.get f (ScoreIndicators expected expected).1 = 100%float)
    as Hs.
  { intros f. by rewrite ScoreIndicators_scores, CalculateError_same. }
  split_and!; [|done|].
  - intros f. by rewrite ScoreIndicators_errors, CalculateError_same.
  - unfold CalculateTotalScore.
    pose proof (Hs llm.F_ma20) as H1. pose proof (Hs llm.F_ema12) as H2.
    pose proof (Hs llm.F_ema26) as H3. pose proof (Hs llm.F_macd) as H4.
    pose proof (Hs llm.F_rsi14) as H5. pose proof (Hs llm.F_boll_upper) as H6.
    pose proof (Hs llm.F_boll_middle) as H7.
    pose proof (Hs llm.F_boll_lower) as H8.
    pose proof (Hs llm.F_atr14) as H9. pose proof (Hs llm.F_volume_ma5) as H10.
    cbn [llm.get] in *.
    by rewrite H1, H2, H3, H4, H5, H6, H7, H8, H9, H10.
Qed.

Lemma exact_answer_scores_100_witness :
  CalculateTotalScore
    (ScoreIndicators zero_IndicatorResult zero_IndicatorResult).1 = 100%float.
Proof.
  apply (exact_answer_scores_100 zero_IndicatorResult).
  by intros [].
Defined.

Lemma CalculateTotalScore_even (expected actual : IndicatorResult) :
  CalculateTotalScore (ScoreIndicators expected actual).1 ∈ multiples 2 50.
Proof.
  apply total_of_tiers. intros f. rewrite ScoreIndicators_scores.
  apply ScoreFromError_values.
Qed.

Lemma CalculateTotalScore_bounds (expected actual : IndicatorResult) :
  (0 <=? CalculateTotalScore (ScoreIndicators expected actual).1)%float = true ∧
  (CalculateTotalScore (ScoreIndicators expected actual).1 <=? 100)%float = true.
Proof. apply multiples_2_range, CalculateTotalScore_even. Qed.

(** X9. The total score of a scored answer is an even number between 0 and
    100, whatever the expected and the actual values are, NaN and
    infinities included. *)
Theorem CalculateTotalScore_range (expected actual : IndicatorResult) :
  let total := CalculateTotalScore (ScoreIndicators expected actual).1 in
  total ∈ multiples 2 50 ∧
  (0 <=? total)%float = true ∧ (total <=? 100)%float = true.
Proof.
  split; [apply CalculateTotalScore_even|apply CalculateTotalScore_bounds].
Qed.

(** X10. [ScoreFromError] ignores the sign of the error, and a larger
    absolute error never gets a higher score. *)
Theorem ScoreFromError_antitone :
  (∀ e, ScoreFromError (- e) = ScoreFromError e) ∧
  (∀ e1 e2, (math.Abs e1 <=? math.Abs e2)%float = true →
            (ScoreFromError e2 <=? ScoreFromError e1)%float = true).
Proof.
  split.
  - intros e. unfold ScoreFromError, math.Abs.
    replace (abs (- e)) with (abs e); [done|].
    apply Prim2SF_inj. rewrite !abs_spec, opp_spec.
    by destruct (Prim2SF e).
  - intros e1 e2 Hle. unfold ScoreFromError.
    destruct (math.Abs e2 <=? 0.1)%float eqn:H1.
    { by rewrite (leb_trans _ _ _ Hle H1). }
    destruct (math.Abs e2 <=? 1)%float eqn:H2.
    { pose proof (leb_trans _ _ _ Hle H2) as ->.
      by destruct (math.Abs e1 <=? 0.1)%float. }
    destruct (math.Abs e2 <=? 5)%float eqn:H3.
    { pose proof (leb_trans _ _ _ Hle H3) as ->.
      by destruct (math.Abs e1 <=? 0.1)%float, (math.Abs e1 <=? 1)%float. }
    destruct (math.Abs e2 <=? 10)%float eqn:H4.
    { pose proof (leb_trans _ _ _ Hle H4) as ->.
      by destruct (math.Abs e1 <=? 0.1)%float, (math.Abs e1 <=? 1)%float,
                  (math.Abs e1 <=? 5)%float. }
    by destruct (math.Abs e1 <=? 0.1)%float, (math.Abs e1 <=? 1)%float,
                (math.Abs e1 <=? 5)%float, (math.Abs e1 <=? 10)%float.
Qed.

Lemma ScoreFromError_antitone_witness :
  (ScoreFromError 7 <=? ScoreFromError (-0.5))%float = true.
Proof.
  apply (proj2 ScoreFromError_antitone (-0.5)%float 7%float).
  reflexivity.
Defined.

(** The magnitude of a number without sign is the number itself. *)
Lemma abs_nn (x : float) : nn x → abs x = x.
Proof.
  unfold nn. intros Hx. apply Prim2SF_inj. rewrite abs_spec.
  by destruct (Prim2SF x) as [[]|[]| |[] m e].
Qed.

Lemma nn_CalculateError (expected actual : float) :
  nn (CalculateError expected actual).
Proof.
  unfold CalculateError.
  destruct (expected =? 0)%float; [by destruct (actual =? 0)%float|].
  apply nn_mul; [|done]. apply nn_div; apply nn_abs.
Qed.

(** X11. The error percentage is a magnitude: [CalculateError] never returns a
    number below zero, so the absolute value [ScoreFromError] takes of it
    changes nothing. *)
Theorem CalculateError_never_negative (expected actual : float) :
  (CalculateError expected actual <? 0)%float = false ∧
  math.Abs (CalculateError expected actual) = CalculateError expected actual.
Proof.
  split.
  - apply nn_not_neg, nn_CalculateError.
  - apply abs_nn, nn_CalculateError.
Qed.
(** ** Statistics, continued *)

(** *** Smallest and largest value *)

Lemma not_nan_rank (x : float) :
  math.IsNaN x = false → ∃ r, SFrank (Prim2SF x) = Some r.
Proof.
  unfold math.IsNaN. rewrite FloatAxioms.eqb_spec.
  destruct (Prim2SF x) as [[]|[]| |[] m e]; try done; by eexists.
Qed.

(** Two numbers of which neither is NaN are comparable. *)
Lemma ltb_false_leb (a b : float) :
  math.IsNaN a = false → math.IsNaN b = false →
  (a <? b)%float = false → (b <=? a)%float = true.
Proof.
  intros [x Hx]%not_nan_rank [y Hy]%not_nan_rank.
  rewrite ltb_spec, leb_spec. unfold SFltb, SFleb.
  rewrite (SFcompare_swap (Prim2SF a) (Prim2SF b)), SFcompare_rank, Hx, Hy.
  simpl. by destruct (lex3 x y).
Qed.

Lemma ltb_leb (a b : float) : (a <? b)%float = true → (a <=? b)%float = true.
Proof.
  rewrite ltb_spec, leb_spec. unfold SFltb, SFleb.
  by destruct (SFcompare (Prim2SF a) (Prim2SF b)) as [[]|].
Qed.

Lemma leb_refl (a : float) : math.IsNaN a = false → (a <=? a)%float = true.
Proof.
  intros [x Hx]%not_nan_rank. rewrite leb_spec. unfold SFleb.
  rewrite SFcompare_rank, Hx. by rewrite (proj2 (lex3_Eq x x)).
Qed.

Lemma min_fold_elem (rest : list float) (v0 : float) :
  fold_left (λ m v, if (v <? m)%float then v else m) rest v0 ∈ v0 :: rest.
Proof.
  revert v0. induction rest as [|x rest IH]; intros v0; simpl; [by apply list_elem_of_singleton|].
  pose proof (IH (if (x <? v0)%float then x else v0)) as Hin. clear IH.
  rewrite elem_of_cons in Hin. rewrite !elem_of_cons.
  destruct (x <? v0)%float; tauto.
Qed.

Lemma max_fold_elem (rest : list float) (v0 : float) :
  fold_left (λ m v, if (m <? v)%float then v else m) rest v0 ∈ v0 :: rest.
Proof.
  revert v0. induction rest as [|x rest IH]; intros v0; simpl; [by apply list_elem_of_singleton|].
  pose proof (IH (if (v0 <? x)%float then x else v0)) as Hin. clear IH.
  rewrite elem_of_cons in Hin. rewrite !elem_of_cons.
  destruct (v0 <? x)%float; tauto.
Qed.

Lemma min_fold_le (rest : list float) (v0 : float) :
  math.IsNaN v0 = false → Forall (λ v, math.IsNaN v = false) rest →
  ∀ v, v ∈ v0 :: rest →
    (fold_left (λ m v, if (v <? m)%float then v else m) rest v0 <=? v)%float
    = true.
Proof.
  intros H0 Hrest. revert v0 H0.
  induction Hrest as [|x rest Hx _ IH]; intros v0 H0 v Hv; simpl.
  - apply list_elem_of_singleton in Hv as ->. by apply leb_refl.
  - set (m1 := if (x <? v0)%float then x else v0).
    assert (math.IsNaN m1 = false) as Hm1 by (subst m1; by destruct (_ <? _)%float).
    assert ((m1 <=? v0)%float = true ∧ (m1 <=? x)%float = true) as [Hv0 Hx'].
    { subst m1. destruct (x <? v0)%float eqn:Hlt.
      - split; [by apply ltb_leb|by apply leb_refl].
      - split; [by apply leb_refl|by apply ltb_false_leb]. }
    apply elem_of_cons in Hv as [->|[->|Hv]%elem_of_cons].
    + apply (leb_trans _ m1); [|done]. apply IH; [done|set_solver].
    + apply (leb_trans _ m1); [|done]. apply IH; [done|set_solver].
    + apply IH; [done|set_solver].
Qed.

Lemma max_fold_ge (rest : list float) (v0 : float) :
  math.IsNaN v0 = false → Forall (λ v, math.IsNaN v = false) rest →
  ∀ v, v ∈ v0 :: rest →
    (v <=? fold_left (λ m v, if (m <? v)%float then v else m) rest v0)%float
    = true.
Proof.
  intros H0 Hrest. revert v0 H0.
  induction Hrest as [|x rest Hx _ IH]; intros v0 H0 v Hv; simpl.
  - apply list_elem_of_singleton in Hv as ->. by apply leb_refl.
  - set (m1 := if (v0 <? x)%float then x else v0).
    assert (math.IsNaN m1 = false) as Hm1 by (subst m1; by destruct (_ <? _)%float).
    assert ((v0 <=? m1)%float = true ∧ (x <=? m1)%float = true) as [Hv0 Hx'].
    { subst m1. destruct (v0 <? x)%float eqn:Hlt.
      - split; [by apply ltb_leb|by apply leb_refl].
      - split; [by apply leb_refl|by apply ltb_false_leb]. }
    apply elem_of_cons in Hv as [->|[->|Hv]%elem_of_cons].
    + apply (leb_trans _ m1); [done|]. apply IH; [done|set_solver].
    + apply (leb_trans _ m1); [done|]. apply IH; [done|set_solver].
    + apply IH; [done|set_solver].
Qed.

(** X12. [min] and [max] return 0 for an empty slice and one of the values
    otherwise; when no value is NaN, every value lies between the two. *)
Theorem min_max_bounds (values : list float) :
  (values = [] → engine.min values = 0%float ∧ engine.max values = 0%float) ∧
  (values ≠ [] → engine.min values ∈ values ∧ engine.max values ∈ values) ∧
  (Forall (λ v, math.IsNaN v = false) values →
   ∀ v, v ∈ values →
     (engine.min values <=? v)%float = true ∧
     (v <=? engine.max values)%float = true).
Proof.
  split_and!.
  - by intros ->.
  - intros Hne. destruct values as [|v0 rest]; [done|].
    split; [apply min_fold_elem|apply max_fold_elem].
  - intros Hnan v Hv. destruct values as [|v0 rest]; [set_solver|].
    apply Forall_cons in Hnan as [H0 Hrest].
    split; [by apply min_fold_le|by apply max_fold_ge].
Qed.

Lemma min_max_bounds_witness :
  (engine.min [3; 1; 2] <=? 2)%float = true ∧
  (2 <=? engine.max [3; 1; 2])%float = true.
Proof.
  apply (proj2 (proj2 (min_max_bounds [3; 1; 2]%float))).
  - by repeat constructor.
  - set_solver.
Defined.
(** *** Every run is counted once *)

Lemma sumZ_perm {A} (f : A → Z) (l1 l2 : list A) :
  l1 ≡ₚ l2 → sumZ f l1 = sumZ f l2.
Proof.
  unfold sumZ.
  induction 1 as [|x l1 l2 _ IH|x y l|l1 l2 l3 _ IH1 _ IH2]; simpl; lia.
Qed.

Lemma sumZ_fmap {A B} (g : A → B) (f : B → Z) (l : list A) :
  sumZ f (g <$> l) = sumZ (f ∘ g) l.
Proof.
  unfold sumZ. induction l as [|x l IH]; [done|].
  rewrite fmap_cons. cbn [foldr]. by rewrite IH.
Qed.

Lemma sumZ_ext {A} (f g : A → Z) (l : list A) :
  (∀ x, f x = g x) → sumZ f l = sumZ g l.
Proof.
  intros H. unfold sumZ.
  induction l as [|x l IH]; simpl; [done|by rewrite H, IH].
Qed.

Lemma sumZ_len_concat {A} (ls : list (list A)) :
  sumZ len ls = len (concat ls).
Proof.
  unfold sumZ. induction ls as [|l ls IH]; simpl; [done|].
  rewrite IH. unfold len. rewrite length_app. lia.
Qed.

Lemma filter_concat {A} (P : A → Prop) `{!∀ x, Decision (P x)}
    (ls : list (list A)) :
  filter P (concat ls) = concat (filter P <$> ls).
Proof.
  induction ls as [|l ls IH]; simpl; [done|].
  by rewrite filter_app, IH.
Qed.

(** The groups of the first loop hold every result once. *)
Lemma group_results_partition (results : list BenchResult) :
  concat (snd <$> map_to_list (engine.group_results results).1) ≡ₚ results.
Proof.
  induction results as [|r results IH] using rev_ind.
  { unfold engine.group_results. simpl. by rewrite map_to_list_empty. }
  unfold engine.group_results in *. rewrite fold_left_app. simpl.
  destruct (fold_left engine.group_step results (∅, ∅)) as [mr mi].
  simpl in IH.
  assert ((engine.group_step (mr, mi) r).1
          = <[Model r := default [] (mr !! Model r) ++ [r]]> mr) as ->.
  { unfold engine.group_step. by destruct (Info r). }
  destruct (mr !! Model r) as [old|] eqn:Hm; simpl.
  - rewrite <- insert_delete_eq.
    rewrite map_to_list_insert by apply lookup_delete_eq.
    rewrite <- IH, <- (map_to_list_delete mr (Model r) old) by done.
    simpl. rewrite <- !app_assoc. apply Permutation_app_head.
    apply Permutation_app_comm.
  - rewrite map_to_list_insert by done. simpl.
    rewrite IH. apply Permutation_cons_append.
Qed.

Lemma RunCount_model_statistics mi m rs :
  RunCount (engine.model_statistics mi m rs) = len rs.
Proof. unfold engine.model_statistics. by destruct (0 <? _)%Z. Qed.

Lemma SuccessCount_model_statistics mi m rs :
  SuccessCount (engine.model_statistics mi m rs) = len (successful rs).
Proof.
  unfold engine.model_statistics.
  pose proof (tally_success_count rs engine.empty_tally) as H. simpl in H.
  by destruct (0 <? _)%Z.
Qed.

Lemma FailureCount_model_statistics mi m rs :
  FailureCount (engine.model_statistics mi m rs) = len (failed rs).
Proof.
  unfold engine.model_statistics.
  rewrite (tally_split rs engine.empty_tally).
  by destruct (0 <? _)%Z.
Qed.

(** X13. [calculateStatistics] counts every run exactly once: over the
    records it returns, the run counts add up to the number of results, the
    success counts to the number of results without error and the failure
    counts to the number of results with one; and no model has two
    records. *)
Theorem statistics_count_every_run
    (range_order :
       list (string * list BenchResult) → list (string * list BenchResult))
    (sort_Slice :
       (ModelStatistics → ModelStatistics → bool) →
       list ModelStatistics → list ModelStatistics)
    (results : list BenchResult) :
  (∀ l, range_order l ≡ₚ l) →
  (∀ less l, sort_Slice less l ≡ₚ l) →
  let stats := engine.calculateStatistics range_order sort_Slice results in
  sumZ RunCount stats = len results ∧
  sumZ SuccessCount stats = len (successful results) ∧
  sumZ FailureCount stats = len (failed results) ∧
  NoDup (stat_Model <$> stats).
Proof.
  intros Hrange Hsort. cbv zeta.
  unfold engine.calculateStatistics.
  pose proof (group_results_partition results) as Hpart.
  destruct (engine.group_results results) as [mr mi]. simpl in Hpart.
  set (f := λ '(model, rs), engine.model_statistics mi model rs).
  assert (sort_Slice (λ si sj, (AvgScore sj <? AvgScore si)%float)
            (f <$> range_order (map_to_list mr))
          ≡ₚ f <$> map_to_list mr) as Hperm.
  { by rewrite Hsort, Hrange. }
  split_and!.
  - rewrite (sumZ_perm _ _ _ Hperm), sumZ_fmap.
    rewrite (sumZ_ext _ (len ∘ snd)).
    2:{ intros [m rs]. apply RunCount_model_statistics. }
    rewrite <- sumZ_fmap, sumZ_len_concat.
    unfold len. by rewrite Hpart.
  - rewrite (sumZ_perm _ _ _ Hperm), sumZ_fmap.
    rewrite (sumZ_ext _ (len ∘ successful ∘ snd)).
    2:{ intros [m rs]. apply SuccessCount_model_statistics. }
    rewrite <- !sumZ_fmap, sumZ_len_concat.
    unfold successful at 1. rewrite <- filter_concat.
    unfold len, successful. by rewrite Hpart.
  - rewrite (sumZ_perm _ _ _ Hperm), sumZ_fmap.
    rewrite (sumZ_ext _ (len ∘ failed ∘ snd)).
    2:{ intros [m rs]. apply FailureCount_model_statistics. }
    rewrite <- !sumZ_fmap, sumZ_len_concat.
    unfold failed at 1. rewrite <- filter_concat.
    unfold len, failed. by rewrite Hpart.
  - rewrite Hperm, <- list_fmap_compose.
    rewrite (list_fmap_ext (stat_Model ∘ f) fst (map_to_list mr));
      [apply NoDup_fst_map_to_list|].
    intros i [m rs] _. apply stat_Model_model_statistics.
Qed.

Lemma statistics_count_every_run_witness :
  let results := [sample_run "alpha" "" 80; sample_run "beta" "timeout" 0;
                  sample_run "alpha" "" 100] in
  let stats :=
    engine.calculateStatistics (λ l, l) (@engine.insertion_sort _) results in
  sumZ RunCount stats = 3%Z ∧
  sumZ SuccessCount stats = 2%Z ∧
  sumZ FailureCount stats = 1%Z ∧
  NoDup (stat_Model <$> stats).
Proof.
  apply (statistics_count_every_run (λ l, l) (@engine.insertion_sort _)
           [sample_run "alpha" "" 80; sample_run "beta" "timeout" 0;
            sample_run "alpha" "" 100]).
  - done.
  - intros less l. apply insertion_sort_perm.
Defined.
(** *** Per-indicator averages *)

Lemma bump_list_lookup (l : list string) (counts : gmap string Z) (k : string) :
  NoDup l → k ∈ l →
  foldr (λ k c, <[k := (default 0 (c !! k) + 1)%Z]> c) counts l !! k
  = Some (default 0 (counts !! k) + 1)%Z.
Proof.
  intros Hnd. revert k. induction Hnd as [|x l Hx Hnd IH]; intros k Hk.
  { by apply elem_of_nil in Hk. }
  simpl. destruct (decide (k = x)) as [->|Hne].
  - rewrite lookup_insert_eq. do 3 f_equal.
    clear IH Hk. induction l as [|y l IH]; [done|]. simpl.
    apply not_elem_of_cons in Hx as [Hxy Hx]. apply NoDup_cons in Hnd as [_ Hnd].
    rewrite lookup_insert_ne by done. by apply IH.
  - rewrite lookup_insert_ne by done. apply IH.
    apply elem_of_cons in Hk as [?|?]; done.
Qed.

Lemma bump_counts_lookup (sums : gmap string float) (counts : gmap string Z)
    (k : string) :
  is_Some (sums !! k) →
  engine.bump_counts sums counts !! k = Some (default 0 (counts !! k) + 1)%Z.
Proof.
  intros Hk. unfold engine.bump_counts, set_fold. simpl.
  apply bump_list_lookup; [apply NoDup_elements|].
  by apply elem_of_elements, elem_of_dom.
Qed.

Lemma add_scores_lookup (sc : IndicatorScores) (sums : gmap string float)
    (f : llm.field) :
  add_scores sc sums !! llm.key_of f
  = Some (map_get sums (llm.key_of f) + llm.get f sc)%float.
Proof.
  unfold add_scores, engine.add_to, map_get.
  destruct f; cbn [llm.key_of llm.get];
    repeat (rewrite lookup_insert_ne by done);
    rewrite lookup_insert_eq;
    repeat (rewrite lookup_insert_ne by done); done.
Qed.

Lemma add_scores_other (sc : IndicatorScores) (sums : gmap string float)
    (k : string) :
  k ∉ indicator_keys → add_scores sc sums !! k = sums !! k.
Proof.
  intros Hk. unfold add_scores, engine.add_to.
  repeat (rewrite lookup_insert_ne;
          [|intros <-; apply Hk; unfold indicator_keys; simpl; set_solver]).
  done.
Qed.

Lemma tally_step_scored (t : engine.tally) (r : BenchResult)
    (sc : IndicatorScores) :
  Error r = "" → Scores r = Some sc →
  engine.indicatorSums (engine.tally_step t r)
    = add_scores sc (engine.indicatorSums t) ∧
  engine.indicatorCounts (engine.tally_step t r)
    = engine.bump_counts (add_scores sc (engine.indicatorSums t))
        (engine.indicatorCounts t).
Proof.
  intros He Hs. unfold engine.tally_step.
  destruct (decide (Error r ≠ "")); [done|]. by rewrite Hs.
Qed.

Lemma tally_step_unscored (t : engine.tally) (r : BenchResult) :
  Error r ≠ "" ∨ Scores r = None →
  engine.indicatorSums (engine.tally_step t r) = engine.indicatorSums t ∧
  engine.indicatorCounts (engine.tally_step t r) = engine.indicatorCounts t.
Proof.
  intros H. unfold engine.tally_step.
  destruct (decide (Error r ≠ "")); [done|].
  destruct H as [He| ->]; done.
Qed.

Lemma scored_successful_snoc (rs : list BenchResult) (r : BenchResult) :
  scored (successful (rs ++ [r])) =
    scored (successful rs) ++
    (if decide (Error r = "") then
       match Scores r with Some sc => [sc] | None => [] end
     else []).
Proof.
  unfold scored, successful. rewrite filter_app, omap_app. f_equal.
  rewrite filter_cons, filter_nil.
  destruct (decide (Error r = "")); [|done].
  simpl. by destruct (Scores r).
Qed.

(** What the loop over one model's results leaves in the two maps. *)
Lemma tally_indicators (rs : list BenchResult) :
  let t := fold_left engine.tally_step rs engine.empty_tally in
  let S := scored (successful rs) in
  (∀ k, k ∉ indicator_keys → engine.indicatorSums t !! k = None) ∧
  (S = [] → engine.indicatorSums t = ∅) ∧
  (S ≠ [] → ∀ f,
     engine.indicatorSums t !! llm.key_of f = Some (fsum (llm.get f <$> S)) ∧
     engine.indicatorCounts t !! llm.key_of f = Some (len S)) ∧
  (S = [] → engine.indicatorCounts t = ∅).
Proof.
  induction rs as [|r rs IH] using rev_ind; [done|].
  cbv zeta in *. rewrite fold_left_app. simpl.
  set (t := fold_left engine.tally_step rs engine.empty_tally) in *.
  rewrite scored_successful_snoc.
  destruct IH as (Hother & Hnil & Hsome & Hcnil).
  destruct (decide (Error r = "")) as [He|He].
  2:{ destruct (tally_step_unscored t r) as [-> ->]; [by left|].
      by rewrite app_nil_r. }
  destruct (Scores r) as [sc|] eqn:Hsc.
  2:{ destruct (tally_step_unscored t r) as [-> ->]; [by right|].
      by rewrite app_nil_r. }
  destruct (tally_step_scored t r sc) as [-> ->]; [done..|].
  split_and!.
  - intros k Hk. rewrite add_scores_other by done. by apply Hother.
  - intros H. by apply app_eq_nil in H as [_ ?].
  - intros _ f. rewrite bump_counts_lookup
      by (rewrite add_scores_lookup; by eexists).
    rewrite add_scores_lookup. unfold map_get.
    destruct (decide (scored (successful rs) = [])) as [Hn|Hn].
    + rewrite Hn, (Hnil Hn), (Hcnil Hn), !lookup_empty. done.
    + destruct (Hsome Hn f) as [-> ->]. simpl.
      unfold fsum. rewrite fmap_app, fold_left_app. simpl.
      split; [done|]. f_equal. unfold len. rewrite length_app. simpl. lia.
  - intros H. by apply app_eq_nil in H as [_ ?].
Qed.

Lemma IndicatorAvgs_statistics_of (m : string) (results : list BenchResult) :
  let s := statistics_of m results in
  let S := scored (successful (runs_of m results)) in
  (S = [] → IndicatorAvgs s = ∅) ∧
  (S ≠ [] → ∀ f,
     IndicatorAvgs s !! llm.key_of f
     = Some (mean (llm.get f <$> S) (len S))) ∧
  (∀ k, k ∉ indicator_keys → IndicatorAvgs s !! k = None).
Proof.
  cbv zeta. unfold statistics_of, engine.model_statistics.
  pose proof (tally_indicators (runs_of m results)) as (Hother & Hnil & Hsome & _).
  pose proof (tally_scores (runs_of m results) engine.empty_tally) as Hsc.
  simpl in Hsc. cbv zeta in *.
  set (t := fold_left engine.tally_step (runs_of m results) engine.empty_tally)
    in *.
  destruct (Z.ltb_spec 0 (len (engine.scores t))) as [Hpos|Hzero]; simpl.
  - split_and!.
    + intros Hn. rewrite (Hnil Hn). apply map_eq. intros k.
      unfold engine.indicator_averages.
      by rewrite map_lookup_imap, !lookup_empty.
    + intros Hn f. destruct (Hsome Hn f) as [Hs Hc].
      unfold engine.indicator_averages.
      rewrite map_lookup_imap, Hs. simpl. rewrite Hc. simpl.
      destruct (Z.ltb_spec 0 (len (scored (successful (runs_of m results)))))
        as [_|Hle]; [done|].
      destruct (scored _); [done|]. unfold len in Hle. simpl in Hle. lia.
    + intros k Hk. unfold engine.indicator_averages.
      by rewrite map_lookup_imap, (Hother k Hk).
  - split_and!; [done| |done].
    intros Hn. exfalso. apply Hn.
    rewrite Hsc in Hzero. unfold len in Hzero.
    rewrite length_fmap in Hzero.
    destruct (successful (runs_of m results)); [done|simpl in Hzero; lia].
Qed.

(** X14. The per-indicator averages of a model are taken over its successful
    runs that carry scores: for each of the ten indicators the sum of its
    scores, accumulated in run order, divided by the number of such runs.
    The map holds no other key, and is empty when there is no such run. *)
Theorem IndicatorAvgs_means
    (range_order :
       list (string * list BenchResult) → list (string * list BenchResult))
    (sort_Slice :
       (ModelStatistics → ModelStatistics → bool) →
       list ModelStatistics → list ModelStatistics)
    (results : list BenchResult) (s : ModelStatistics) :
  (∀ l, range_order l ≡ₚ l) →
  (∀ less l, sort_Slice less l ≡ₚ l) →
  s ∈ engine.calculateStatistics range_order sort_Slice results →
  let S := scored (successful (runs_of (stat_Model s) results)) in
  (S = [] → IndicatorAvgs s = ∅) ∧
  (S ≠ [] → ∀ f,
     IndicatorAvgs s !! llm.key_of f
     = Some (mean (llm.get f <$> S) (len S))) ∧
  (∀ k, k ∉ indicator_keys → IndicatorAvgs s !! k = None).
Proof.
  intros Hrange Hsort Hs.
  apply calculateStatistics_elem in Hs as (m & _ & ->); [|done..].
  unfold statistics_of at 1 4. rewrite stat_Model_model_statistics.
  apply IndicatorAvgs_statistics_of.
Qed.
Lemma IndicatorAvgs_means_witness :
  let results := [scored_run "alpha" (sample_scores 60);
                  sample_run "alpha" "request failed: timeout" 0;
                  scored_run "alpha" (sample_scores 80)] in
  let s := statistics_of "alpha" results in
  IndicatorAvgs s !! "macd" = Some 70%float ∧
  IndicatorAvgs s !! "ma20" = Some 100%float.
Proof.
  intros results s.
  assert (s ∈ engine.calculateStatistics (λ l, l) engine.insertion_sort results)
    as Hin.
  { apply (calculateStatistics_elem (λ l, l) engine.insertion_sort
             (λ l, reflexivity l) (λ less l, insertion_sort_perm less l)).
    exists "alpha". split; [|done]. by vm_compute. }
  destruct (IndicatorAvgs_means (λ l, l) engine.insertion_sort results s
              (λ l, reflexivity l) (λ less l, insertion_sort_perm less l) Hin)
    as (_ & Hf & _).
  assert (scored (successful (runs_of (stat_Model s) results)) ≠ []) as Hne
    by by vm_compute.
  split.
  - etrans; [exact (Hf Hne llm.F_macd)|by vm_compute].
  - etrans; [exact (Hf Hne llm.F_ma20)|by vm_compute].
Defined.

(** *** A model without a successful run *)

(** X15. A model all of whose runs failed still gets a record: its run count
    is its failure count, and every score, latency and consistency figure
    of the record is 0, the per-indicator averages empty. *)
Theorem model_without_success
    (range_order :
       list (string * list BenchResult) → list (string * list BenchResult))
    (sort_Slice :
       (ModelStatistics → ModelStatistics → bool) →
       list ModelStatistics → list ModelStatistics)
    (results : list BenchResult) (s : ModelStatistics) :
  (∀ l, range_order l ≡ₚ l) →
  (∀ less l, sort_Slice less l ≡ₚ l) →
  s ∈ engine.calculateStatistics range_order sort_Slice results →
  SuccessCount s = 0%Z →
  (1 ≤ RunCount s)%Z ∧ FailureCount s = RunCount s ∧
  AvgScore s = 0%float ∧ MinScore s = 0%float ∧ MaxScore s = 0%float ∧
  StdDev s = 0%float ∧ Consistency s = 0%float ∧
  AvgLatencyMs s = 0%float ∧ MinLatencyMs s = 0%float ∧
  MaxLatencyMs s = 0%float ∧ IndicatorAvgs s = ∅.
Proof.
  intros Hrange Hsort Hs Hzero.
  apply calculateStatistics_elem in Hs as (m & Hne & ->); [|done..].
  pose proof (statistics_of_counts m results) as Hcount.
  rewrite Hzero in Hcount.
  revert Hzero Hcount. unfold statistics_of, engine.model_statistics.
  pose proof (tally_scores (runs_of m results) engine.empty_tally) as Hsc.
  pose proof (tally_success_count (runs_of m results) engine.empty_tally) as Hn.
  simpl in Hsc, Hn.
  set (t := fold_left engine.tally_step (runs_of m results) engine.empty_tally)
    in *.
  assert (len (engine.scores t) = engine.successCount t) as Hlen.
  { rewrite Hsc, Hn. unfold len. by rewrite length_fmap. }
  assert (1 ≤ len (runs_of m results))%Z as Hruns.
  { destruct (runs_of m results); [done|]. unfold len. simpl. lia. }
  destruct (Z.ltb_spec 0 (len (engine.scores t))); simpl; intros Hzero Hcount.
  - lia.
  - split_and!; try done; lia.
Qed.

Lemma model_without_success_witness :
  let results := [sample_run "alpha" "" 80;
                  sample_run "beta" "request failed: timeout" 0] in
  let s := statistics_of "beta" results in
  RunCount s = 1%Z ∧ FailureCount s = 1%Z ∧ AvgScore s = 0%float ∧
  Consistency s = 0%float.
Proof.
  intros results s.
  assert (s ∈ engine.calculateStatistics (λ l, l) engine.insertion_sort results)
    as Hin.
  { apply (calculateStatistics_elem (λ l, l) engine.insertion_sort
             (λ l, reflexivity l) (λ less l, insertion_sort_perm less l)).
    exists "beta". split; [|done]. by vm_compute. }
  destruct (model_without_success (λ l, l) engine.insertion_sort results s
              (λ l, reflexivity l) (λ less l, insertion_sort_perm less l) Hin
              ltac:(by vm_compute))
    as (_ & Hf & Havg & _ & _ & _ & Hc & _).
  split; [by vm_compute|]. split; [by rewrite Hf; vm_compute|]. done.
Defined.

(** ** The leaderboard *)

Lemma imap_rank_fmap {A} (g : nat → A → LeaderboardEntry) (l : list A)
    (k : nat) :
  (∀ i x, Rank (g i x) = (Z.of_nat i + 1)%Z) →
  Rank <$> imap (g ∘ Nat.add k) l = seqZ (Z.of_nat k + 1) (len l).
Proof.
  intros Hg. revert k. induction l as [|x l IH]; intros k; [done|].
  unfold len. rewrite length_cons, Nat2Z.inj_succ.
  rewrite seqZ_cons by lia. simpl.
  rewrite Hg, Nat.add_0_r. f_equal.
  rewrite Z.pred_succ.
  replace (Z.succ (Z.of_nat k + 1)) with (Z.of_nat (S k) + 1)%Z by lia.
  fold (len l). rewrite <- (IH (S k)).
  change (list_fmap LeaderboardEntry Z Rank) with (fmap (M:=list) Rank).
  f_equal. apply imap_ext. intros i y _. simpl.
  f_equal. lia.
Qed.

Lemma imap_rank {A} (g : nat → A → LeaderboardEntry) (l : list A) :
  (∀ i x, Rank (g i x) = (Z.of_nat i + 1)%Z) →
  Rank <$> imap g l = seqZ 1 (len l).
Proof.
  intros Hg. change 1%Z with (Z.of_nat 0 + 1)%Z.
  by rewrite <- (imap_rank_fmap g l 0 Hg).
Qed.

(** X16. The leaderboard has one entry per statistics record, copied from it;
    the ranks are 1, 2, 3, ... in the order of the list, without ties or
    gaps, also between models of equal average score. *)
Theorem calculateLeaderboard_ranks (w : World) (stats : list ModelStatistics) :
  (∀ less l, sort_entries w less l ≡ₚ l) →
  let board := orchestrator.calculateLeaderboard w stats in
  Rank <$> board = seqZ 1 (len stats) ∧
  (λ e, (lb_Model e, lb_Provider e, ModelID e, lb_AvgScore e, lb_StdDev e,
         lb_Consistency e, AvgLatency e, lb_RunCount e)) <$> board
  ≡ₚ (λ s, (stat_Model s, Provider (stat_ModelInfo s),
            Model_id (stat_ModelInfo s), AvgScore s, StdDev s, Consistency s,
            AvgLatencyMs s, RunCount s)) <$> stats.
Proof.
  intros Hsort. cbv zeta. unfold orchestrator.calculateLeaderboard.
  set (entries := sort_entries w _ _).
  assert (entries ≡ₚ
    (λ s, {| Rank := 0; lb_Model := stat_Model s;
             lb_Provider := Provider (stat_ModelInfo s);
             ModelID := Model_id (stat_ModelInfo s);
             lb_AvgScore := AvgScore s; lb_StdDev := StdDev s;
             lb_Consistency := Consistency s; AvgLatency := AvgLatencyMs s;
             lb_RunCount := RunCount s |}) <$> stats) as Hperm
    by apply Hsort.
  split.
  - rewrite imap_rank by done.
    f_equal. unfold len. rewrite Hperm. by rewrite length_fmap.
  - rewrite fmap_imap.
    rewrite (imap_ext _ (const (λ e, (lb_Model e, lb_Provider e, ModelID e,
      lb_AvgScore e, lb_StdDev e, lb_Consistency e, AvgLatency e,
      lb_RunCount e))) entries) by done.
    rewrite imap_const, Hperm, <- list_fmap_compose. done.
Qed.

Lemma calculateLeaderboard_ranks_witness :
  let stats := [statistics_of "alpha" [sample_run "alpha" "" 80];
                statistics_of "beta" [sample_run "beta" "" 80]] in
  Rank <$> orchestrator.calculateLeaderboard offline stats = [1; 2]%Z.
Proof.
  intros stats.
  apply (calculateLeaderboard_ranks offline stats).
  intros less l. apply insertion_sort_perm.
Defined.
(** ** The run, continued *)

Lemma fold_left_append {A B} (g : B → list A) (l : list B) (acc : list A) :
  fold_left (λ acc x, acc ++ g x) l acc = acc ++ concat (g <$> l).
Proof.
  revert acc. induction l as [|x l IH]; intros acc; simpl.
  - by rewrite app_nil_r.
  - by rewrite IH, app_assoc.
Qed.

Lemma benchmark_snapshot_batches (w : World) (config : BenchConfig)
    (acc : list BenchResult) (s : Snapshot) :
  orchestrator.benchmark_snapshot w config acc s
  = Some (acc ++ concat ((λ runIdx, schedule w (planned_batch w config s runIdx))
                           <$> seqZ 0 (Runs config))).
Proof.
  unfold orchestrator.benchmark_snapshot.
  destruct (CalculateIndicators_total (Klines s)) as [expected Hexp].
  rewrite Hexp. simpl.
  rewrite (fold_left_append
             (λ runIdx, schedule w
                ((λ mc, orchestrator.runSingleBenchmark w (ID s) mc
                          (BuildIndicatorPrompt w (Klines s)) expected runIdx)
                   <$> Models config))).
  do 3 f_equal. apply list_fmap_ext. intros i runIdx _. unfold planned_batch.
  by rewrite Hexp.
Qed.

(** The second step of [Run] appends the batches, snapshot by snapshot and
    run index by run index. *)
Lemma benchmark_fold (w : World) (config : BenchConfig)
    (snapshots : list Snapshot) (acc : list BenchResult) :
  for_each (orchestrator.benchmark_snapshot w config) snapshots acc
  = Some (acc ++ concat (scheduled_batches w config snapshots)).
Proof.
  revert acc. induction snapshots as [|s snapshots IH]; intros acc.
  { simpl. by rewrite app_nil_r. }
  unfold scheduled_batches. rewrite bind_cons, concat_app.
  fold (scheduled_batches w config snapshots).
  cbn [for_each]. rewrite benchmark_snapshot_batches. simpl.
  by rewrite IH, <- app_assoc.
Qed.

Lemma length_planned_batch (w : World) (config : BenchConfig) (s : Snapshot)
    (runIdx : Z) :
  length (planned_batch w config s runIdx) = length (Models config).
Proof.
  unfold planned_batch.
  destruct (CalculateIndicators_total (Klines s)) as [expected ->].
  apply length_fmap.
Qed.

Lemma length_concat_planned (w : World) (config : BenchConfig)
    (snapshots : list Snapshot) :
  (0 ≤ Runs config)%Z →
  len (concat (planned_batches w config snapshots))
  = (len snapshots * len (Models config) * Runs config)%Z.
Proof.
  intros Hruns. unfold planned_batches, len.
  induction snapshots as [|s snapshots IH]; [simpl; lia|].
  rewrite bind_cons, concat_app, length_app, length_cons.
  rewrite Nat2Z.inj_add, IH.
  assert (∀ l : list Z,
    Z.of_nat (length (concat ((λ runIdx, planned_batch w config s runIdx) <$> l)))
    = (Z.of_nat (length (Models config)) * Z.of_nat (length l))%Z) as Hl.
  { induction l as [|i l IHl]; [simpl; lia|].
    rewrite fmap_cons. simpl. rewrite length_app, length_planned_batch. lia. }
  rewrite Hl, length_seqZ. lia.
Qed.

(** X17. A report holds one result for every snapshot, every run index below
    [Runs] and every configured model.  The results come snapshot by
    snapshot and, within a snapshot, run index by run index; only the
    order of the models inside one batch is left to the scheduler.  Their
    number is snapshots times models times runs. *)
Theorem Run_results_cover (w : World) (config : BenchConfig)
    (report : BenchReport) :
  (∀ l, schedule w l ≡ₚ l) →
  orchestrator.Run w config = Some (Ok report) →
  (∃ batches,
     Results report = concat batches ∧
     Forall2 (≡ₚ) batches (planned_batches w config (Snapshots report))) ∧
  Results report ≡ₚ concat (planned_batches w config (Snapshots report)) ∧
  ((0 ≤ Runs config)%Z →
   len (Results report)
   = (len (Snapshots report) * len (Models config) * Runs config)%Z).
Proof.
  intros Hsched. unfold orchestrator.Run.
  destruct (orchestrator.acquire w config) as [snapshots|e]; [|done].
  rewrite benchmark_fold. simpl. intros [= <-]. simpl.
  assert (Forall2 (≡ₚ) (scheduled_batches w config snapshots)
            (planned_batches w config snapshots)) as Hbatches.
  { unfold scheduled_batches, planned_batches.
    induction snapshots as [|s snapshots IH]; [constructor|].
    rewrite !bind_cons. apply Forall2_app; [|done].
    apply Forall2_fmap, Forall_Forall2_diag, Forall_forall.
    intros runIdx _. apply Hsched. }
  assert (concat (scheduled_batches w config snapshots)
          ≡ₚ concat (planned_batches w config snapshots)) as Hperm.
  { clear -Hbatches. induction Hbatches as [|b1 b2 l1 l2 Hb _ IH]; [done|].
    simpl. by rewrite Hb, IH. }
  split_and!.
  - by exists (scheduled_batches w config snapshots).
  - done.
  - intros Hruns. unfold len at 1. rewrite Hperm.
    by apply length_concat_planned.
Qed.

Lemma Run_results_cover_witness :
  ∃ report, orchestrator.Run online two_model_config = Some (Ok report) ∧
            len (Results report) = 2%Z.
Proof.
  assert (∃ report snapshot,
            orchestrator.Run online two_model_config = Some (Ok report) ∧
            Snapshots report = [snapshot]) as (report & snapshot & Hrun & Hs).
  { unfold orchestrator.Run.
    destruct (orchestrator.acquire online two_model_config)
      as [[|snapshot [|]]|] eqn:Hacq; try by vm_compute in Hacq.
    rewrite benchmark_fold. by eexists _, _. }
  exists report. split; [done|].
  destruct (Run_results_cover online two_model_config report) as (_ & _ & Hlen).
  - intros l. apply reverse_Permutation.
  - done.
  - rewrite Hlen, Hs; done.
Defined.
(** *** Static mode *)

Lemma load_fold (w : World) (dir : string) (entries : list DirEntry)
    (acc : list Snapshot) :
  fold_left
    (λ snapshots entry,
       if entry_IsDir entry || negb (HasSuffix (entry_Name entry) ".json")
       then snapshots
       else
         match snapshot.LoadSnapshot w (Join w dir (entry_Name entry)) with
         | Err _ => snapshots
         | Ok snapshot => snapshots ++ [snapshot]
         end)
    entries acc
  = acc ++ loadable w dir entries.
Proof.
  unfold loadable. revert acc.
  induction entries as [|entry entries IH]; intros acc; simpl.
  - by rewrite app_nil_r.
  - rewrite IH.
    destruct (entry_IsDir entry || negb (HasSuffix (entry_Name entry) ".json"));
      [done|].
    destruct (snapshot.LoadSnapshot _ _); [|done].
    by rewrite <- app_assoc.
Qed.

Lemma is_prefix_app (p l : list ascii) : is_prefix p (p ++ l) = true.
Proof.
  induction p as [|a p IH]; [done|]. simpl.
  rewrite IH. unfold byte_eqb. by rewrite Ascii.eqb_refl.
Qed.

Lemma is_prefix_inv (p l : list ascii) :
  is_prefix p l = true → ∃ rest, l = p ++ rest.
Proof.
  revert l. induction p as [|a p IH]; intros l; [by exists l|].
  destruct l as [|b l]; [done|]. simpl.
  intros [Hab Hp]%andb_true_iff.
  apply Ascii.eqb_eq in Hab as ->.
  destruct (IH l Hp) as [rest ->]. by exists rest.
Qed.

Lemma bytes_append (s t : string) : bytes (s +:+ t) = bytes s ++ bytes t.
Proof. induction s as [|a s IH]; [done|]. simpl. by rewrite <- IH. Qed.

Lemma of_bytes_bytes (s : string) : of_bytes (bytes s) = s.
Proof. apply string_of_list_ascii_of_string. Qed.

Lemma bytes_of_bytes (l : list ascii) : bytes (of_bytes l) = l.
Proof. apply list_ascii_of_string_of_list_ascii. Qed.

(** [strings.HasSuffix(s, suffix)] holds exactly of the strings that end
    in [suffix]. *)
Lemma HasSuffix_spec (s suffix : string) :
  HasSuffix s suffix = true ↔ ∃ stem, s = stem +:+ suffix.
Proof.
  unfold HasSuffix. split.
  - intros [rest Hrest]%is_prefix_inv.
    exists (of_bytes (reverse rest)).
    rewrite <- (of_bytes_bytes s), <- (of_bytes_bytes (_ +:+ _)). f_equal.
    rewrite bytes_append, bytes_of_bytes.
    apply (inj reverse). by rewrite Hrest, reverse_app, !reverse_involutive.
  - intros [stem ->]. rewrite bytes_append, reverse_app. apply is_prefix_app.
Qed.

(** X18. [LoadSnapshots] fails only when the directory cannot be read.
    Otherwise it returns, in some order, the snapshots of the entries that
    are files, have a name ending in [.json] and load without error; every
    other entry is passed over without a word, so a directory that holds
    nothing loadable yields an empty list and no error. *)
Theorem LoadSnapshots_skips_invalid (w : World) (dir : string) :
  (∀ less l, sort_snapshots w less l ≡ₚ l) →
  (∀ e, ReadDir w dir = Err e →
     snapshot.LoadSnapshots w dir = Err ("failed to read directory: " +:+ e)) ∧
  (∀ entries, ReadDir w dir = Ok entries →
     ∃ snapshots,
       snapshot.LoadSnapshots w dir = Ok snapshots ∧
       snapshots ≡ₚ loadable w dir entries) ∧
  (∀ name, HasSuffix name ".json" = true ↔ ∃ stem, name = stem +:+ ".json").
Proof.
  intros Hsort. split_and!.
  - intros e He. unfold snapshot.LoadSnapshots. by rewrite He.
  - intros entries He. unfold snapshot.LoadSnapshots. rewrite He.
    eexists. split; [done|]. by rewrite Hsort, load_fold.
  - intros name. apply HasSuffix_spec.
Qed.

Lemma LoadSnapshots_skips_invalid_witness :
  ∃ snapshots,
    snapshot.LoadSnapshots online "datasets/snapshots" = Ok snapshots ∧
    ID <$> snapshots = ["20240101_000000_BTCUSDT_1h"].
Proof.
  destruct (LoadSnapshots_skips_invalid online "datasets/snapshots")
    as (_ & Hok & _).
  { intros less l. apply insertion_sort_perm. }
  destruct (Hok _ eq_refl) as (snapshots & Hload & Hperm).
  exists snapshots. split; [done|].
  change (snapshots ≡ₚ
            [ {| ID := "20240101_000000_BTCUSDT_1h"; Symbol := "BTCUSDT";
                 Interval := "1h"; Timestamp := 1704067200000;
                 Klines := replicate 30 (candle 100) |} ]) in Hperm.
  by apply Permutation_singleton_r in Hperm as ->.
Defined.

(** X19. In static mode [Run] ends with an error when the snapshots cannot be
    loaded or none is found, and otherwise returns a report whose
    snapshots are the loaded ones; it never panics. *)
Theorem Run_static_outcome (w : World) (config : BenchConfig) :
  Mode config = "static" →
  match snapshot.LoadSnapshots w (DatasetDir config) with
  | Err e => orchestrator.Run w config = Some (Err ("load snapshots: " +:+ e))
  | Ok [] =>
      orchestrator.Run w config
      = Some (Err ("no snapshots found in " +:+ DatasetDir config))
  | Ok snapshots =>
      ∃ report, orchestrator.Run w config = Some (Ok report) ∧
                Config report = config ∧ Snapshots report = snapshots
  end.
Proof.
  intros Hmode. unfold orchestrator.Run, orchestrator.acquire.
  destruct (decide _) as [_|Hne]; [|done].
  destruct (snapshot.LoadSnapshots w (DatasetDir config))
    as [[|s snapshots]|e]; [done| |done].
  destruct (Z.eqb_spec (len (s :: snapshots)) 0) as [H0|_];
    [unfold len in H0; simpl in H0; lia|].
  rewrite benchmark_fold. by eexists.
Qed.

Lemma Run_static_outcome_witness :
  orchestrator.Run offline static_config
  = Some (Err "no snapshots found in datasets/snapshots").
Proof.
  apply (Run_static_outcome offline static_config). reflexivity.
Defined.

(** *** Realtime mode *)

Lemma CaptureSnapshot_Ok (w : World) (symbol interval : string)
    (klineCount : Z) (s : Snapshot) :
  snapshot.CaptureSnapshot w symbol interval klineCount = Ok s →
  GetKlines w symbol interval klineCount = Ok (Klines s) ∧
  (klineCount ≤ len (Klines s))%Z ∧
  Symbol s = symbol ∧ Interval s = interval ∧
  ID s = Now_Format w symbol +:+ "_" +:+ symbol +:+ "_" +:+ interval ∧
  Timestamp s = Now_UnixMilli w symbol.
Proof.
  unfold snapshot.CaptureSnapshot.
  destruct (GetKlines w symbol interval klineCount) as [klines|e]; [|done].
  destruct (Z.ltb_spec (len klines) klineCount); [done|].
  by intros [= <-].
Qed.

(** X20. The snapshots of a realtime report are those of the configured
    symbols whose capture succeeded, in the order of the configuration; each
    holds the candles the market-data call returned, at least [KlineCount]
    of them, under an ID made of the capture time, the symbol and the
    interval. *)
Theorem Run_realtime_snapshots (w : World) (config : BenchConfig)
    (report : BenchReport) :
  Mode config ≠ "static" →
  orchestrator.Run w config = Some (Ok report) →
  Symbol <$> Snapshots report `sublist_of` Symbols config ∧
  Forall (λ s,
            GetKlines w (Symbol s) (cfg_Interval config) (KlineCount config)
              = Ok (Klines s) ∧
            (KlineCount config ≤ len (Klines s))%Z ∧
            Interval s = cfg_Interval config ∧
            ID s = Now_Format w (Symbol s) +:+ "_" +:+ Symbol s +:+ "_"
                     +:+ cfg_Interval config)
    (Snapshots report).
Proof.
  intros Hmode. unfold orchestrator.Run.
  rewrite acquire_realtime by done.
  rewrite benchmark_fold. simpl. intros [= <-]. simpl.
  unfold captured. induction (Symbols config) as [|symbol symbols [IH1 IH2]].
  { split; [done|constructor]. }
  simpl.
  destruct (snapshot.CaptureSnapshot w symbol (cfg_Interval config)
              (KlineCount config)) as [s|e] eqn:Hcap; simpl.
  - apply CaptureSnapshot_Ok in Hcap as (Hk & Hlen & Hsym & Hint & Hid & _).
    split.
    + rewrite Hsym. by apply sublist_skip.
    + constructor; [|done]. by rewrite Hsym, Hint.
  - split; [by apply sublist_cons|done].
Qed.

Lemma Run_realtime_snapshots_witness :
  ∃ report, orchestrator.Run online two_model_config = Some (Ok report) ∧
            Forall (λ s, (30 ≤ len (Klines s))%Z) (Snapshots report).
Proof.
  assert (∃ report,
            orchestrator.Run online two_model_config = Some (Ok report))
    as (report & Hrun).
  { unfold orchestrator.Run.
    destruct (orchestrator.acquire online two_model_config)
      as [snapshots|] eqn:Hacq; [|by vm_compute in Hacq].
    rewrite benchmark_fold. by eexists. }
  exists report. split; [done|].
  destruct (Run_realtime_snapshots online two_model_config report) as [_ Hall];
    [done..|].
  eapply Forall_impl; [exact Hall|]. by intros s (_ & Hlen & _).
Defined.

(** *** Intervals *)

Lemma parseInterval_unsupported (interval : string) :
  interval ∉ supported_intervals →
  market_data.parseInterval interval
  = Err ("unsupported interval: " +:+ interval).
Proof.
  intros Hnot. unfold market_data.parseInterval.
  repeat (destruct (decide _) as [->|_];
          [exfalso; apply Hnot; unfold supported_intervals; set_solver|]).
  done.
Qed.

Lemma parseInterval_supported (interval : string) :
  interval ∈ supported_intervals →
  ∃ i, market_data.parseInterval interval = Ok i.
Proof.
  unfold supported_intervals. rewrite !elem_of_cons, elem_of_nil.
  intros H. repeat (destruct H as [->|H]; [by eexists|]). done.
Qed.

Lemma calculateStatistics_nil
    (range_order :
       list (string * list BenchResult) → list (string * list BenchResult))
    (sort_Slice :
       (ModelStatistics → ModelStatistics → bool) →
       list ModelStatistics → list ModelStatistics) :
  (∀ l, range_order l ≡ₚ l) →
  (∀ less l, sort_Slice less l ≡ₚ l) →
  engine.calculateStatistics range_order sort_Slice [] = [].
Proof.
  intros Hrange Hsort. unfold engine.calculateStatistics. simpl.
  rewrite map_to_list_empty.
  apply Permutation_nil_r. rewrite Hsort.
  by rewrite (proj1 (Permutation_nil_r _) (Hrange [])).
Qed.

(** X21. [GetKlines] knows fourteen interval strings and rejects every other
    one before it asks for data.  In realtime mode such an interval makes
    every capture fail, and [Run] returns a report without snapshots,
    results, statistics or leaderboard, and no error, whatever the symbols
    are and whatever the network would have answered. *)
Theorem Run_unsupported_interval (w : World) (config : BenchConfig)
    (api_Kline :
       string → Z → Z → coinank_enum.Interval → result (list coinank_api.Kline)) :
  (∀ symbol interval limit,
     ∃ now, GetKlines w symbol interval limit
            = market_data.GetKlines api_Kline now symbol interval limit) →
  (∀ l, range_order w l ≡ₚ l) →
  (∀ less l, sort_statistics w less l ≡ₚ l) →
  (∀ less l, sort_entries w less l ≡ₚ l) →
  Mode config ≠ "static" →
  cfg_Interval config ∉ supported_intervals →
  (∀ symbol limit,
     GetKlines w symbol (cfg_Interval config) limit
     = Err ("unsupported interval: " +:+ cfg_Interval config)) ∧
  orchestrator.Run w config
  = Some (Ok {| report_Version := "1.0.0"; Config := config; Snapshots := [];
                Results := []; Statistics := []; Leaderboard := [] |}).
Proof.
  intros Hw Hrange Hstat Hent Hmode Hint.
  assert (∀ symbol limit,
     GetKlines w symbol (cfg_Interval config) limit
     = Err ("unsupported interval: " +:+ cfg_Interval config)) as Hget.
  { intros symbol limit.
    destruct (Hw symbol (cfg_Interval config) limit) as [now ->].
    unfold market_data.GetKlines. by rewrite parseInterval_unsupported. }
  split; [done|].
  unfold orchestrator.Run. rewrite acquire_realtime by done.
  assert (captured w config = []) as ->.
  { unfold captured. induction (Symbols config) as [|symbol symbols IH]; [done|].
    simpl. unfold snapshot.CaptureSnapshot at 1. by rewrite Hget. }
  simpl. rewrite calculateStatistics_nil by done.
  unfold orchestrator.calculateLeaderboard. simpl.
  by rewrite (proj1 (Permutation_nil_r _) (Hent _ [])).
Qed.

Lemma Run_unsupported_interval_witness :
  let config :=
    {| Mode := "realtime"; DatasetDir := ""; Symbols := ["BTCUSDT"];
       cfg_Interval := "10m"; KlineCount := 30; Models := [sample_model];
       Runs := 1 |} in
  orchestrator.Run online config
  = Some (Ok {| report_Version := "1.0.0"; Config := config; Snapshots := [];
                Results := []; Statistics := []; Leaderboard := [] |}).
Proof.
  intros config.
  apply (Run_unsupported_interval online config sample_api_Kline).
  - intros symbol interval limit. by exists 1704067200000%Z.
  - done.
  - intros less l. apply insertion_sort_perm.
  - intros less l. apply insertion_sort_perm.
  - done.
  - apply (bool_decide_unpack _). by vm_compute.
Defined.
(** ** The chat client *)

(** Every error [Chat] returns carries a message. *)
Lemma Chat_error_nonempty (h : client.Http) (c : client.LLMClient)
    (prompt e : string) :
  client.Chat h c prompt = Err e → e ≠ "".
Proof.
  unfold client.Chat.
  destruct (client.Marshal h _) as [jsonData|?]; [|by intros [= <-]].
  destruct (client.NewRequest h _ _ _); [by intros [= <-]|].
  destruct (client.Do h _) as [resp|?]; [|by intros [= <-]].
  destruct (client.ReadAll h resp) as [body|?]; [|by intros [= <-]].
  destruct (client.Unmarshal h body) as [result|?]; [|by intros [= <-]].
  destruct (client.resp_Error result); [by intros [= <-]|].
  destruct (client.Choices result); [by intros [= <-]|done].
Qed.

(** X22. [Chat] returns the content of the first choice of the reply, and an
    error in every other case: when the reply carries an error object,
    whatever choices come with it, and when it carries no choice.  No error
    it returns has an empty message. *)
Theorem Chat_outcome (h : client.Http) (c : client.LLMClient)
    (prompt : string) :
  (∀ e, client.Chat h c prompt = Err e → e ≠ "") ∧
  (∀ content,
     client.Chat h c prompt = Ok content →
     ∃ body result rest,
       client.Unmarshal h body = Ok result ∧
       client.resp_Error result = None ∧
       client.Choices result = content :: rest) ∧
  (∀ jsonData resp body result,
     client.Marshal h
       {| client.req_Model := cfg_Model (client.config c);
          client.Messages :=
            [{| client.Role := "user"; client.Content := prompt |}] |}
       = Ok jsonData →
     client.NewRequest h "POST" (client.baseURL c +:+ "/chat/completions")
       jsonData = None →
     client.Do h
       {| client.Method := "POST";
          client.URL := client.baseURL c +:+ "/chat/completions";
          client.Header :=
            [("Content-Type", "application/json");
             ("Authorization", "Bearer " +:+ APIKey (client.config c))];
          client.Body := jsonData |} = Ok resp →
     client.ReadAll h resp = Ok body →
     client.Unmarshal h body = Ok result →
     (∀ message, client.resp_Error result = Some message →
        client.Chat h c prompt = Err ("API error: " +:+ message)) ∧
     (client.resp_Error result = None → client.Choices result = [] →
        client.Chat h c prompt = Err "no response choices")).
Proof.
  split_and!.
  - intros e. apply Chat_error_nonempty.
  - intros content. unfold client.Chat.
    destruct (client.Marshal h _) as [jsonData|?]; [|done].
    destruct (client.NewRequest h _ _ _); [done|].
    destruct (client.Do h _) as [resp|?]; [|done].
    destruct (client.ReadAll h resp) as [body|?]; [|done].
    destruct (client.Unmarshal h body) as [result|?] eqn:Hu; [|done].
    destruct (client.resp_Error result) eqn:He; [done|].
    destruct (client.Choices result) as [|first rest] eqn:Hc; [done|].
    intros [= <-]. by exists body, result, rest.
  - intros jsonData resp body result Hm Hn Hd Hr Hu.
    unfold client.Chat. rewrite Hm, Hn, Hd, Hr, Hu.
    split.
    + by intros message ->.
    + by intros -> ->.
Qed.

Lemma Chat_outcome_witness :
  client.Chat sample_http (client.NewLLMClient sample_model) "prompt"
  = Ok sample_response.
Proof.
  destruct (client.Chat sample_http (client.NewLLMClient sample_model) "prompt")
    as [content|e] eqn:Hchat; [|by vm_compute in Hchat].
  destruct (Chat_outcome sample_http (client.NewLLMClient sample_model)
              "prompt") as (_ & Hok & _).
  destruct (Hok content Hchat) as (body & result & rest & Hu & _ & Hc).
  vm_compute in Hu. injection Hu as <-. by injection Hc as <- _.
Defined.

(** X23. A client without a base URL of its own uses the default of its
    provider.  [GetBaseURL] and [GetDefaultModels] agree: each of the seven
    default models has the base URL [GetBaseURL] gives for its provider, no
    provider occurs twice, and any other provider gets the OpenAI
    endpoint. *)
Theorem GetBaseURL_defaults :
  (∀ m, m ∈ models.GetDefaultModels →
        models.GetBaseURL (Provider m) = BaseURL m) ∧
  NoDup (Provider <$> models.GetDefaultModels) ∧
  (∀ provider, provider ∉ Provider <$> models.GetDefaultModels →
     models.GetBaseURL provider = models.DefaultOpenAIBaseURL) ∧
  (∀ config,
     client.baseURL (client.NewLLMClient config)
     = if decide (cfg_BaseURL config = "")
       then models.GetBaseURL (cfg_Provider config)
       else cfg_BaseURL config) ∧
  (∀ m, m ∈ models.GetDefaultModels →
     client.baseURL
       (client.NewLLMClient
          {| Name := DisplayName m; cfg_Provider := Provider m;
             cfg_Model := Model_id m; APIKey := ""; cfg_BaseURL := "" |})
     = BaseURL m).
Proof.
  assert (∀ m, m ∈ models.GetDefaultModels →
            models.GetBaseURL (Provider m) = BaseURL m) as Hagree.
  { intros m Hm. unfold models.GetDefaultModels in Hm.
    rewrite !elem_of_cons, elem_of_nil in Hm.
    repeat (destruct Hm as [->|Hm]; [reflexivity|]). done. }
  split_and!.
  - done.
  - apply (bool_decide_unpack _). by vm_compute.
  - intros provider Hp. unfold models.GetBaseURL.
    repeat (destruct (decide _) as [->|_];
            [exfalso; apply Hp; apply (bool_decide_unpack _); by vm_compute|]).
    done.
  - done.
  - intros m Hm. unfold client.NewLLMClient. simpl. by apply Hagree.
Qed.

(** ** One run *)

Lemma runSingleBenchmark_cases (w : World) (snapshotID : string)
    (mc : ModelConfig) (prompt : string) (expected : IndicatorResult)
    (runIndex : Z) :
  let r := orchestrator.runSingleBenchmark w snapshotID mc prompt expected
             runIndex in
  let chat := Chat w mc snapshotID runIndex prompt in
  SnapshotID r = snapshotID ∧ Model r = Name mc ∧ RunIndex r = runIndex ∧
  Expected r = Some expected ∧ RawOutput r = chat.1 ∧
  Latency r = Chat_latency w mc snapshotID runIndex ∧
  match chat.2 with
  | Some e =>
      Error r = e ∧ Actual r = None ∧ Scores r = None ∧
      TotalScore r = 0%float
  | None =>
      match llm.ParseIndicatorResponse (json_parse w) (ParseFloat w) chat.1
      with
      | Err e =>
          Error r = "parse response: " +:+ e ∧ Actual r = None ∧
          Scores r = None ∧ TotalScore r = 0%float
      | Ok actual =>
          Error r = "" ∧ Actual r = Some actual ∧
          Scores r = Some (ScoreIndicators expected actual).1 ∧
          Errors r = (ScoreIndicators expected actual).2 ∧
          TotalScore r = CalculateTotalScore (ScoreIndicators expected actual).1
      end
  end.
Proof.
  cbv zeta. unfold orchestrator.runSingleBenchmark.
  destruct (Chat w mc snapshotID runIndex prompt) as [response [e|]]; [done|].
  cbn [fst snd].
  destruct (llm.ParseIndicatorResponse _ _ response) as [actual|e]; [|done].
  by destruct (ScoreIndicators expected actual) as [sc errs] eqn:Hsc.
Qed.

(** X24. A run is either scored or failed, and its [Error] tells which: an
    empty [Error] comes with the parsed answer, its scores and a total
    score that is their mean; a failed run, whether the chat or the parsing
    failed, has a non-empty [Error], no answer, no scores and the total
    score 0.  Either way the total score lies between 0 and 100. *)
Theorem runSingleBenchmark_outcome (w : World) (h : client.Http)
    (snapshotID : string) (mc : ModelConfig) (prompt : string)
    (expected : IndicatorResult) (runIndex : Z) :
  Chat w mc snapshotID runIndex prompt
    = client.as_pair (client.Chat h (client.NewLLMClient mc) prompt) →
  let r := orchestrator.runSingleBenchmark w snapshotID mc prompt expected
             runIndex in
  SnapshotID r = snapshotID ∧ Model r = Name mc ∧ RunIndex r = runIndex ∧
  Expected r = Some expected ∧
  ((Error r = "" ∧
    ∃ actual,
      llm.ParseIndicatorResponse (json_parse w) (ParseFloat w) (RawOutput r)
        = Ok actual ∧
      Actual r = Some actual ∧
      Scores r = Some (ScoreIndicators expected actual).1 ∧
      Errors r = (ScoreIndicators expected actual).2 ∧
      TotalScore r = CalculateTotalScore (ScoreIndicators expected actual).1) ∨
   (Error r ≠ "" ∧ Actual r = None ∧ Scores r = None ∧
    TotalScore r = 0%float)) ∧
  (0 <=? TotalScore r)%float = true ∧ (TotalScore r <=? 100)%float = true.
Proof.
  intros Hchat.
  pose proof (runSingleBenchmark_cases w snapshotID mc prompt expected runIndex)
    as (H1 & H2 & H3 & H4 & Hraw & _ & Hcase).
  cbv zeta in *. rewrite Hchat in Hcase, Hraw.
  set (r := orchestrator.runSingleBenchmark w snapshotID mc prompt expected
              runIndex) in *.
  do 4 (split; [done|]).
  destruct (client.Chat h (client.NewLLMClient mc) prompt) as [response|e]
    eqn:Hc; cbn [client.as_pair fst snd] in Hcase, Hraw.
  - rewrite Hraw.
    destruct (llm.ParseIndicatorResponse _ _ response) as [actual|e].
    + destruct Hcase as (He & Ha & Hs & Herr & Ht).
      split; [left; split; [done|]; by exists actual|].
      rewrite Ht.
      destruct (CalculateTotalScore_bounds expected actual) as [? ?]. done.
    + destruct Hcase as (He & Ha & Hs & Ht).
      split; [right; by rewrite He|]. by rewrite Ht.
  - destruct Hcase as (He & Ha & Hs & Ht).
    split; [|by rewrite Ht].
    right. rewrite He. split; [|done]. by eapply Chat_error_nonempty.
Qed.

Lemma runSingleBenchmark_outcome_witness :
  let r := orchestrator.runSingleBenchmark online "20240101_000000_BTCUSDT_1h"
             sample_model "prompt" zero_IndicatorResult 0 in
  Error r = "" ∧ (0 <=? TotalScore r)%float = true ∧
  (TotalScore r <=? 100)%float = true.
Proof.
  intros r.
  destruct (runSingleBenchmark_outcome online sample_http
              "20240101_000000_BTCUSDT_1h" sample_model "prompt"
              zero_IndicatorResult 0 eq_refl)
    as (_ & _ & _ & _ & _ & Hlo & Hhi).
  split; [by vm_compute|]. done.
Defined.
(** ** Response parsing, continued *)

Lemma byte_eqb_true (a b : ascii) : byte_eqb a b = true ↔ a = b.
Proof. apply Ascii.eqb_eq. Qed.

Lemma byte_eqb_false (a b : ascii) : byte_eqb a b = false ↔ a ≠ b.
Proof. apply Ascii.eqb_neq. Qed.

(** [ParseIndicatorResponse] in two steps: the direct parse, then the parse
    of the extracted text into the same result. *)
Lemma ParseIndicatorResponse_steps (json_parse : string → option llm.json)
    (ParseFloat : string → option float) (response : string) :
  llm.ParseIndicatorResponse json_parse ParseFloat response =
    match llm.Unmarshal json_parse ParseFloat response zero_IndicatorResult with
    | (result, None) => Ok result
    | (result, Some _) =>
        if decide (extracted response = []) then
          Err "no JSON found in response"
        else
          match llm.Unmarshal json_parse ParseFloat
                  (of_bytes (extracted response)) result with
          | (result, None) => Ok result
          | (_, Some e) => Err ("parse JSON failed: " +:+ e)
          end
    end.
Proof. reflexivity. Qed.

Lemma FindString_skip (pre rest : list ascii) :
  "{"%char ∉ pre →
  llm.FindString_ma20 (pre ++ rest) = llm.FindString_ma20 rest.
Proof.
  induction pre as [|c pre IH]; [done|].
  intros [Hc Hpre]%not_elem_of_cons. simpl.
  destruct (byte_eqb c "{") eqn:Hb; [by apply byte_eqb_true in Hb|].
  by apply IH.
Qed.

Lemma brace_free_run_app (inner post : list ascii) :
  "{"%char ∉ inner → "}"%char ∉ inner →
  llm.brace_free_run (inner ++ "}"%char :: post) = (inner, "}"%char :: post).
Proof.
  induction inner as [|c inner IH]; [done|].
  intros [Hc1 H1]%not_elem_of_cons [Hc2 H2]%not_elem_of_cons. simpl.
  destruct (byte_eqb c "{") eqn:Hb1; [by apply byte_eqb_true in Hb1|].
  destruct (byte_eqb c "}") eqn:Hb2; [by apply byte_eqb_true in Hb2|].
  simpl. by rewrite IH.
Qed.

(** The regular expression finds an object that stands behind text free of
    opening braces. *)
Lemma FindString_object (pre inner post : list ascii) :
  "{"%char ∉ pre → "{"%char ∉ inner → "}"%char ∉ inner →
  contains llm.quoted_ma20 inner = true →
  llm.FindString_ma20 (pre ++ "{"%char :: inner ++ "}"%char :: post)
  = "{"%char :: inner ++ ["}"%char].
Proof.
  intros Hpre H1 H2 Hma. rewrite FindString_skip by done.
  cbn [llm.FindString_ma20].
  change (byte_eqb "{" "{") with true. cbv iota.
  rewrite brace_free_run_app by done.
  change (byte_eqb "}" "}") with true. by rewrite Hma.
Qed.

Lemma FindString_needs_open (l : list ascii) :
  "{"%char ∉ l → llm.FindString_ma20 l = [].
Proof.
  intros H. rewrite <- (app_nil_r l). by rewrite FindString_skip.
Qed.

Lemma FindString_needs_close (l : list ascii) :
  "}"%char ∉ l → llm.FindString_ma20 l = [].
Proof.
  induction l as [|c l IH]; [done|].
  intros [Hc Hl]%not_elem_of_cons. cbn [llm.FindString_ma20].
  destruct (byte_eqb c "{"); [|by apply IH].
  destruct (llm.brace_free_run l) as [run rest] eqn:Hrun.
  destruct rest as [|d rest]; [by apply IH|].
  destruct (byte_eqb d "}") eqn:Hd; [|by apply IH].
  apply byte_eqb_true in Hd as ->. exfalso. apply Hl.
  clear -Hrun. revert run Hrun. induction l as [|x l IHl]; intros run; [done|].
  simpl. destruct (byte_eqb x "{" || byte_eqb x "}").
  - intros [= _ ->]. by left.
  - destruct (llm.brace_free_run l) as [run' rest'].
    intros [= _ ->]. right. by eapply IHl.
Qed.

Lemma index_byte_None (c : ascii) (l : list ascii) :
  c ∉ l → index_byte c l = None.
Proof.
  induction l as [|x l IH]; [done|].
  intros [Hx Hl]%not_elem_of_cons. simpl.
  destruct (byte_eqb x c) eqn:Hb; [by apply byte_eqb_true in Hb|].
  by rewrite IH.
Qed.

Lemma last_index_byte_None (c : ascii) (l : list ascii) :
  c ∉ l → last_index_byte c l = None.
Proof.
  induction l as [|x l IH]; [done|].
  intros [Hx Hl]%not_elem_of_cons. simpl. rewrite IH by done.
  destruct (byte_eqb x c) eqn:Hb; [by apply byte_eqb_true in Hb|done].
Qed.

Lemma extracted_no_braces (response : string) :
  "{"%char ∉ bytes response ∨ "}"%char ∉ bytes response →
  extracted response = [].
Proof.
  intros H. unfold extracted.
  assert (llm.FindString_ma20 (bytes response) = []) as ->.
  { destruct H; [by apply FindString_needs_open|by apply FindString_needs_close]. }
  destruct (decide _); [|done].
  destruct H as [H|H].
  - by rewrite index_byte_None.
  - rewrite last_index_byte_None by done. by destruct (index_byte _ _).
Qed.

(** X25. A reply that is the JSON value [null] is accepted as an answer in
    which all ten indicators are 0.  A reply the direct parse rejects and
    that lacks an opening or a closing brace is refused with the error
    [no JSON found in response]. *)
Theorem ParseIndicatorResponse_without_object
    (json_parse : string → option llm.json)
    (ParseFloat : string → option float) (response : string) :
  (json_parse response = Some llm.JNull →
   llm.ParseIndicatorResponse json_parse ParseFloat response
   = Ok zero_IndicatorResult) ∧
  ((llm.Unmarshal json_parse ParseFloat response zero_IndicatorResult).2
     ≠ None →
   "{"%char ∉ bytes response ∨ "}"%char ∉ bytes response →
   llm.ParseIndicatorResponse json_parse ParseFloat response
   = Err "no JSON found in response").
Proof.
  split.
  - intros Hnull. rewrite ParseIndicatorResponse_steps.
    unfold llm.Unmarshal. by rewrite Hnull.
  - intros Hfail Hbrace. rewrite ParseIndicatorResponse_steps.
    destruct (llm.Unmarshal _ _ response _) as [r1 [e|]]; [|done].
    by rewrite extracted_no_braces.
Qed.

Lemma ParseIndicatorResponse_without_object_witness :
  llm.ParseIndicatorResponse sample_json_parse sample_ParseFloat
    "I cannot compute these indicators."
  = Err "no JSON found in response".
Proof.
  apply (ParseIndicatorResponse_without_object sample_json_parse
           sample_ParseFloat "I cannot compute these indicators.").
  - by vm_compute.
  - left. apply (bool_decide_unpack _). by vm_compute.
Defined.

(** X26. When the reply is not JSON as a whole but holds, behind text free
    of opening braces, an object without inner braces that mentions
    ["ma20"], that object is what gets decoded; if it holds numbers under
    some of the ten keys, the reply is accepted and the indicators it does
    not mention are 0. *)
Theorem ParseIndicatorResponse_extracts_object
    (json_parse : string → option llm.json)
    (ParseFloat : string → option float)
    (pre inner post : list ascii) :
  let response := of_bytes (pre ++ "{"%char :: inner ++ "}"%char :: post) in
  let object := of_bytes ("{"%char :: inner ++ ["}"%char]) in
  json_parse response = None →
  "{"%char ∉ pre → "{"%char ∉ inner → "}"%char ∉ inner →
  contains llm.quoted_ma20 inner = true →
  llm.ParseIndicatorResponse json_parse ParseFloat response =
    match llm.Unmarshal json_parse ParseFloat object zero_IndicatorResult with
    | (result, None) => Ok result
    | (_, Some e) => Err ("parse JSON failed: " +:+ e)
    end ∧
  ∀ members,
    json_parse object = Some (llm.JObject members) →
    (∀ k v, (k, v) ∈ members →
       (∃ f, k = llm.key_of f) ∧
       ∃ literal x, v = llm.JNumber literal ∧ ParseFloat literal = Some x) →
    ∃ r, llm.ParseIndicatorResponse json_parse ParseFloat response = Ok r ∧
         ∀ f, llm.key_of f ∉ members.*1 → llm.get f r = 0%float.
Proof.
  intros response object Hbad Hpre H1 H2 Hma.
  assert (extracted response = "{"%char :: inner ++ ["}"%char]) as Hext.
  { unfold extracted, response. rewrite bytes_of_bytes.
    by rewrite FindString_object. }
  assert (llm.ParseIndicatorResponse json_parse ParseFloat response =
    match llm.Unmarshal json_parse ParseFloat object zero_IndicatorResult with
    | (result, None) => Ok result
    | (_, Some e) => Err ("parse JSON failed: " +:+ e)
    end) as Hparse.
  { rewrite ParseIndicatorResponse_steps.
    unfold llm.Unmarshal at 1. rewrite Hbad, Hext. done. }
  split; [done|].
  intros members Hobj Hnum. rewrite Hparse.
  unfold llm.Unmarshal. rewrite Hobj.
  destruct (decode_members json_parse ParseFloat members zero_IndicatorResult
              Hnum) as (r & -> & Hr).
  exists r. split; [done|]. intros f Hf. rewrite Hr by done. by destruct f.
Qed.

Lemma ParseIndicatorResponse_extracts_object_witness :
  ∃ r, llm.ParseIndicatorResponse sample_json_parse sample_ParseFloat
         prose_response = Ok r ∧
       RSI14 r = 0%float.
Proof.
  destruct (ParseIndicatorResponse_extracts_object sample_json_parse
              sample_ParseFloat (bytes "Here you are: ")
              (llm.quoted_ma20 ++ bytes ": 101.5") (bytes " Done."))
    as [_ Hnum].
  - by vm_compute.
  - apply (bool_decide_unpack _). by vm_compute.
  - apply (bool_decide_unpack _). by vm_compute.
  - apply (bool_decide_unpack _). by vm_compute.
  - by vm_compute.
  - destruct (Hnum [("ma20", llm.JNumber "101.5")]) as (r & Hr & Hzero).
    + by vm_compute.
    + intros k v [= -> ->]%list_elem_of_singleton. split.
      * by exists llm.F_ma20.
      * by exists "101.5", 101.5%float.
    + exists r. split; [exact Hr|].
      apply (Hzero llm.F_rsi14). apply (bool_decide_unpack _). by vm_compute.
Defined.

(** X27. When the direct parse fails on a value of the wrong type, the
    fields it had decoded by then stay in the result: the text extracted
    afterwards is decoded into the same record, so an indicator the
    extracted object does not mention keeps the value of the direct parse
    rather than 0. *)
Theorem fallback_keeps_direct_fields
    (json_parse : string → option llm.json)
    (ParseFloat : string → option float)
    (response : string) (direct : IndicatorResult) (e : string)
    (members : list (string * llm.json)) :
  llm.Unmarshal json_parse ParseFloat response zero_IndicatorResult
    = (direct, Some e) →
  extracted response ≠ [] →
  json_parse (of_bytes (extracted response)) = Some (llm.JObject members) →
  (∀ k v, (k, v) ∈ members →
     (∃ f, k = llm.key_of f) ∧
     ∃ literal x, v = llm.JNumber literal ∧ ParseFloat literal = Some x) →
  ∃ r, llm.ParseIndicatorResponse json_parse ParseFloat response = Ok r ∧
       ∀ f, llm.key_of f ∉ members.*1 → llm.get f r = llm.get f direct.
Proof.
  intros Hdirect Hext Hobj Hnum.
  rewrite ParseIndicatorResponse_steps, Hdirect.
  destruct (decide _); [done|].
  unfold llm.Unmarshal. rewrite Hobj.
  destruct (decode_members json_parse ParseFloat members direct Hnum)
    as (r & -> & Hr).
  by exists r.
Qed.

Lemma fallback_keeps_direct_fields_witness :
  ∃ r, llm.ParseIndicatorResponse nested_json_parse nested_ParseFloat
         nested_response = Ok r ∧
       RSI14 r = 7%float.
Proof.
  destruct (fallback_keeps_direct_fields nested_json_parse nested_ParseFloat
              nested_response
              (llm.set llm.F_rsi14 7 zero_IndicatorResult)
              "json: cannot unmarshal value into Go struct field of type float64"
              [("ma20", llm.JNumber "3")])
    as (r & Hr & Hkeep).
  - by vm_compute.
  - by vm_compute.
  - by vm_compute.
  - intros k v [= -> ->]%list_elem_of_singleton. split.
    + by exists llm.F_ma20.
    + by exists "3", 3%float.
  - exists r. split; [exact Hr|].
    apply (Hkeep llm.F_rsi14). apply (bool_decide_unpack _). by vm_compute.
Defined.
(** ** IEEE 754 facts about lower bounds and quotients

    Rounding to nearest is monotone around the numbers of the format: a
    value that is at least a canonical number [Bm * 2^Be] rounds to at
    least that number, and a truncated value below it rounds to at most
    it, whatever was cut off. *)

Lemma valid_binary_exponent (s : bool) (m : positive) (e : Z) :
  valid_binary (S754_finite s m e) = true → (e ≤ 971)%Z.
Proof.
  unfold SpecFloat.valid_binary, bounded. intros [_ He]%andb_prop.
  apply Z.leb_le in He. unfold emax, prec in He. lia.
Qed.

Lemma binary_round_aux_le_loc (m : positive) (e : Z) (l : location)
    (Bm : positive) (Be : Z) :
  (-1074 ≤ e ≤ Be)%Z → (Be ≤ 971)%Z →
  fexp prec emax (Z.log2 (Zpos Bm) + 1 + Be) = Be →
  (Zpos m < Zpos Bm * 2 ^ (Be - e))%Z →
  SFleb (binary_round_aux prec emax false (Zpos m) e l)
        (S754_finite false Bm Be) = true.
Proof.
  intros He HBe Hcan Hlt. unfold binary_round_aux.
  destruct (shr_fexp_spec m e l) as (r1 & -> & Hr1).
  set (n1 := Z.max 0 (fexp prec emax (Z.log2 (Zpos m) + 1 + e) - e)) in *.
  pose proof (Z.log2_nonneg (Zpos m)) as HL0.
  pose proof (log2_lt_mul_pow2 (Zpos m) (Zpos Bm) (Be - e)
                ltac:(lia) ltac:(lia) ltac:(lia) Hlt) as HL.
  pose proof (fexp_mono (Z.log2 (Zpos m) + 1 + e)
                (Z.log2 (Zpos Bm) + 1 + Be) ltac:(lia)) as Hf1.
  assert (0 ≤ n1 ≤ Z.log2 (Zpos m))%Z as Hn1.
  { unfold n1, fexp, emin, prec, emax. lia. }
  assert (e + n1 ≤ Be)%Z as He1 by (unfold n1; lia).
  assert (0 < shr_m r1)%Z as Hm1 by (rewrite Hr1; apply shiftr_pos; lia).
  assert (shr_m r1 < Zpos Bm * 2 ^ (Be - (e + n1)))%Z as Hb1.
  { rewrite Hr1, Z.shiftr_div_pow2 by lia.
    apply Z.div_lt_upper_bound; [by apply Z.pow_pos_nonneg; lia|].
    rewrite Z.mul_comm, <- Z.mul_assoc, <- Z.pow_add_r by lia.
    by replace (Be - (e + n1) + n1)%Z with (Be - e)%Z by lia. }
  pose proof (round_nearest_even_bounds (shr_m r1) (loc_of_shr_record r1)) as Hrne.
  destruct (round_nearest_even (shr_m r1) (loc_of_shr_record r1))
    as [|q|q] eqn:Erne; [lia| |lia].
  destruct (shr_fexp_spec q (e + n1) loc_Exact) as (r2 & -> & Hr2).
  set (n2 := Z.max 0 (fexp prec emax (Z.log2 (Zpos q) + 1 + (e + n1))
                        - (e + n1))) in *.
  pose proof (Z.log2_nonneg (Zpos q)) as HLq0.
  assert (Z.log2 (Zpos q) ≤ Z.log2 (Zpos Bm) + (Be - (e + n1)))%Z as HLq.
  { rewrite Z.add_comm, <- Z.log2_mul_pow2 by lia.
    apply Z.log2_le_mono. lia. }
  pose proof (fexp_mono (Z.log2 (Zpos q) + 1 + (e + n1))
                (Z.log2 (Zpos Bm) + 1 + Be) ltac:(lia)) as Hf2.
  assert (0 ≤ n2 ≤ Z.log2 (Zpos q))%Z as Hn2.
  { unfold n2, fexp, emin, prec, emax. lia. }
  assert (e + n1 + n2 ≤ Be)%Z as He2 by (unfold n2; lia).
  assert (0 < shr_m r2)%Z as Hm2 by (rewrite Hr2; apply shiftr_pos; lia).
  assert (shr_m r2 ≤ Zpos Bm * 2 ^ (Be - (e + n1 + n2)))%Z as Hb2.
  { rewrite Hr2, Z.shiftr_div_pow2 by lia.
    apply Z.div_le_upper_bound; [by apply Z.pow_pos_nonneg; lia|].
    rewrite Z.mul_comm, <- Z.mul_assoc, <- Z.pow_add_r by lia.
    replace (Be - (e + n1 + n2) + n2)%Z with (Be - (e + n1))%Z by lia. lia. }
  destruct (shr_m r2) as [|m'|m'] eqn:Em; [lia| |lia].
  destruct (Z.leb_spec (e + n1 + n2) (emax - prec));
    [|unfold emax, prec in *; lia].
  unfold SFleb. simpl.
  destruct (Z.compare_spec (e + n1 + n2) Be) as [Heq|?|?]; [|done|lia].
  rewrite Heq, Z.sub_diag, Z.pow_0_r, Z.mul_1_r in Hb2.
  change (Pos.compare_cont Eq m' Bm) with (Zpos m' ?= Zpos Bm)%Z.
  by destruct (Z.compare_spec (Zpos m') (Zpos Bm)); [..|lia].
Qed.

Lemma binary_round_aux_ge (m : positive) (e : Z) (l : location)
    (Bm : positive) (Be : Z) :
  (-1074 ≤ e ≤ Be)%Z →
  fexp prec emax (Z.log2 (Zpos Bm) + 1 + Be) = Be →
  (Zpos Bm * 2 ^ (Be - e) ≤ Zpos m)%Z →
  SFleb (S754_finite false Bm Be)
        (binary_round_aux prec emax false (Zpos m) e l) = true.
Proof.
  intros He Hcan Hge. unfold binary_round_aux.
  destruct (shr_fexp_spec m e l) as (r1 & -> & Hr1).
  set (n1 := Z.max 0 (fexp prec emax (Z.log2 (Zpos m) + 1 + e) - e)) in *.
  pose proof (Z.log2_nonneg (Zpos m)) as HL0.
  pose proof (Z.log2_nonneg (Zpos Bm)) as HLB0.
  assert (Z.log2 (Zpos Bm) + (Be - e) ≤ Z.log2 (Zpos m))%Z as HL.
  { rewrite Z.add_comm, <- Z.log2_mul_pow2 by lia.
    apply Z.log2_le_mono. lia. }
  pose proof (fexp_mono (Z.log2 (Zpos Bm) + 1 + Be)
                (Z.log2 (Zpos m) + 1 + e) ltac:(lia)) as Hf1.
  assert (0 ≤ n1 ≤ Z.log2 (Zpos m))%Z as Hn1.
  { unfold n1, fexp, emin, prec, emax. lia. }
  assert (Be ≤ e + n1)%Z as He1 by (unfold n1; lia).
  assert (0 < shr_m r1)%Z as Hm1 by (rewrite Hr1; apply shiftr_pos; lia).
  pose proof (round_nearest_even_bounds (shr_m r1) (loc_of_shr_record r1)) as Hrne.
  destruct (round_nearest_even (shr_m r1) (loc_of_shr_record r1))
    as [|q|q] eqn:Erne; [lia| |lia].
  destruct (shr_fexp_spec q (e + n1) loc_Exact) as (r2 & -> & Hr2).
  set (n2 := Z.max 0 (fexp prec emax (Z.log2 (Zpos q) + 1 + (e + n1))
                        - (e + n1))) in *.
  pose proof (Z.log2_nonneg (Zpos q)) as HLq0.
  assert (0 ≤ n2 ≤ Z.log2 (Zpos q))%Z as Hn2.
  { unfold n2, fexp, emin, prec, emax.
    assert (Z.log2 (shr_m r1) ≤ Z.log2 (Zpos q))%Z
      by (apply Z.log2_le_mono; lia).
    lia. }
  assert (0 < shr_m r2)%Z as Hm2 by (rewrite Hr2; apply shiftr_pos; lia).
  destruct (shr_m r2) as [|m'|m'] eqn:Em; [lia| |lia].
  destruct (Z.leb_spec (e + n1 + n2) (emax - prec)); [|done].
  unfold SFleb. simpl.
  destruct (Z.compare_spec Be (e + n1 + n2)) as [Heq|?|?]; [|done|lia].
  assert (n2 = 0 ∧ e + n1 = Be)%Z as [Hn20 Hen1] by lia.
  rewrite Hn20, Z.shiftr_0_r in Hr2.
  assert (Zpos Bm ≤ shr_m r1)%Z as Hb1.
  { rewrite Hr1, Z.shiftr_div_pow2 by lia.
    apply Z.div_le_lower_bound; [by apply Z.pow_pos_nonneg; lia|].
    replace n1 with (Be - e)%Z by lia. lia. }
  change (Pos.compare_cont Eq Bm m') with (Zpos Bm ?= Zpos m')%Z.
  destruct (Z.compare_spec (Zpos Bm) (Zpos m')); [done..|lia].
Qed.

Lemma binary_round_ge (p : positive) (e : Z) (Bm : positive) (Be : Z) :
  (-1074 ≤ e ≤ Be)%Z →
  fexp prec emax (Z.log2 (Zpos Bm) + 1 + Be) = Be →
  (Zpos Bm * 2 ^ (Be - e) ≤ Zpos p)%Z →
  SFleb (S754_finite false Bm Be) (binary_round prec emax false p e) = true.
Proof.
  intros He Hcan Hge. unfold binary_round.
  set (e0 := fexp prec emax (Zpos (digits2_pos p) + e)).
  assert (-1074 ≤ e0)%Z by (unfold e0, fexp, emin, prec, emax; lia).
  unfold shl_align.
  destruct (e0 - e)%Z as [|d|d] eqn:Ed;
    try (apply binary_round_aux_ge; done).
  apply binary_round_aux_ge; try done; [lia|].
  change (Pos.iter xO p d) with (shift_pos d p).
  rewrite shift_pos_correct. change (Z.pow_pos 2 d) with (2 ^ Zpos d)%Z.
  replace (Be - e0)%Z with ((Be - e) + Zpos d)%Z by lia.
  rewrite Z.pow_add_r by lia.
  assert (0 < 2 ^ Zpos d)%Z by (apply Z.pow_pos_nonneg; lia).
  nia.
Qed.
(** Adding a positive number to 1 gives at least 1. *)
Lemma one_plus_ge (x : float) (m : positive) (e : Z) :
  Prim2SF x = S754_finite false m e → (1 <=? 1 + x)%float = true.
Proof.
  intros Hx. pose proof (Prim2SF_valid x) as Vx. rewrite Hx in Vx.
  destruct (valid_binary_bounds _ _ _ Vx) as (He & _).
  rewrite leb_spec, add_spec, Hx.
  change (Prim2SF 1) with (S754_finite false 4503599627370496 (-52)).
  unfold SF64add, SFadd. simpl cond_Zopp.
  set (ez := Z.min (-52) e).
  assert (-1074 ≤ ez ≤ -52)%Z by (unfold ez; lia).
  pose proof (shl_align_fst 4503599627370496 (-52) ez ltac:(lia)) as Ha.
  set (a := (shl_align 4503599627370496 (-52) ez).1) in *.
  set (b := (shl_align m e ez).1).
  change (Zpos a + Zpos b)%Z with (Zpos (a + b)).
  cbn [binary_normalize].
  apply binary_round_ge; [lia|done|]. rewrite Pos2Z.inj_add, Ha. lia.
Qed.

(** Dividing 100 by a number that is at least 1 gives a number between 0
    and 100. *)
Lemma div_100_le (d : float) :
  (1 <=? d)%float = true →
  SFpos0 (Prim2SF (100 / d)) = true ∧ (100 / d <=? 100)%float = true.
Proof.
  rewrite !leb_spec, div_spec.
  pose proof (Prim2SF_valid d) as Vd.
  change (Prim2SF 1) with (S754_finite false 4503599627370496 (-52)).
  change (Prim2SF 100) with (S754_finite false 7036874417766400 (-46)).
  destruct (Prim2SF d) as [[]|[]| |[] md ed]; try done.
  intros Hle.
  destruct (valid_binary_bounds _ _ _ Vd) as (Hed & Hmd & Hnorm).
  pose proof (valid_binary_exponent _ _ _ Vd) as Hed'.
  unfold SFleb in Hle.
  destruct (SFcompare (S754_finite false 4503599627370496 (-52))
              (S754_finite false md ed)) as [[]|] eqn:Hcmp; try done.
  - assert (ed = (-52)%Z ∧ md = 4503599627370496%positive) as [-> ->].
    { cbn [SFcompare] in Hcmp.
      destruct (Z.compare_spec (-52) ed) as [Heq| |]; try done.
      split; [done|]. symmetry. apply Pos.compare_eq.
      by injection Hcmp. }
    by vm_compute.
  - pose proof (canonical_lt_aligned 4503599627370496 md (-52) ed
                  eq_refl Vd Hcmp) as Hlt.
    cbv zeta in Hlt. rewrite !shl_align_fst in Hlt by lia.
    set (L := Z.log2 (Zpos md)).
    destruct (Z.log2_spec (Zpos md)) as [HLlo HLhi]; [lia|]. fold L in HLlo, HLhi.
    pose proof (Z.log2_nonneg (Zpos md)) as HL0. fold L in HL0.
    assert (L ≤ 52)%Z as HL52.
    { apply Z.lt_succ_r. apply (Z.pow_lt_mono_r_iff 2); [lia..|].
      eapply Z.le_lt_trans; [apply HLlo|]. exact Hmd. }
    assert ((ed < 0)%Z → (2 ^ (- ed) < Zpos md)%Z) as HK.
    { intros Hneg.
      change (Zpos 4503599627370496) with (2 ^ 52)%Z in Hlt.
      destruct (Z.le_gt_cases ed (-52)).
      - rewrite Z.min_r, Z.sub_diag, Z.pow_0_r, Z.mul_1_r in Hlt by lia.
        rewrite <- Z.pow_add_r in Hlt by lia.
        by replace (52 + (-52 - ed))%Z with (- ed)%Z in Hlt by lia.
      - rewrite Z.min_l in Hlt by lia.
        change (2 ^ (-52 - -52))%Z with 1%Z in Hlt.
        assert (2 ^ 52 = 2 ^ (- ed) * 2 ^ (ed - -52))%Z as Hsplit.
        { rewrite <- Z.pow_add_r by lia. f_equal. lia. }
        assert (0 < 2 ^ (ed - -52))%Z by (apply Z.pow_pos_nonneg; lia).
        nia. }
    assert (0 ≤ L + ed)%Z as HLed.
    { destruct (Z.le_gt_cases 0 ed); [lia|].
      assert (- ed ≤ L)%Z; [|lia].
      apply Z.lt_succ_r. apply (Z.pow_lt_mono_r_iff 2); [lia..|].
      eapply Z.lt_trans; [apply HK; lia|]. by rewrite <- Z.add_1_r. }
    unfold SF64div, SFdiv, SFdiv_core_binary.
    rewrite !Zdigits2_log2. fold L.
    change (Z.log2 7036874417766400 + 1)%Z with 53%Z.
    assert (Z.min (fexp prec emax (53 + -46 - (L + 1 + ed))) (-46 - ed)
            = (-47 - L - ed)%Z) as ->.
    { unfold fexp, emin, prec, emax. lia. }
    replace (-46 - ed - (-47 - L - ed))%Z with (L + 1)%Z by lia.
    destruct (L + 1)%Z as [|s|s] eqn:Es; [lia| |lia].
    rewrite Z.shiftl_mul_pow2 by lia. rewrite <- Es.
    pose proof (Z.div_eucl_eq (7036874417766400 * 2 ^ (L + 1)) (Zpos md)
                  ltac:(lia)) as Hdiv.
    pose proof (Z.mod_pos_bound (7036874417766400 * 2 ^ (L + 1)) (Zpos md)
                  ltac:(lia)) as Hmod.
    unfold Z.modulo in Hmod.
    destruct (Z.div_eucl (7036874417766400 * 2 ^ (L + 1)) (Zpos md))
      as [q r].
    assert (0 < 2 ^ (L + 1))%Z as Hpow by (apply Z.pow_pos_nonneg; lia).
    assert (0 < q)%Z as Hq by nia.
    simpl xorb.
    split; [apply binary_round_aux_pos0; lia|].
    destruct q as [|qp|qp]; [lia| |lia].
    apply binary_round_aux_le_loc; [lia|lia|done|].
    replace (-46 - (-47 - L - ed))%Z with (1 + L + ed)%Z by lia.
    assert (2 ^ (L + 1) < Zpos md * 2 ^ (1 + L + ed))%Z as Hbig.
    { destruct (Z.le_gt_cases 0 ed).
      - replace (1 + L + ed)%Z with (L + 1 + ed)%Z by lia.
        rewrite (Z.pow_add_r 2 (L + 1) ed) by lia.
        assert (0 < 2 ^ ed)%Z as HE by (apply Z.pow_pos_nonneg; lia).
        specialize (Hnorm ltac:(lia)).
        assert (2 ≤ Zpos md)%Z as Hmd2
          by (change (2 ^ 52)%Z with 4503599627370496%Z in Hnorm; lia).
        generalize dependent (2 ^ (L + 1))%Z. intros P.
        generalize dependent (2 ^ ed)%Z. intros E. intros.
        assert (P * 1 ≤ P * E)%Z by (apply Z.mul_le_mono_nonneg_l; lia).
        assert (2 * (P * E) ≤ Zpos md * (P * E))%Z
          by (apply Z.mul_le_mono_nonneg_r; lia).
        lia.
      - assert (2 ^ (- ed) ≤ 2 ^ L)%Z by (apply Z.pow_le_mono_r; lia).
        assert (2 ^ (L + 1) = 2 ^ (1 + L + ed) * 2 ^ (- ed))%Z as ->.
        { rewrite <- Z.pow_add_r by lia. f_equal. lia. }
        assert (0 < 2 ^ (1 + L + ed))%Z by (apply Z.pow_pos_nonneg; lia).
        specialize (HK ltac:(lia)). nia. }
    nia.
Qed.
Lemma ltb_asym (a b : float) :
  (a <? b)%float = true → (b <? a)%float = false.
Proof.
  intros Hab. destruct (b <? a)%float eqn:Hba; [|done].
  apply ltb_leb in Hba. by rewrite (ltb_leb_false a b Hab) in Hba.
Qed.

Lemma leb_100_cases (q : float) :
  (q <=? 100)%float = true → (q <? 100)%float = true ∨ q = 100%float.
Proof.
  rewrite leb_spec, ltb_spec. unfold SFleb, SFltb.
  destruct (SFcompare (Prim2SF q) (Prim2SF 100)) as [[]|] eqn:Hcmp; try done.
  - intros _. right. apply Prim2SF_inj. revert Hcmp.
    change (Prim2SF 100) with (S754_finite false 7036874417766400 (-46)).
    destruct (Prim2SF q) as [[]|[]| |[] m e]; try done.
    cbn [SFcompare].
    destruct (Z.compare_spec e (-46)) as [->| |]; try done.
    destruct (Pos.compare_cont Eq m 7036874417766400) eqn:Hc; try done.
    by apply Pos.compare_eq in Hc as ->.
  - intros _. by left.
Qed.

(** [100 - 100 / (1 + rs)] for a ratio [rs] that is not negative: never a
    number below 0 or above 100. *)
Lemma rsi_of_ratio (rs : float) :
  nn rs →
  (100 - 100 / (1 + rs) <? 0)%float = false ∧
  (100 <? 100 - 100 / (1 + rs))%float = false.
Proof.
  unfold nn. intros Hnn.
  destruct (Prim2SF rs) as [[]|[]| |[] m e] eqn:Hrs; try done.
  - assert (rs = 0%float) as -> by by apply Prim2SF_inj. by vm_compute.
  - assert (rs = infinity) as -> by by apply Prim2SF_inj. by vm_compute.
  - assert (rs = nan) as -> by by apply Prim2SF_inj. by vm_compute.
  - pose proof (one_plus_ge rs m e Hrs) as Hd.
    destruct (div_100_le _ Hd) as [Hpos Hq].
    split.
    + destruct (leb_100_cases _ Hq) as [Hlt| ->]; [|by vm_compute].
      by apply ltb_asym, sub_pos_of_ltb.
    + by apply leb_ltb_false, sub_100_le.
Qed.

Lemma Forall_nn_gains (ds : list float) :
  Forall nn (filter (λ d, is_gain d) ds).
Proof.
  apply Forall_forall. intros d [Hd _]%list_elem_of_filter.
  apply nn_gain. by destruct (is_gain d).
Qed.

Lemma Forall_nn_abs (ds : list float) : Forall nn (abs <$> ds).
Proof. apply Forall_fmap, Forall_forall. intros d _. apply nn_abs. Qed.

Lemma nn_RSI_averages (closes : list float) (period : Z) :
  (1 ≤ period)%Z →
  nn (RSI_averages closes period).1 ∧ nn (RSI_averages closes period).2.
Proof.
  intros Hp. unfold RSI_averages.
  set (seed := take _ _).
  assert (nn (mean (filter (λ d, is_gain d) seed) period)) as Hg.
  { unfold mean, fsum. apply nn_div; [|apply nn_float64_of_int; lia].
    apply nn_fsum; [done|apply Forall_nn_gains]. }
  assert (nn (mean (abs <$> filter (λ d, ¬ is_gain d) seed) period)) as Hl.
  { unfold mean, fsum. apply nn_div; [|apply nn_float64_of_int; lia].
    apply nn_fsum; [done|apply Forall_nn_abs]. }
  revert Hg Hl.
  generalize (mean (filter (λ d, is_gain d) seed) period).
  generalize (mean (abs <$> filter (λ d, ¬ is_gain d) seed) period).
  induction (drop (Z.to_nat period) (deltas closes)) as [|d ds IH];
    intros l g Hg Hl; [done|].
  simpl. destruct (is_gain d) eqn:Hd; apply IH;
    apply nn_wilder; try done; [by apply nn_gain|apply nn_abs].
Qed.

(** X28. For a period of at least 1, [CalculateRSI] returns a value, and that
    value is never a number below 0 or above 100, whatever the closes are:
    the only other value it can take is NaN. *)
Theorem CalculateRSI_range (klines : list Kline) (period : Z) :
  (1 ≤ period)%Z →
  ∃ rsi, CalculateRSI klines period = Some rsi ∧
         (rsi <? 0)%float = false ∧ (100 <? rsi)%float = false.
Proof.
  intros Hp. destruct (Z.le_gt_cases (len klines) period) as [Hle|Hgt].
  - exists 0%float. split; [|done]. unfold CalculateRSI.
    by destruct (Z.leb_spec (len klines) period); [|lia].
  - exists (RSI_spec (Close <$> klines) period).
    split; [apply CalculateRSI_fold; lia|].
    unfold RSI_spec.
    destruct (nn_RSI_averages (Close <$> klines) period Hp) as [Hg Hl].
    destruct (RSI_averages (Close <$> klines) period) as [g l].
    simpl in Hg, Hl.
    destruct (l =? 0)%float; [done|].
    apply rsi_of_ratio. by apply nn_div.
Qed.

Lemma CalculateRSI_range_witness :
  ∃ rsi, CalculateRSI (candle <$> [1; 2; 1.5; 4]%float) 2 = Some rsi ∧
         (rsi <? 0)%float = false ∧ (100 <? rsi)%float = false.
Proof.
  apply (CalculateRSI_range (candle <$> [1; 2; 1.5; 4]%float) 2%Z). lia.
Defined.
(** ** IEEE 754 facts about adding and subtracting a number that is not
    negative *)

Lemma valid_binary_canonical (s : bool) (m : positive) (e : Z) :
  valid_binary (S754_finite s m e) = true →
  fexp prec emax (Z.log2 (Zpos m) + 1 + e) = e.
Proof.
  unfold SpecFloat.valid_binary, bounded, canonical_mantissa.
  intros [Hc _]%andb_prop. apply Z.eqb_eq in Hc.
  change (Zpos (digits2_pos m)) with (Zdigits2 (Zpos m)) in Hc.
  by rewrite Zdigits2_log2 in Hc.
Qed.

(** Rounding does not look at the sign. *)
Lemma binary_round_aux_opp (m e : Z) (l : location) :
  binary_round_aux prec emax true m e l
  = SFopp (binary_round_aux prec emax false m e l).
Proof.
  unfold binary_round_aux.
  destruct (shr_fexp prec emax m e l) as [r1 e1].
  destruct (shr_fexp prec emax _ e1 loc_Exact) as [r2 e2].
  destruct (shr_m r2); [done| |done].
  by destruct (e2 <=? emax - prec)%Z.
Qed.

Lemma binary_round_opp (p : positive) (e : Z) :
  binary_round prec emax true p e = SFopp (binary_round prec emax false p e).
Proof.
  unfold binary_round. destruct (shl_align p e _) as [mz ez].
  apply binary_round_aux_opp.
Qed.

Lemma SFcompare_opp (a b : spec_float) :
  SFcompare (SFopp a) (SFopp b) = SFcompare b a.
Proof.
  destruct a as [[]|[]| |[] ma ea], b as [[]|[]| |[] mb eb]; try done;
    cbn [SFopp negb SFcompare]; f_equal;
    rewrite (Z.compare_antisym ea eb);
    destruct (ea ?= eb)%Z; simpl; try done;
    change (Pos.compare_cont Eq ?x ?y) with (x ?= y)%positive;
    by rewrite (Pos.compare_antisym ma mb), ?CompOpp_involutive.
Qed.

Lemma SFleb_opp (a b : spec_float) : SFleb (SFopp a) (SFopp b) = SFleb b a.
Proof. unfold SFleb. by rewrite SFcompare_opp. Qed.

Lemma SFleb_SFltb_false (a b : spec_float) :
  SFleb a b = true → SFltb b a = false.
Proof.
  unfold SFleb, SFltb. rewrite (SFcompare_swap a b).
  by destruct (SFcompare a b) as [[]|].
Qed.

Lemma SFltb_irrefl (a : spec_float) : SFltb a a = false.
Proof.
  unfold SFltb. rewrite SFcompare_rank.
  destruct (SFrank a) as [r|]; [|done].
  by rewrite (proj2 (lex3_Eq r r)).
Qed.

Lemma binary_round_pos0 (p : positive) (e : Z) :
  SFpos0 (binary_round prec emax false p e) = true.
Proof.
  unfold binary_round. destruct (shl_align p e _) as [mz ez].
  by apply binary_round_aux_pos0.
Qed.

(** The sum of a finite number and a positive one is at least the
    former. *)
Lemma SFadd_pos_ge (sx : bool) (mx : positive) (ex : Z)
    (mp : positive) (ep : Z) :
  valid_binary (S754_finite sx mx ex) = true →
  valid_binary (S754_finite false mp ep) = true →
  SFleb (S754_finite sx mx ex)
        (SFadd prec emax (S754_finite sx mx ex) (S754_finite false mp ep))
  = true.
Proof.
  intros Vx Vp.
  destruct (valid_binary_bounds _ _ _ Vx) as (Hex & _).
  destruct (valid_binary_bounds _ _ _ Vp) as (Hep & _).
  pose proof (valid_binary_exponent _ _ _ Vx) as Hex'.
  pose proof (valid_binary_canonical _ _ _ Vx) as Hcan.
  unfold SFadd. set (ez := Z.min ex ep).
  assert (-1074 ≤ ez ≤ ex)%Z as Hez by (unfold ez; lia).
  pose proof (shl_align_fst mx ex ez ltac:(lia)) as Ha.
  set (a := (shl_align mx ex ez).1) in *.
  set (b := (shl_align mp ep ez).1).
  destruct sx; cbn [cond_Zopp].
  - destruct (- Zpos a + Zpos b)%Z as [|p|p] eqn:Ez; cbn [binary_normalize].
    + done.
    + pose proof (binary_round_pos0 p ez) as Hr.
      by destruct (binary_round prec emax false p ez) as [[]|[]| |[] ? ?].
    + rewrite binary_round_opp.
      change (S754_finite true mx ex) with (SFopp (S754_finite false mx ex)).
      rewrite SFleb_opp. apply binary_round_le; [lia|lia|done|lia].
  - change (Zpos a + Zpos b)%Z with (Zpos (a + b)). cbn [binary_normalize].
    apply binary_round_ge; [lia|done|]. rewrite Pos2Z.inj_add. lia.
Qed.

(** The difference of a finite number and a positive one is at most the
    former. *)
Lemma SFsub_pos_le (sx : bool) (mx : positive) (ex : Z)
    (mp : positive) (ep : Z) :
  valid_binary (S754_finite sx mx ex) = true →
  valid_binary (S754_finite false mp ep) = true →
  SFleb (SFsub prec emax (S754_finite sx mx ex) (S754_finite false mp ep))
        (S754_finite sx mx ex)
  = true.
Proof.
  intros Vx Vp.
  destruct (valid_binary_bounds _ _ _ Vx) as (Hex & _).
  destruct (valid_binary_bounds _ _ _ Vp) as (Hep & _).
  pose proof (valid_binary_exponent _ _ _ Vx) as Hex'.
  pose proof (valid_binary_canonical _ _ _ Vx) as Hcan.
  unfold SFsub. set (ez := Z.min ex ep).
  assert (-1074 ≤ ez ≤ ex)%Z as Hez by (unfold ez; lia).
  pose proof (shl_align_fst mx ex ez ltac:(lia)) as Ha.
  set (a := (shl_align mx ex ez).1) in *.
  set (b := (shl_align mp ep ez).1).
  destruct sx; cbn [cond_Zopp].
  - change (- Zpos a - Zpos b)%Z with (Zneg (a + b)). cbn [binary_normalize].
    rewrite binary_round_opp.
    change (S754_finite true mx ex) with (SFopp (S754_finite false mx ex)).
    rewrite SFleb_opp.
    apply binary_round_ge; [lia|done|]. rewrite Pos2Z.inj_add. lia.
  - destruct (Zpos a - Zpos b)%Z as [|p|p] eqn:Ez; cbn [binary_normalize].
    + done.
    + apply binary_round_le; [lia|lia|done|lia].
    + rewrite binary_round_opp.
      pose proof (binary_round_pos0 p ez) as Hr.
      by destruct (binary_round prec emax false p ez) as [[]|[]| |[] ? ?].
Qed.

Lemma SFnn_not_below_zero (r : spec_float) :
  SFnn r = true → SFltb r (S754_zero false) = false.
Proof. by destruct r as [[]|[]| |[] ? ?]. Qed.

Lemma sqrt_not_below_zero (x : float) : (sqrt x <? 0)%float = false.
Proof.
  rewrite ltb_spec, sqrt_spec, Prim2SF_zero.
  destruct (Prim2SF x) as [[]|[]| |[] m e]; try done.
  unfold SF64sqrt, SFsqrt.
  destruct (SFsqrt_core_binary _ _ _ _) as [[q eq] lq].
  apply SFnn_not_below_zero, binary_round_aux_nn.
Qed.

Lemma mul_not_below_zero (x y : float) :
  (x <? 0)%float = false → (y <? 0)%float = false →
  (x * y <? 0)%float = false.
Proof.
  rewrite !ltb_spec, mul_spec, Prim2SF_zero.
  destruct (Prim2SF x) as [[]|[]| |[] mx ex], (Prim2SF y) as [[]|[]| |[] my ey];
    try done.
  intros _ _. apply SFnn_not_below_zero, binary_round_aux_nn.
Qed.

(** Adding a number that is not below zero never gives less, and
    subtracting it never gives more. *)
Lemma add_not_below (x p : float) :
  (p <? 0)%float = false → (x + p <? x)%float = false.
Proof.
  rewrite !ltb_spec, add_spec, Prim2SF_zero.
  pose proof (Prim2SF_valid x) as Vx. pose proof (Prim2SF_valid p) as Vp.
  destruct (Prim2SF p) as [[]|[]| |[] mp ep]; try done; intros _;
    destruct (Prim2SF x) as [[]|[]| |sx mx ex]; try done;
    try apply SFltb_irrefl.
  by apply SFleb_SFltb_false, SFadd_pos_ge.
Qed.

Lemma sub_not_above (x p : float) :
  (p <? 0)%float = false → (x <? x - p)%float = false.
Proof.
  rewrite !ltb_spec, sub_spec, Prim2SF_zero.
  pose proof (Prim2SF_valid x) as Vx. pose proof (Prim2SF_valid p) as Vp.
  destruct (Prim2SF p) as [[]|[]| |[] mp ep]; try done; intros _;
    destruct (Prim2SF x) as [[]|[]| |sx mx ex]; try done;
    try apply SFltb_irrefl.
  by apply SFleb_SFltb_false, SFsub_pos_le.
Qed.

(** X29. For a period that is not negative, where [len(klines) - period]
    stays an [int], and a multiplier that is not below zero, the Bollinger
    bands come out in order, whatever the series: the upper band is never
    below the middle one and the middle one never below the lower one,
    rounding included; the call does not panic. *)
Theorem CalculateBOLL_band_order
    (klines : list Kline) (period : Z) (multiplier : float) :
  (0 ≤ period)%Z →
  (multiplier <? 0)%float = false →
  ∃ upper middle lower : float,
    CalculateBOLL klines period multiplier = Some (upper, middle, lower) ∧
    (upper <? middle)%float = false ∧ (middle <? lower)%float = false.
Proof.
  intros H0 Hm. unfold CalculateBOLL.
  destruct (Z.ltb_spec (len klines) period) as [|Hge]; [by eexists _, _, _|].
  assert (∀ (body : Kline → float → float) (s : float),
            ∃ v, for_range (len klines - period) (len klines)
                   (λ i acc, k ← index klines i; Some (body k acc)) s
                 = Some v) as Hloop.
  { intros body s. unfold for_range.
    edestruct (for_steps_total (λ _ : float, True)) as (v & Hv & _);
      [done| |by eexists].
    intros j s' Hj _.
    destruct (index_is_Some klines (len klines - period + Z.of_nat j))
      as [k ->]; [lia|]. by eexists. }
  destruct (Hloop (λ k acc, acc + Close k)%float 0%float) as [sum Hsum].
  unfold add_field. rewrite Hsum. simpl.
  destruct (Hloop (λ k acc,
              acc + (Close k - sum / float64_of_int period)
                    * (Close k - sum / float64_of_int period))%float
              0%float) as [variance ->].
  simpl. eexists _, _, _. split; [done|].
  split; [apply add_not_below|apply sub_not_above];
    (apply mul_not_below_zero; [done|apply sqrt_not_below_zero]).
Qed.

Lemma CalculateBOLL_band_order_witness :
  ∃ upper middle lower : float,
    CalculateBOLL (candle <$> [1; 2; 4]%float) 2 2
      = Some (upper, middle, lower) ∧
    (upper <? middle)%float = false ∧ (middle <? lower)%float = false.
Proof. apply CalculateBOLL_band_order; [lia|reflexivity]. Defined.
(** ** IEEE 754 facts about rounding down

    Rounding to nearest gives back a number of the format for every value
    that lies less than half a unit in the last place above it: the bit
    below the last one kept decides, and it is 0 there. *)

Lemma shr_1_r (r : shr_record) :
  (0 ≤ shr_m r)%Z → shr_r (shr_1 r) = Z.odd (shr_m r).
Proof. destruct r as [[|[]|] ? ?]; simpl; try done; lia. Qed.

Lemma shr_r_iter (p : positive) (r : shr_record) :
  (0 ≤ shr_m r)%Z →
  shr_r (SpecFloat.iter_pos shr_1 p r) = Z.testbit (shr_m r) (Zpos p - 1).
Proof.
  intros Hr. rewrite iter_pos_iter.
  enough (0 ≤ shr_m (Pos.iter shr_1 r p) ∧
          shr_m (Pos.iter shr_1 r p) = Z.shiftr (shr_m r) (Zpos p) ∧
          shr_r (Pos.iter shr_1 r p) = Z.testbit (shr_m r) (Zpos p - 1))%Z
    by tauto.
  apply (Pos.iter_ind _ shr_1 r
    (λ q r', 0 ≤ shr_m r' ∧ shr_m r' = Z.shiftr (shr_m r) (Zpos q) ∧
             shr_r r' = Z.testbit (shr_m r) (Zpos q - 1))%Z).
  - rewrite shr_1_m, shr_1_r by done.
    split; [rewrite Z.div2_div; by apply Z.div_pos|].
    split; [by rewrite Z.div2_spec|]. by rewrite Z.bit0_odd.
  - intros q r' (Hr' & Hm & _). rewrite shr_1_m, shr_1_r by done.
    split; [rewrite Z.div2_div; by apply Z.div_pos|].
    rewrite Hm. split.
    + rewrite Z.div2_spec, Z.shiftr_shiftr by lia. f_equal. lia.
    + rewrite <- Z.bit0_odd, Z.shiftr_spec by lia. f_equal. lia.
Qed.

(** A value from [Bm * 2^Be] to less than half a unit above it rounds to
    [Bm * 2^Be]. *)
Lemma binary_round_aux_down (m : positive) (e : Z) (Bm : positive) (Be : Z) :
  (e ≤ Be)%Z → (Be ≤ 971)%Z →
  fexp prec emax (Z.log2 (Zpos Bm) + 1 + Be) = Be →
  (Zpos Bm * 2 ^ (Be - e) ≤ Zpos m)%Z →
  (2 * Zpos m < (2 * Zpos Bm + 1) * 2 ^ (Be - e))%Z →
  binary_round_aux prec emax false (Zpos m) e loc_Exact
  = S754_finite false Bm Be.
Proof.
  intros He HBe Hcan Hlo Hhi.
  set (k := (Be - e)%Z) in *.
  assert (0 < 2 ^ k)%Z as Hpow by (apply Z.pow_pos_nonneg; lia).
  pose proof (Z.log2_nonneg (Zpos Bm)) as HLB0.
  assert (Z.log2 (Zpos m) = Z.log2 (Zpos Bm) + k)%Z as HL.
  { apply Z.le_antisymm.
    - apply Z.lt_succ_r, Z.log2_lt_pow2; [lia|].
      destruct (Z.log2_spec (Zpos Bm)) as [_ HB]; [lia|].
      replace (Z.succ (Z.log2 (Zpos Bm) + k))
        with (Z.succ (Z.log2 (Zpos Bm)) + k)%Z by lia.
      rewrite Z.pow_add_r by lia.
      assert ((Zpos Bm + 1) * 2 ^ k ≤ 2 ^ Z.succ (Z.log2 (Zpos Bm)) * 2 ^ k)%Z
        by (apply Z.mul_le_mono_nonneg_r; lia).
      lia.
    - rewrite Z.add_comm, <- Z.log2_mul_pow2 by lia.
      by apply Z.log2_le_mono. }
  assert (Z.shiftr (Zpos m) k = Zpos Bm) as Hsh.
  { rewrite Z.shiftr_div_pow2 by lia. symmetry.
    apply (Z.div_unique _ _ _ (Zpos m - Zpos Bm * 2 ^ k)); nia. }
  assert ((let '(mrs, e') := shr_fexp prec emax (Zpos Bm) Be loc_Exact in
           match shr_m mrs with
           | Z0 => S754_zero false
           | Zpos m' =>
               if (e' <=? emax - prec)%Z then S754_finite false m' e'
               else S754_infinity false
           | Zneg _ => S754_nan
           end) = S754_finite false Bm Be) as Hexact.
  { unfold shr_fexp. rewrite Zdigits2_log2, Hcan, Z.sub_diag.
    cbn [shr shr_record_of_loc shr_m].
    destruct (Z.leb_spec Be (emax - prec)); [done|].
    unfold emax, prec in *. lia. }
  destruct (Z.eq_dec k 0%Z) as [Hk0|Hk0].
  { assert (e = Be) as -> by lia.
    rewrite Hk0, Z.pow_0_r in Hlo, Hhi.
    assert (m = Bm) as -> by lia.
    unfold binary_round_aux, shr_fexp at 1.
    rewrite Zdigits2_log2, Hcan, Z.sub_diag.
    cbn [shr shr_record_of_loc shr_m loc_of_shr_record round_nearest_even].
    exact Hexact. }
  unfold binary_round_aux, shr_fexp at 1.
  rewrite Zdigits2_log2, HL.
  replace (Z.log2 (Zpos Bm) + k + 1 + e)%Z
    with (Z.log2 (Zpos Bm) + 1 + Be)%Z by lia.
  rewrite Hcan. fold k. unfold shr.
  destruct k as [|kp|kp] eqn:Ek; [done| |lia].
  set (r1 := SpecFloat.iter_pos shr_1 kp _).
  assert (shr_m r1 = Zpos Bm) as Hm1.
  { unfold r1. by rewrite shr_m_iter. }
  assert (shr_r r1 = false) as Hr1.
  { unfold r1. rewrite shr_r_iter by done. simpl shr_m.
    apply Z.testbit_false; [lia|].
    assert (0 < 2 ^ (Zpos kp - 1))%Z as Hp by (apply Z.pow_pos_nonneg; lia).
    assert (2 ^ Zpos kp = 2 * 2 ^ (Zpos kp - 1))%Z as Hsplit.
    { rewrite <- Z.pow_succ_r by lia. f_equal. lia. }
    rewrite Hsplit in Hlo, Hhi.
    assert (Zpos m / 2 ^ (Zpos kp - 1) = 2 * Zpos Bm)%Z as ->.
    { symmetry.
      apply (Z.div_unique _ _ _ (Zpos m - 2 * Zpos Bm * 2 ^ (Zpos kp - 1)));
        nia. }
    by rewrite Z.mul_comm, Z.mod_mul. }
  assert (round_nearest_even (shr_m r1) (loc_of_shr_record r1) = Zpos Bm)
    as ->.
  { destruct r1 as [m1 rb sb]. simpl in Hm1, Hr1. subst m1 rb.
    by destruct sb. }
  replace (e + Zpos kp)%Z with Be by lia.
  exact Hexact.
Qed.

Lemma binary_round_down (p : positive) (e : Z) (Bm : positive) (Be : Z) :
  (e ≤ Be)%Z → (Be ≤ 971)%Z →
  fexp prec emax (Z.log2 (Zpos Bm) + 1 + Be) = Be →
  (Zpos Bm * 2 ^ (Be - e) ≤ Zpos p)%Z →
  (2 * Zpos p < (2 * Zpos Bm + 1) * 2 ^ (Be - e))%Z →
  binary_round prec emax false p e = S754_finite false Bm Be.
Proof.
  intros He HBe Hcan Hlo Hhi. unfold binary_round.
  set (e0 := fexp prec emax (Zpos (digits2_pos p) + e)).
  unfold shl_align.
  destruct (e0 - e)%Z as [|d|d] eqn:Ed;
    try (apply binary_round_aux_down; done).
  apply binary_round_aux_down; try done; [lia| |].
  all: change (Pos.iter xO p d) with (shift_pos d p);
    rewrite shift_pos_correct; change (Z.pow_pos 2 d) with (2 ^ Zpos d)%Z;
    replace (Be - e0)%Z with ((Be - e) + Zpos d)%Z by lia;
    rewrite Z.pow_add_r by lia;
    assert (0 < 2 ^ Zpos d)%Z by (apply Z.pow_pos_nonneg; lia);
    nia.
Qed.

(** Among canonical numbers that are not negative, the order compares the
    values. *)
Lemma canonical_le_aligned (ma mb : positive) (ea eb e0 : Z) :
  valid_binary (S754_finite false ma ea) = true →
  valid_binary (S754_finite false mb eb) = true →
  SFleb (S754_finite false ma ea) (S754_finite false mb eb) = true →
  (e0 ≤ ea)%Z →
  (ea ≤ eb ∧ Zpos ma * 2 ^ (ea - e0) ≤ Zpos mb * 2 ^ (eb - e0))%Z.
Proof.
  intros (Ha1 & Ha2 & Ha3)%valid_binary_bounds
         (Hb1 & Hb2 & Hb3)%valid_binary_bounds Hle H0.
  unfold SFleb in Hle. cbn [SFcompare] in Hle.
  destruct (Z.compare_spec ea eb) as [->|Hlt|Hgt]; [| |done].
  - split; [lia|].
    change (Pos.compare_cont Eq ma mb) with (Zpos ma ?= Zpos mb)%Z in Hle.
    destruct (Z.compare_spec (Zpos ma) (Zpos mb)); try done;
      apply Z.mul_le_mono_nonneg_r; try lia; apply Z.pow_nonneg; lia.
  - split; [lia|].
    replace (eb - e0)%Z with ((eb - ea) + (ea - e0))%Z by lia.
    rewrite Z.pow_add_r, Z.mul_assoc by lia.
    apply Z.mul_le_mono_nonneg_r; [apply Z.pow_nonneg; lia|].
    assert (2 ^ 1 ≤ 2 ^ (eb - ea))%Z by (apply Z.pow_le_mono_r; lia).
    specialize (Hb3 ltac:(lia)). nia.
Qed.

(** Adding a number between 0 and 100 to one between 0 and 2^60 gives a
    number between 0 and 2^60: a sum of scores never overflows, however
    many there are. *)
Lemma SFadd_saturates (ms md : positive) (es ed : Z) :
  valid_binary (S754_finite false ms es) = true →
  valid_binary (S754_finite false md ed) = true →
  SFleb (S754_finite false ms es) (S754_finite false 4503599627370496 8)
    = true →
  SFleb (S754_finite false md ed) (S754_finite false 7036874417766400 (-46))
    = true →
  SFleb (SFadd prec emax (S754_finite false ms es) (S754_finite false md ed))
        (S754_finite false 4503599627370496 8) = true.
Proof.
  intros Vs Vd Hs Hd.
  destruct (valid_binary_bounds _ _ _ Vs) as (Hes & _).
  destruct (valid_binary_bounds _ _ _ Vd) as (Hed & _).
  set (ez := Z.min es ed).
  destruct (canonical_le_aligned ms 4503599627370496 es 8 ez Vs eq_refl Hs
              ltac:(lia))
    as [Hes8 Ha].
  destruct (canonical_le_aligned md 7036874417766400 ed (-46) ez Vd eq_refl Hd
              ltac:(lia))
    as [Hed46 Hb].
  unfold SFadd. fold ez. cbn [cond_Zopp].
  pose proof (shl_align_fst ms es ez ltac:(lia)) as Ea.
  pose proof (shl_align_fst md ed ez ltac:(lia)) as Eb.
  set (a := (shl_align ms es ez).1) in *.
  set (b := (shl_align md ed ez).1) in *.
  change (Zpos a + Zpos b)%Z with (Zpos (a + b)). cbn [binary_normalize].
  rewrite <- Ea in Ha. rewrite <- Eb in Hb.
  assert (ez ≤ -46)%Z as Hez by lia.
  assert (0 < 2 ^ (-46 - ez))%Z as Hp by (apply Z.pow_pos_nonneg; lia).
  assert (2 ^ (8 - ez) = 2 ^ 54 * 2 ^ (-46 - ez))%Z as Hsplit.
  { rewrite <- Z.pow_add_r by lia. f_equal. lia. }
  rewrite Hsplit in Ha.
  destruct (Z.lt_ge_cases (Zpos (a + b)) (4503599627370496 * 2 ^ (8 - ez)))
    as [Hlt|Hge].
  - apply binary_round_le; [lia|lia|done|done].
  - rewrite (binary_round_down (a + b) ez 4503599627370496 8);
      [done|lia|lia|done|done|].
    rewrite Hsplit, Pos2Z.inj_add.
    change (2 ^ 54)%Z with 18014398509481984%Z in *. lia.
Qed.

(** ** IEEE 754 facts about overflow

    Rounding overflows only near the largest exponent, whatever the
    mantissa and the exponent it starts from. *)

Lemma Zdigits2_le (m : Z) : (0 ≤ m)%Z → (0 ≤ Zdigits2 m ≤ Z.log2 m + 1)%Z.
Proof.
  intros Hm. destruct m as [|p|p]; [done| |lia].
  rewrite Zdigits2_log2. pose proof (Z.log2_nonneg (Zpos p)). lia.
Qed.

Lemma shr_fexp_shift (m e : Z) (l : location) :
  (0 ≤ m)%Z →
  let n := Z.max 0 (fexp prec emax (Zdigits2 m + e) - e) in
  ∃ r, shr_fexp prec emax m e l = (r, (e + n)%Z) ∧
       shr_m r = Z.shiftr m n.
Proof.
  intros Hm. unfold shr_fexp, shr.
  destruct (fexp prec emax (Zdigits2 m + e) - e)%Z as [|p|p] eqn:E;
    simpl Z.max.
  - eexists. rewrite Z.add_0_r. split; [done|]. apply shr_record_of_loc_m.
  - eexists. split; [done|].
    rewrite shr_m_iter; rewrite shr_record_of_loc_m; done.
  - eexists. rewrite Z.add_0_r. split; [done|]. apply shr_record_of_loc_m.
Qed.

Lemma log2_shiftr_le (m n : Z) :
  (0 ≤ m)%Z → (0 ≤ n)%Z → (Z.log2 (Z.shiftr m n) + n ≤ Z.max n (Z.log2 m))%Z.
Proof.
  intros Hm Hn. destruct (Z.eq_dec m 0%Z) as [->|Hne].
  - rewrite Z.shiftr_0_l. simpl. lia.
  - rewrite Z.log2_shiftr by lia. lia.
Qed.

(** A mantissa that is not negative, with [log2 m + e] and [e] at most
    900, rounds to zero or to a finite number. *)
Lemma binary_round_aux_finite (m e : Z) (l : location) :
  (0 ≤ m)%Z → (e ≤ 900)%Z → (Z.log2 m + e ≤ 900)%Z →
  binary_round_aux prec emax false m e l ≠ S754_infinity false.
Proof.
  intros Hm He HL. unfold binary_round_aux.
  destruct (shr_fexp_shift m e l Hm) as (r1 & -> & Hr1).
  set (n1 := Z.max 0 (fexp prec emax (Zdigits2 m + e) - e)) in *.
  pose proof (Zdigits2_le m Hm) as Hd1.
  assert (0 ≤ n1)%Z as Hn1 by (unfold n1; lia).
  assert (e + n1 ≤ 900)%Z as He1.
  { unfold n1, fexp, emin, prec, emax. lia. }
  assert (0 ≤ shr_m r1)%Z as Hm1 by (rewrite Hr1; by apply Z.shiftr_nonneg).
  pose proof (log2_shiftr_le m n1 Hm Hn1) as Hlog1. rewrite <- Hr1 in Hlog1.
  pose proof (round_nearest_even_bounds (shr_m r1) (loc_of_shr_record r1))
    as Hrne.
  set (q := round_nearest_even (shr_m r1) (loc_of_shr_record r1)) in *.
  assert (0 ≤ q)%Z as Hq by lia.
  assert (Z.log2 q ≤ Z.log2 (shr_m r1) + 1)%Z as Hlogq.
  { etrans; [apply Z.log2_le_mono; apply Hrne|].
    rewrite Z.add_1_r. apply Z.log2_succ_le. }
  destruct (shr_fexp_shift q (e + n1) loc_Exact Hq) as (r2 & -> & Hr2).
  set (n2 := Z.max 0 (fexp prec emax (Zdigits2 q + (e + n1)) - (e + n1))) in *.
  pose proof (Zdigits2_le q Hq) as Hd2.
  destruct (shr_m r2) as [|m'|m']; [done| |done].
  destruct (Z.leb_spec (e + n1 + n2) (emax - prec)); [done|].
  unfold n2, fexp, emin, prec, emax in *. lia.
Qed.

(** Rounding never lowers the exponent. *)
Lemma binary_round_aux_exponent (m : positive) (e : Z) (l : location)
    (m' : positive) (e' : Z) :
  binary_round_aux prec emax false (Zpos m) e l = S754_finite false m' e' →
  (e ≤ e')%Z.
Proof.
  unfold binary_round_aux.
  destruct (shr_fexp_shift (Zpos m) e l ltac:(lia)) as (r1 & -> & Hr1).
  set (n1 := Z.max 0 _) in *.
  assert (0 ≤ shr_m r1)%Z as Hm1 by (rewrite Hr1; by apply Z.shiftr_nonneg).
  pose proof (round_nearest_even_bounds (shr_m r1) (loc_of_shr_record r1))
    as Hrne.
  set (q := round_nearest_even (shr_m r1) (loc_of_shr_record r1)) in *.
  destruct (shr_fexp_shift q (e + n1) loc_Exact ltac:(lia)) as (r2 & -> & Hr2).
  set (n2 := Z.max 0 _) in *.
  destruct (shr_m r2) as [|m2|m2]; [done| |done].
  destruct (_ <=? _)%Z; [|done]. intros [= _ <-]. lia.
Qed.

(** [float64(n)] for a positive [int] is a number that is at least a unit
    in the last place of 1. *)
Lemma float64_of_int_exponent (n : Z) :
  (1 ≤ n ≤ max_int)%Z →
  ∃ m e, Prim2SF (float64_of_int n) = S754_finite false m e ∧ (-52 ≤ e)%Z.
Proof.
  intros Hn.
  destruct (float64_of_int_pos n Hn) as (m & e & Hme).
  exists m, e. split; [done|]. revert Hme.
  unfold float64_of_int, max_int in *.
  destruct (Z.ltb_spec n 0); [lia|].
  rewrite of_uint63_spec, Uint63.of_Z_spec.
  rewrite Z.mod_small by (change Uint63.wB with (2 ^ 63)%Z; lia).
  destruct n as [|p|p]; [lia| |lia].
  unfold binary_normalize, binary_round.
  pose proof (Z.log2_nonneg (Zpos p)) as Hlog0.
  change (Zpos (digits2_pos p)) with (Zdigits2 (Zpos p)).
  rewrite Zdigits2_log2.
  set (e0 := fexp prec emax (Z.log2 (Zpos p) + 1 + 0)).
  assert (-52 ≤ e0)%Z as He0 by (unfold e0, fexp, emin, prec, emax; lia).
  unfold shl_align.
  destruct (e0 - 0)%Z as [|d|d] eqn:Ed;
    intros Hr%binary_round_aux_exponent; lia.
Qed.

(** What the division core returns: a quotient that is not negative, with
    its exponent and size bounded by those of the operands. *)
Lemma SFdiv_core_binary_bounds (m1 m2 : positive) (e1 e2 : Z) :
  let '(q, e', _) := SFdiv_core_binary prec emax (Zpos m1) e1 (Zpos m2) e2 in
  (0 ≤ q ∧ e' ≤ e1 - e2 ∧ Z.log2 q + e' ≤ Z.log2 (Zpos m1) + (e1 - e2))%Z.
Proof.
  unfold SFdiv_core_binary.
  set (e' := Z.min _ (e1 - e2)).
  assert (e' ≤ e1 - e2)%Z as He' by (unfold e'; lia).
  set (s := (e1 - e2 - e')%Z).
  set (m' := match s with Z0 => _ | Zpos _ => _ | Zneg _ => _ end).
  assert (0 ≤ m' ∧ Z.log2 m' = Z.log2 (Zpos m1) + s)%Z as [Hm' Hlog].
  { unfold m'. destruct s as [|sp|sp] eqn:Es; [split; lia| |lia].
    split; [apply Z.shiftl_nonneg; lia|].
    rewrite Z.log2_shiftl by lia. done. }
  pose proof (Z.div_pos m' (Zpos m2) Hm' ltac:(lia)) as Hq.
  assert (m' / Zpos m2 ≤ m')%Z as Hle.
  { destruct (Z.eq_dec m' 0%Z) as [->|]; [done|].
    apply Z.div_le_upper_bound; [lia|]. nia. }
  unfold Z.div in Hq, Hle. destruct (Z.div_eucl m' (Zpos m2)) as [q r].
  split; [done|]. split; [done|].
  pose proof (Z.log2_le_mono q m' Hle). unfold s in *. lia.
Qed.

(** ** Scores between 0 and 100: their sum, mean and deviation *)

Lemma SF_is_finite (x : float) :
  match Prim2SF x with
  | S754_zero _ | S754_finite _ _ _ => True
  | _ => False
  end →
  is_finite x = true.
Proof.
  unfold is_finite, is_nan, is_infinity.
  rewrite !FloatAxioms.eqb_spec, abs_spec.
  change (Prim2SF infinity) with (S754_infinity false).
  destruct (Prim2SF x) as [[]|[]| |s m e] eqn:Hx; try done.
  intros _. unfold SFeqb. rewrite SFcompare_rank.
  destruct s; cbn [SFrank]; by rewrite (proj2 (lex3_Eq _ _)).
Qed.

Lemma not_below_zero_bounded (x b : float) :
  (0 <=? x)%float = true → (x <=? b)%float = true → is_finite b = true →
  is_finite x = true.
Proof.
  intros H0 Hb Hfin. apply SF_is_finite. revert H0 Hb.
  rewrite !leb_spec, Prim2SF_zero.
  destruct (is_finite_SF b Hfin) as [[s ->]|(s & m & e & ->)];
    destruct (Prim2SF x) as [[]|[]| |[] mx ex]; try done; by destruct s.
Qed.

(** Adding a score to a sum between 0 and 2^60 gives a sum between 0 and
    2^60. *)
Lemma add_saturates (s d : float) :
  (0 <=? s)%float = true → (s <=? 1152921504606846976)%float = true →
  (0 <=? d)%float = true → (d <=? 100)%float = true →
  (0 <=? s + d)%float = true ∧ (s + d <=? 1152921504606846976)%float = true.
Proof.
  rewrite !leb_spec, add_spec, Prim2SF_zero.
  change (Prim2SF 1152921504606846976)
    with (S754_finite false 4503599627370496 8).
  change (Prim2SF 100) with (S754_finite false 7036874417766400 (-46)).
  pose proof (Prim2SF_valid s) as Vs. pose proof (Prim2SF_valid d) as Vd.
  destruct (Prim2SF s) as [[]|[]| |[] ms es]; try done;
    destruct (Prim2SF d) as [[]|[]| |[] md ed]; try done;
    intros _ Hs _ Hd; try done.
  1,2: unfold SF64add, SFadd; split; [done|];
    destruct (canonical_le_aligned md 7036874417766400 ed (-46) ed Vd eq_refl
                Hd ltac:(lia)) as [Hed _];
    unfold SFleb; cbn [SFcompare];
    by destruct (Z.compare_spec ed 8); [lia| |lia].
  pose proof (SFadd_saturates ms md es ed Vs Vd Hs Hd) as Hle.
  split; [|done].
  unfold SF64add, SFadd in *. cbn [cond_Zopp] in *.
  change (Zpos ?a + Zpos ?b)%Z with (Zpos (a + b)) in *.
  cbn [binary_normalize] in *.
  pose proof (binary_round_pos0 ((shl_align ms es (es `min` ed)).1
                                 + (shl_align md ed (es `min` ed)).1)
                (es `min` ed)) as Hp.
  by destruct (binary_round _ _ _ _ _) as [[]|[]| |[] ? ?].
Qed.

Lemma fsum_bounded (xs : list float) (s : float) :
  Forall (λ v, (0 <=? v)%float = true ∧ (v <=? 100)%float = true) xs →
  (0 <=? s)%float = true → (s <=? 1152921504606846976)%float = true →
  (0 <=? fold_left (λ sum v, sum + v) xs s)%float = true ∧
  (fold_left (λ sum v, sum + v) xs s <=? 1152921504606846976)%float = true.
Proof.
  intros Hxs. revert s. induction Hxs as [|v xs [Hv0 Hv] _ IH]; intros s H0 Hs;
    [done|].
  simpl. destruct (add_saturates s v H0 Hs Hv0 Hv). by apply IH.
Qed.

(** A sum between 0 and 2^60 over a positive count is finite. *)
Lemma div_count_finite (x : float) (n : Z) :
  (0 <=? x)%float = true → (x <=? 1152921504606846976)%float = true →
  (1 ≤ n ≤ max_int)%Z →
  is_finite (x / float64_of_int n) = true.
Proof.
  intros H0 Hx Hn.
  destruct (float64_of_int_exponent n Hn) as (md & ed & Hd & Hed).
  pose proof (Prim2SF_valid x) as Vx. revert H0 Hx.
  rewrite !leb_spec, Prim2SF_zero.
  change (Prim2SF 1152921504606846976)
    with (S754_finite false 4503599627370496 8).
  intros H0 Hx. apply SF_is_finite. revert H0 Hx.
  rewrite div_spec, Hd.
  destruct (Prim2SF x) as [[]|[]| |[] mx ex]; try done.
  intros _ Hx.
  destruct (canonical_le_aligned mx 4503599627370496 ex 8 ex Vx eq_refl Hx
              ltac:(lia)) as [Hex _].
  destruct (valid_binary_bounds _ _ _ Vx) as (_ & Hmx & _).
  assert (Z.log2 (Zpos mx) < 53)%Z as Hlog by (apply Z.log2_lt_pow2; lia).
  unfold SF64div, SFdiv.
  pose proof (SFdiv_core_binary_bounds mx md ex ed) as Hb.
  destruct (SFdiv_core_binary _ _ _ _ _ _) as [[q e'] l].
  destruct Hb as (Hq & He' & Hlq). simpl xorb.
  pose proof (binary_round_aux_pos0 q e' l Hq) as Hp.
  pose proof (binary_round_aux_finite q e' l Hq ltac:(lia) ltac:(lia)) as Hf.
  by destruct (binary_round_aux _ _ _ _ _ _) as [[]|[]| |[] ? ?].
Qed.

(** The difference of two finite numbers is a number. *)
Lemma sub_finite_number (a b : float) :
  is_finite a = true → is_finite b = true → Prim2SF (a - b) ≠ S754_nan.
Proof.
  intros Ha Hb. rewrite sub_spec.
  destruct (is_finite_SF a Ha) as [[sa ->]|(sa & ma & ea & ->)],
    (is_finite_SF b Hb) as [[sb ->]|(sb & mb & eb & ->)];
    try (by destruct sa, sb).
  unfold SF64sub, SFsub.
  destruct (_ - _)%Z as [|p|p]; cbn [binary_normalize]; [done| |].
  - pose proof (binary_round_pos0 p (ea `min` eb)) as Hp.
    by destruct (binary_round _ _ _ _ _).
  - rewrite binary_round_opp.
    pose proof (binary_round_pos0 p (ea `min` eb)) as Hp.
    by destruct (binary_round _ _ _ _ _).
Qed.

(** The square of a number is a number that is not negative. *)
Lemma mul_self_pos0 (x : float) :
  Prim2SF x ≠ S754_nan → SFpos0 (Prim2SF (x * x)) = true.
Proof.
  rewrite mul_spec.
  destruct (Prim2SF x) as [[]|[]| |[] m e]; try done; intros _;
    by apply binary_round_aux_pos0.
Qed.

Lemma add_pos0 (a b : float) :
  SFpos0 (Prim2SF a) = true → SFpos0 (Prim2SF b) = true →
  SFpos0 (Prim2SF (a + b)) = true.
Proof.
  rewrite add_spec.
  destruct (Prim2SF a) as [[]|[]| |[] ma ea], (Prim2SF b) as [[]|[]| |[] mb eb];
    try done.
  intros _ _. unfold SF64add, SFadd. cbn [cond_Zopp].
  change (Zpos ?x + Zpos ?y)%Z with (Zpos (x + y)). cbn [binary_normalize].
  apply binary_round_pos0.
Qed.

Lemma div_count_pos0 (a : float) (n : Z) :
  SFpos0 (Prim2SF a) = true → (1 ≤ n ≤ max_int)%Z →
  SFpos0 (Prim2SF (a / float64_of_int n)) = true.
Proof.
  intros Ha Hn. destruct (float64_of_int_pos n Hn) as (md & ed & Hd).
  rewrite div_spec, Hd.
  destruct (Prim2SF a) as [[]|[]| |[] ma ea]; try done.
  unfold SF64div, SFdiv.
  pose proof (SFdiv_core_binary_nonneg ma md ea ed) as Hq.
  destruct (SFdiv_core_binary _ _ _ _ _ _) as [[q e'] l].
  by apply binary_round_aux_pos0.
Qed.

Lemma sqrt_pos0 (x : float) :
  SFpos0 (Prim2SF x) = true → SFpos0 (Prim2SF (sqrt x)) = true.
Proof.
  rewrite sqrt_spec.
  destruct (Prim2SF x) as [[]|[]| |[] m e]; try done.
  intros _. unfold SF64sqrt, SFsqrt, SFsqrt_core_binary.
  set (m' := match _ with Z0 => _ | Zpos _ => _ | Zneg _ => _ end).
  pose proof (Z.sqrtrem_sqrt m') as Hs.
  pose proof (Z.sqrt_nonneg m') as Hq.
  destruct (Z.sqrtrem m') as [q r]. simpl in Hs. subst q.
  by apply binary_round_aux_pos0.
Qed.

Lemma average_finite (xs : list float) :
  xs ≠ [] → (len xs ≤ max_int)%Z →
  Forall (λ v, (0 <=? v)%float = true ∧ (v <=? 100)%float = true) xs →
  is_finite (engine.average xs) = true.
Proof.
  intros Hne Hlen Hxs. unfold engine.average.
  destruct (Z.eqb_spec (len xs) 0) as [H0|H0].
  { destruct xs; [done|]. unfold len in H0. simpl in H0. lia. }
  destruct (fsum_bounded xs 0 Hxs eq_refl eq_refl) as [Hlo Hhi].
  apply div_count_finite; [done..|]. unfold len in *. lia.
Qed.

Lemma sum_squares_pos0 (avg : float) (xs : list float) (s : float) :
  is_finite avg = true → Forall (λ v, is_finite v = true) xs →
  SFpos0 (Prim2SF s) = true →
  SFpos0 (Prim2SF (fold_left (λ sumSquares v,
                                let diff := (v - avg)%float in
                                (sumSquares + diff * diff)%float) xs s))
  = true.
Proof.
  intros Havg Hxs. revert s. induction Hxs as [|v xs Hv _ IH]; intros s Hs;
    [done|].
  simpl. apply IH, add_pos0; [done|].
  by apply mul_self_pos0, sub_finite_number.
Qed.

(** The deviation of scores between 0 and 100 is a number that is not
    negative. *)
Lemma stdDev_pos0 (xs : list float) :
  (len xs ≤ max_int)%Z →
  Forall (λ v, (0 <=? v)%float = true ∧ (v <=? 100)%float = true) xs →
  SFpos0 (Prim2SF (engine.stdDev xs)) = true.
Proof.
  intros Hlen Hxs. unfold engine.stdDev.
  destruct (Z.ltb_spec (len xs) 2) as [|H2]; [done|].
  apply sqrt_pos0, div_count_pos0; [|lia].
  apply sum_squares_pos0; [| |done].
  - apply average_finite; [|done..].
    intros ->. unfold len in H2. simpl in H2. lia.
  - eapply Forall_impl; [exact Hxs|]. intros v [Hv0 Hv].
    by apply (not_below_zero_bounded v 100).
Qed.

(** The consistency of a deviation that is a number and not negative,
    for a finite average: a number between 0 and 100. *)
Lemma consistency_in_range (sd avg : float) :
  SFpos0 (Prim2SF sd) = true → is_finite avg = true →
  (0 <=? engine.consistency sd avg)%float = true ∧
  (engine.consistency sd avg <=? 100)%float = true.
Proof.
  intros Hsd Havg. unfold engine.consistency.
  destruct (0 <? avg)%float eqn:Hpos; [|done].
  assert (SFpos0 (Prim2SF (sd / avg * 100)) = true) as Hr.
  { rewrite ltb_spec, Prim2SF_zero in Hpos.
    rewrite mul_spec, div_spec.
    change (Prim2SF 100) with (S754_finite false 7036874417766400 (-46)).
    assert (SFpos0 (SF64div (Prim2SF sd) (Prim2SF avg)) = true) as Hq.
    { destruct (is_finite_SF avg Havg) as [[s Hs]|(s & m & e & Hs)];
        rewrite Hs in Hpos |- *; destruct s; try done;
        destruct (Prim2SF sd) as [[]|[]| |[] ms es]; try done.
      unfold SF64div, SFdiv.
      pose proof (SFdiv_core_binary_nonneg ms m es e) as Hq.
      destruct (SFdiv_core_binary _ _ _ _ _ _) as [[q eq] lq].
      by apply binary_round_aux_pos0. }
    destruct (SF64div (Prim2SF sd) (Prim2SF avg)) as [[]|[]| |[] mr er];
      try done.
    by apply binary_round_aux_pos0. }
  pose proof (sub_100_le _ Hr) as Hle.
  destruct (_ <? 0)%float eqn:Hneg; [done|].
  split; [|done]. by apply (leb_zero_of_not_ltb _ 100).
Qed.

(** The consistency of the scores of a model, when they are between 0
    and 100. *)
Lemma consistency_of_scores (xs : list float) :
  xs ≠ [] → (len xs ≤ max_int)%Z →
  Forall (λ v, (0 <=? v)%float = true ∧ (v <=? 100)%float = true) xs →
  (0 <=? engine.consistency (engine.stdDev xs) (engine.average xs))%float
    = true ∧
  (engine.consistency (engine.stdDev xs) (engine.average xs) <=? 100)%float
    = true.
Proof.
  intros Hne Hlen Hxs.
  apply consistency_in_range; [by apply stdDev_pos0|by apply average_finite].
Qed.

(** C10. For a model with at least one successful run, [StdDev] is the
    sample standard deviation (divisor n - 1) of the successful total
    scores, 0 for fewer than two of them; [Consistency] is
    [100 - (StdDev / AvgScore) * 100] clamped below at 0 when
    [AvgScore > 0], and 0 when [AvgScore = 0].  [Consistency] is never a
    number below 0 or above 100; and when the total scores of the
    successful runs lie between 0 and 100, as those that
    [CalculateTotalScore] computes do, it is a number between 0 and 100,
    however many runs there are ([len(results)] being an [int]). *)
Theorem consistency_formula
    (range_order :
       list (string * list BenchResult) → list (string * list BenchResult))
    (sort_Slice :
       (ModelStatistics → ModelStatistics → bool) →
       list ModelStatistics → list ModelStatistics) :
  (∀ l, range_order l ≡ₚ l) →
  (∀ less l, sort_Slice less l ≡ₚ l) →
  ∀ (results : list BenchResult) (s : ModelStatistics),
    s ∈ engine.calculateStatistics range_order sort_Slice results →
    (1 ≤ SuccessCount s)%Z →
    let xs := TotalScore <$> successful (runs_of (stat_Model s) results) in
    SuccessCount s = len xs ∧
    AvgScore s = mean xs (len xs) ∧
    StdDev s = sample_stddev xs ∧
    ((len xs < 2)%Z → StdDev s = 0%float) ∧
    ((0 <? AvgScore s)%float = true →
       Consistency s
       = clamp_below_0 (100 - StdDev s / AvgScore s * 100)%float) ∧
    ((AvgScore s =? 0)%float = true → Consistency s = 0%float) ∧
    (Consistency s <? 0)%float = false ∧
    (100 <? Consistency s)%float = false ∧
    ((len results ≤ max_int)%Z →
     Forall (λ v, (0 <=? v)%float = true ∧ (v <=? 100)%float = true) xs →
       (0 <=? Consistency s)%float = true ∧
       (Consistency s <=? 100)%float = true).
Proof.
  intros Hrange Hsort results s (m & Hne & ->)%calculateStatistics_elem Hsucc;
    [|done..].
  unfold statistics_of at 1. rewrite stat_Model_model_statistics.
  fold (statistics_of m results).
  destruct (statistics_of_scores m results) as [Hn Hs].
  destruct (Hs Hsucc) as (Havg & Hsd & Hc).
  set (xs := TotalScore <$> successful (runs_of m results)) in *.
  cbv zeta.
  assert (xs ≠ []) as Hxs.
  { intros Hnil. rewrite Hnil in Hn. unfold len in Hn. simpl in Hn. lia. }
  split; [done|]. split; [by rewrite Havg, average_mean|].
  split; [by rewrite Hsd, stdDev_sample|].
  split.
  { intros Hlt. rewrite Hsd. unfold engine.stdDev.
    by destruct (Z.ltb_spec (len xs) 2); [|lia]. }
  rewrite Hc. unfold engine.consistency at 1 2, clamp_below_0.
  split; [by intros ->|].
  split.
  { intros H0%eqb_ltb_false. by rewrite H0. }
  assert (nn (StdDev (statistics_of m results))) as Hnn
    by (rewrite Hsd; apply nn_stdDev).
  destruct (consistency_never_outside _ (AvgScore (statistics_of m results)) Hnn)
    as [Hlo Hhi].
  split; [done|]. split; [done|].
  intros Hlen Hscores. rewrite Hsd, Havg.
  apply consistency_of_scores; [done| |done].
  assert (len xs ≤ len results)%Z; [|lia].
  unfold xs, len, successful, runs_of. rewrite length_fmap.
  pose proof (length_filter (λ r, Error r = "")
                (filter (λ r, Model r = m) results)).
  pose proof (length_filter (λ r, Model r = m) results). lia.
Qed.

Lemma consistency_formula_witness :
  let results := [sample_run "alpha" "" 80; sample_run "beta" "" 60;
                  sample_run "alpha" "" 100] in
  let s := statistics_of "alpha" results in
  AvgScore s = 90%float ∧
  Consistency s = clamp_below_0 (100 - StdDev s / AvgScore s * 100)%float ∧
  (0 <=? Consistency s)%float = true ∧ (Consistency s <=? 100)%float = true.
Proof.
  intros results s.
  assert (s ∈ engine.calculateStatistics (λ l, l) engine.insertion_sort results)
    as Hin.
  { apply (calculateStatistics_elem (λ l, l) engine.insertion_sort
             (λ l, reflexivity l) (λ less l, insertion_sort_perm less l)).
    exists "alpha". split; [|done]. by vm_compute. }
  destruct (consistency_formula (λ l, l) engine.insertion_sort
              (λ l, reflexivity l) (λ less l, insertion_sort_perm less l)
              results s Hin ltac:(by vm_compute))
    as (_ & Havg & _ & _ & Hc & _ & _ & _ & Hr).
  split; [by rewrite Havg; vm_compute|].
  split; [apply Hc; by vm_compute|].
  apply Hr; [by vm_compute|].
  repeat constructor; by vm_compute.
Defined.

(** For total scores outside the scores' range the consistency need not
    be a number: two successful runs at [2^1023] have the average [+Inf]
    and the deviation [+Inf], and their consistency is NaN, which is not
    between 0 and 100. *)
Lemma consistency_not_a_number :
  statistics_of "alpha" overflow_runs
    ∈ engine.calculateStatistics (λ l, l) engine.insertion_sort overflow_runs ∧
  SuccessCount (statistics_of "alpha" overflow_runs) = 2%Z ∧
  (0 <=? Consistency (statistics_of "alpha" overflow_runs))%float = false ∧
  (Consistency (statistics_of "alpha" overflow_runs) <=? 100)%float = false.
Proof.
  split.
  { apply (calculateStatistics_elem (λ l, l) engine.insertion_sort
             (λ l, reflexivity l) (λ less l, insertion_sort_perm less l)).
    exists "alpha". split; [|done]. by vm_compute. }
  by vm_compute.
Qed.

(** ** The scores and the consistency of a report *)

Lemma runSingleBenchmark_total_range (w : World) (snapshotID : string)
    (mc : ModelConfig) (prompt : string) (expected : IndicatorResult)
    (runIndex : Z) :
  let r := orchestrator.runSingleBenchmark w snapshotID mc prompt expected
             runIndex in
  (0 <=? TotalScore r)%float = true ∧ (TotalScore r <=? 100)%float = true.
Proof.
  destruct (runSingleBenchmark_cases w snapshotID mc prompt expected runIndex)
    as (_ & _ & _ & _ & _ & _ & Hcase).
  cbv zeta in *.
  destruct (Chat w mc snapshotID runIndex prompt).2 as [e|].
  { destruct Hcase as (_ & _ & _ & ->). done. }
  destruct (llm.ParseIndicatorResponse _ _ _) as [actual|e].
  - destruct Hcase as (_ & _ & _ & _ & ->).
    apply CalculateTotalScore_bounds.
  - destruct Hcase as (_ & _ & _ & ->). done.
Qed.

Lemma scheduled_batches_perm (w : World) (config : BenchConfig)
    (snapshots : list Snapshot) :
  (∀ l, schedule w l ≡ₚ l) →
  concat (scheduled_batches w config snapshots)
  ≡ₚ concat (planned_batches w config snapshots).
Proof.
  intros Hsched. unfold scheduled_batches, planned_batches.
  induction snapshots as [|s snapshots IH]; [done|].
  rewrite !bind_cons, !concat_app. apply Permutation_app; [|done].
  generalize (seqZ 0 (Runs config)). intros l.
  induction l as [|i l IHl]; [done|].
  rewrite !fmap_cons. simpl. by rewrite Hsched, IHl.
Qed.

Lemma planned_batches_total_range (w : World) (config : BenchConfig)
    (snapshots : list Snapshot) :
  Forall (λ r, (0 <=? TotalScore r)%float = true ∧
               (TotalScore r <=? 100)%float = true)
    (concat (planned_batches w config snapshots)).
Proof.
  apply Forall_concat, Forall_forall. intros batch Hbatch.
  unfold planned_batches in Hbatch.
  apply list_elem_of_bind in Hbatch as (s & Hbatch & _).
  apply list_elem_of_fmap in Hbatch as (runIdx & -> & _).
  unfold planned_batch. destruct (CalculateIndicators (Klines s)); [|done].
  apply Forall_fmap, Forall_forall. intros mc _.
  apply runSingleBenchmark_total_range.
Qed.

(** The consistency of a model, with or without successful runs. *)
Lemma statistics_of_consistency (m : string) (results : list BenchResult) :
  let xs := TotalScore <$> successful (runs_of m results) in
  Consistency (statistics_of m results)
  = if (0 <? len xs)%Z
    then engine.consistency (engine.stdDev xs) (engine.average xs)
    else 0%float.
Proof.
  unfold statistics_of, engine.model_statistics.
  pose proof (tally_scores (runs_of m results) engine.empty_tally) as Hsc.
  simpl in Hsc. rewrite Hsc.
  by destruct (Z.ltb_spec 0 (len (TotalScore <$> successful (runs_of m results)))).
Qed.

(** X30. In every report that [Run] returns, the total score of each result
    and the consistency of each statistics record are numbers between 0
    and 100: the scores are means of tier scores, and the sums over them
    cannot overflow, however many results there are. *)
Theorem Run_consistency_in_range (w : World) (config : BenchConfig)
    (report : BenchReport) :
  (∀ l, schedule w l ≡ₚ l) →
  (∀ l, range_order w l ≡ₚ l) →
  (∀ less l, sort_statistics w less l ≡ₚ l) →
  orchestrator.Run w config = Some (Ok report) →
  (len (Results report) ≤ max_int)%Z →
  Forall (λ r, (0 <=? TotalScore r)%float = true ∧
               (TotalScore r <=? 100)%float = true) (Results report) ∧
  Forall (λ s, (0 <=? Consistency s)%float = true ∧
               (Consistency s <=? 100)%float = true) (Statistics report).
Proof.
  intros Hsched Hrange Hsort. unfold orchestrator.Run.
  destruct (orchestrator.acquire w config) as [snapshots|e]; [|done].
  rewrite benchmark_fold. simpl. intros [= <-]. simpl.
  set (results := concat (scheduled_batches w config snapshots)).
  intros Hlen.
  assert (Forall (λ r, (0 <=? TotalScore r)%float = true ∧
                       (TotalScore r <=? 100)%float = true) results) as Hres.
  { unfold results. rewrite scheduled_batches_perm by done.
    apply planned_batches_total_range. }
  split; [done|].
  apply Forall_forall. intros s Hs.
  apply calculateStatistics_elem in Hs as (m & Hne & ->); [|done..].
  rewrite statistics_of_consistency. cbv zeta.
  set (xs := TotalScore <$> successful (runs_of m results)).
  destruct (Z.ltb_spec 0 (len xs)) as [Hpos|]; [|done].
  apply consistency_of_scores.
  - intros Hnil. rewrite Hnil in Hpos. unfold len in Hpos. simpl in Hpos. lia.
  - assert (len xs ≤ len results)%Z; [|lia].
    unfold xs, len, successful, runs_of. rewrite length_fmap.
    pose proof (length_filter (λ r, Error r = "")
                  (filter (λ r, Model r = m) results)).
    pose proof (length_filter (λ r, Model r = m) results). lia.
  - unfold xs, successful, runs_of.
    apply Forall_fmap, Forall_forall.
    intros r [_ [_ Hr]%list_elem_of_filter]%list_elem_of_filter.
    by apply (proj1 (Forall_forall _ _) Hres).
Qed.

Lemma Run_consistency_in_range_witness :
  ∃ report, orchestrator.Run online two_model_config = Some (Ok report) ∧
    Forall (λ r, (0 <=? TotalScore r)%float = true ∧
                 (TotalScore r <=? 100)%float = true) (Results report) ∧
    Forall (λ s, (0 <=? Consistency s)%float = true ∧
                 (Consistency s <=? 100)%float = true) (Statistics report).
Proof.
  assert (∃ report snapshot,
            orchestrator.Run online two_model_config = Some (Ok report) ∧
            Results report
            = concat (scheduled_batches online two_model_config [snapshot]))
    as (report & snapshot & Hrun & Hres).
  { unfold orchestrator.Run.
    destruct (orchestrator.acquire online two_model_config)
      as [[|snapshot [|]]|] eqn:Hacq; try by vm_compute in Hacq.
    rewrite benchmark_fold. by eexists _, _. }
  exists report. split; [exact Hrun|].
  apply (Run_consistency_in_range online two_model_config report
           (λ l, reverse_Permutation l) (λ l, reflexivity l)
           (λ less l, insertion_sort_perm less l) Hrun).
  rewrite Hres. unfold len.
  rewrite (scheduled_batches_perm online two_model_config [snapshot]
             (λ l, reverse_Permutation l)).
  pose proof (length_concat_planned online two_model_config [snapshot]) as Hl.
  unfold len in Hl. rewrite Hl; [|simpl; lia].
  unfold max_int. simpl. lia.
Defined.
